(** * async-queue-manager: task graph, queue manager and adaptive concurrency

    A shallow embedding of [lib/task-graph.js], [lib/queue-manager.js],
    [lib/adaptive-concurrency.js] and the concurrency controls of
    [lib/monitor.js], the properties of the specification checked against
    it, and further properties of the code. *)

From Stdlib Require Import QArith Qminmax Lqa.
From stdpp Require Import gmap strings list fin_maps fin_sets.
Close Scope Q_scope.
Set Warnings "-clear-no-such-hyp".

(** Task ids are the strings the callers pass ('task1', 'task-17', ...). *)
Abbreviation TaskId := string (only parsing).

(** The errors of the specification's taxonomy.  The source throws a plain
    [Error] whose message tells them apart:
    - "Task with ID ... already exists"                     [DuplicateTaskError]
    - "(Dependency) task with ID ... does not exist"        [UnknownTaskError]
    - "... would create a cycle" / "Graph has a cycle"      [CycleError]
    - "Concurrency must be a positive number"               [ValidationError] *)
Inductive Error :=
  | DuplicateTaskError
  | UnknownTaskError
  | CycleError
  | ValidationError.

#[global] Instance Error_eq_dec : EqDecision Error.
Proof. solve_decision. Defined.

(** What a call leaves behind: a returned value or a thrown error. *)
Inductive Outcome (A : Type) :=
  | Returned (a : A)
  | Thrown (e : Error).
Arguments Returned {A} a.
Arguments Thrown {A} e.

(** ** The task graph *)
Module TaskGraph.

(** The task object stored by [addTask].  Its [execute] function runs outside
    the model: the graph never calls it, and the queue manager only sees
    whether the promise it returned was fulfilled or rejected. *)
Record Task := mkTask { label : string }.

(** [tasks] is a JS [Map], iterated in insertion order by [getReadyTasks]
    and [getTopologicalOrder]: an association list, oldest entry first.
    [dependencies] and [dependents] are [Map]s from an id to an array of
    ids, only read and written by key.  [completed] is a [Set]. *)
Record t := mk {
  tasks : list (TaskId * Task);
  dependencies : gmap string (list TaskId);
  dependents : gmap string (list TaskId);
  completed : gset string
}.

(** [new TaskGraph()] *)
Definition empty : t :=
  {| tasks := []; dependencies := ∅; dependents := ∅; completed := ∅ |}.

(** [this.tasks.keys()] *)
Definition task_ids (g : t) : list TaskId := (tasks g).*1.

(** [this.tasks.has(taskId)] *)
Definition has_task (g : t) (taskId : TaskId) : bool :=
  bool_decide (taskId ∈ task_ids g).

(** [this.dependencies.get(taskId) || []] *)
Definition deps_of (g : t) (taskId : TaskId) : list TaskId :=
  default [] (dependencies g !! taskId).

(** [this.dependents.get(taskId) || []] *)
Definition rdeps_of (g : t) (taskId : TaskId) : list TaskId :=
  default [] (dependents g !! taskId).

(** Mutating methods run in a state-and-exception monad: a thrown error
    keeps the graph as the statements before the [throw] left it. *)
Definition M (A : Type) : Type := t → Outcome A * t.

#[global] Instance M_ret : MRet M := λ A a g, (Returned a, g).
#[global] Instance M_bind : MBind M := λ A B k m g,
  match m g with
  | (Returned a, g') => k a g'
  | (Thrown e, g') => (Thrown e, g')
  end.
Definition throw {A} (e : Error) : M A := λ g, (Thrown e, g).
Definition get : M t := λ g, (Returned g, g).
Definition put (g' : t) : M unit := λ _, (Returned tt, g').

(** [addTask(taskId, taskFn, options)] *)
Definition addTask (taskId : TaskId) (task : Task) : M unit :=
  g ← get;
  if has_task g taskId then throw DuplicateTaskError
  else put {| tasks := tasks g ++ [(taskId, task)];
              dependencies := <[taskId := []]> (dependencies g);
              dependents := <[taskId := []]> (dependents g);
              completed := completed g |}.

(** The loop of [wouldCreateCycle].  The JS array [stack] is a list whose
    head is the array's last element, so [pop] takes the head and [push]
    conses.  [fuel] bounds the iterations of the [while]. *)
Fixpoint wouldCreateCycle_loop (fuel : nat) (g : t) (from : TaskId)
    (stack : list TaskId) (visited : gset string) : option bool :=
  match fuel with
  | O => None
  | S fuel' =>
    match stack with
    | [] => Some false
    | current :: stack' =>
      if bool_decide (current = from) then Some true
      else if bool_decide (current ∈ visited)
      then wouldCreateCycle_loop fuel' g from stack' visited
      else wouldCreateCycle_loop fuel' g from
             (foldl (λ s dep, dep :: s) stack' (deps_of g current))
             ({[current]} ∪ visited)
    end
  end.

(** The total number of entries in the dependency arrays. *)
Definition edge_count (g : t) : nat :=
  sum_list_with (λ kv, length kv.2) (map_to_list (dependencies g)).

(** Every iteration pops one entry, and an entry is pushed either at the
    start or once per element of a dependency array of a node visited for the
    first time, so [edge_count g + 2] iterations always suffice
    (lemma [wouldCreateCycle_loop_total]). *)
Definition wouldCreateCycle_fuel (g : t) : nat := S (S (edge_count g)).

(** [wouldCreateCycle(from, to)] *)
Definition wouldCreateCycle (g : t) (from to : TaskId) : bool :=
  default false
    (wouldCreateCycle_loop (wouldCreateCycle_fuel g) g from [to] ∅).

(** The argument [dependsOn] of [addDependency]: one id or an array. *)
Inductive DependsOn :=
  | One (depId : TaskId)
  | Many (depIds : list TaskId).

(** [Array.isArray(dependsOn) ? dependsOn : [dependsOn]] *)
Definition as_array (dependsOn : DependsOn) : list TaskId :=
  match dependsOn with
  | One depId => [depId]
  | Many depIds => depIds
  end.

(** [this.dependencies.get(taskId).push(depId)]: the map is written only
    when the key is there, as the in-place push on the stored array is. *)
Definition push_to (m : gmap string (list TaskId)) (key x : TaskId)
    : gmap string (list TaskId) :=
  alter (λ l, l ++ [x]) key m.

(** The body of the [for (const depId of dependencies)] loop. *)
Definition addDependency_step (taskId depId : TaskId) : M unit :=
  g ← get;
  if negb (has_task g depId) then throw UnknownTaskError
  else if wouldCreateCycle g depId taskId then throw CycleError
  else if negb (bool_decide (depId ∈ deps_of g taskId))
  then put {| tasks := tasks g;
              dependencies := push_to (dependencies g) taskId depId;
              dependents := push_to (dependents g) depId taskId;
              completed := completed g |}
  else mret tt.

Fixpoint addDependency_loop (taskId : TaskId) (depIds : list TaskId) : M unit :=
  match depIds with
  | [] => mret tt
  | depId :: rest =>
      addDependency_step taskId depId;; addDependency_loop taskId rest
  end.

(** [addDependency(taskId, dependsOn)] *)
Definition addDependency (taskId : TaskId) (dependsOn : DependsOn) : M unit :=
  g ← get;
  if negb (has_task g taskId) then throw UnknownTaskError
  else addDependency_loop taskId (as_array dependsOn).

(** [getReadyTasks()] *)
Definition getReadyTasks (g : t) : list TaskId :=
  filter (λ taskId,
            (taskId ∉ completed g) ∧
            Forall (λ depId, depId ∈ completed g) (deps_of g taskId))
         (task_ids g).

(** [markCompleted(taskId)] *)
Definition markCompleted (taskId : TaskId) : M unit :=
  g ← get;
  if negb (has_task g taskId) then throw UnknownTaskError
  else put {| tasks := tasks g;
              dependencies := dependencies g;
              dependents := dependents g;
              completed := {[taskId]} ∪ completed g |}.

(** [reset()] *)
Definition reset (g : t) : t :=
  {| tasks := tasks g;
     dependencies := dependencies g;
     dependents := dependents g;
     completed := ∅ |}.

(** [isComplete()] *)
Definition isComplete (g : t) : bool :=
  bool_decide (size (completed g) = length (tasks g)).

(** The local variables of [getTopologicalOrder]: the sets [visited] and
    [temp] and the array [order]. *)
Record Marks := mkMarks {
  visited : gset string;
  temp : gset string;
  order : list TaskId
}.

(** A [for (const x of xs) body(x)] loop over the marks that stops at the
    first throw.  [None] stands for a call that ran out of fuel. *)
Fixpoint for_each (body : TaskId → Marks → option (Outcome Marks))
    (xs : list TaskId) (m : Marks) : option (Outcome Marks) :=
  match xs with
  | [] => Some (Returned m)
  | x :: rest =>
    match body x m with
    | Some (Returned m') => for_each body rest m'
    | r => r
    end
  end.

(** The closure [visit] of [getTopologicalOrder]; [fuel] bounds the depth
    of the recursion. *)
Fixpoint visit (fuel : nat) (g : t) (taskId : TaskId) (m : Marks)
    : option (Outcome Marks) :=
  match fuel with
  | O => None
  | S fuel' =>
    if bool_decide (taskId ∈ temp m) then Some (Thrown CycleError)
    else if negb (bool_decide (taskId ∈ visited m)) then
      match for_each (visit fuel' g) (deps_of g taskId)
              {| visited := visited m;
                 temp := {[taskId]} ∪ temp m;
                 order := order m |} with
      | Some (Returned m') =>
          Some (Returned {| visited := {[taskId]} ∪ visited m';
                            temp := temp m' ∖ {[taskId]};
                            order := order m' ++ [taskId] |})
      | r => r
      end
    else Some (Returned m)
  end.

(** [getTopologicalOrder()] *)
Definition getTopologicalOrder (fuel : nat) (g : t)
    : option (Outcome (list TaskId)) :=
  match for_each (λ taskId m,
                    if negb (bool_decide (taskId ∈ visited m))
                    then visit fuel g taskId m
                    else Some (Returned m))
          (task_ids g)
          {| visited := ∅; temp := ∅; order := [] |} with
  | Some (Returned m) => Some (Returned (reverse (order m)))
  | Some (Thrown e) => Some (Thrown e)
  | None => None
  end.

(** [this.tasks.get(taskId)] *)
Fixpoint tasks_get (entries : list (TaskId * Task)) (taskId : TaskId)
    : option Task :=
  match entries with
  | [] => None
  | (key, task) :: rest =>
    if bool_decide (key = taskId) then Some task else tasks_get rest taskId
  end.

(** [getTask(taskId)]; [None] stands for [undefined]. *)
Definition getTask (taskId : TaskId) (g : t) : Outcome (option Task) :=
  if negb (has_task g taskId) then Thrown UnknownTaskError
  else Returned (tasks_get (tasks g) taskId).

(** [getDependencies(taskId)] *)
Definition getDependencies (taskId : TaskId) (g : t)
    : Outcome (option (list TaskId)) :=
  if negb (has_task g taskId) then Thrown UnknownTaskError
  else Returned (dependencies g !! taskId).

(** [getDependents(taskId)] *)
Definition getDependents (taskId : TaskId) (g : t)
    : Outcome (option (list TaskId)) :=
  if negb (has_task g taskId) then Thrown UnknownTaskError
  else Returned (dependents g !! taskId).

(** The calls that mutate a graph. *)
Inductive Call :=
  | AddTask (taskId : TaskId) (task : Task)
  | AddDependency (taskId : TaskId) (dependsOn : DependsOn)
  | MarkCompleted (taskId : TaskId).

Definition call (c : Call) : M unit :=
  match c with
  | AddTask taskId task => addTask taskId task
  | AddDependency taskId dependsOn => addDependency taskId dependsOn
  | MarkCompleted taskId => markCompleted taskId
  end.

(** A sequence of calls, stopping at the first throw. *)
Fixpoint calls (cs : list Call) : M unit :=
  match cs with
  | [] => mret tt
  | c :: rest => call c;; calls rest
  end.

End TaskGraph.

(** ** JavaScript values *)

(** A JS number: a finite value, kept exact, or [NaN]. *)
Inductive number :=
  | Num (q : Q)
  | NaN.

#[global] Instance Q_eq_dec : EqDecision Q.
Proof. solve_decision. Defined.

#[global] Instance number_eq_dec : EqDecision number.
Proof. solve_decision. Defined.

(** The values a caller can pass where a number is expected. *)
Inductive value :=
  | VNumber (n : number)
  | VString (s : string)
  | VBoolean (b : bool)
  | VUndefined
  | VNull.


(** [a < b] on numbers; a comparison with [NaN] is false. *)
Definition number_lt (a b : number) : bool :=
  match a, b with
  | Num x, Num y => if Qlt_le_dec x y then true else false
  | _, _ => false
  end.

(** A size or length as a number. *)
Definition of_nat (n : nat) : number := Num (inject_Z (Z.of_nat n)).

(** [o || d] for an optional numeric option: [undefined], [0] and [NaN]
    are falsy. *)
Definition number_or (o : option number) (d : number) : number :=
  match o with
  | Some (Num q) => if Qeq_bool q 0 then d else Num q
  | Some NaN => d
  | None => d
  end.

(** ** The queue manager

    The manager in its first run: from its construction up to the first
    [stop()] or [reset()], with task functions that return a promise when
    they are called.  [Lifetime] below is the whole class, and
    [LifetimeFacts.run_plain] relates the two. *)
Module QueueManager.

(** The events of the manager's [EventEmitter], without their payload
    objects. *)
Inductive Event :=
  | TaskStart (taskId : TaskId)
  | TaskComplete (taskId : TaskId)
  | TaskError (taskId : TaskId)
  | QueueComplete
  | Paused
  | Resumed
  | ConcurrencyChanged (n : number).

#[global] Instance Event_eq_dec : EqDecision Event.
Proof. solve_decision. Defined.

(** [this.stats], without the two timestamps. *)
Record Stats := mkStats {
  completed : nat;
  failed : nat;
  total : nat
}.

(** The fields of a [QueueManager].  [running] is a [Map] from a task id to
    the promise of its run, of which only the keys are read.  Two components
    belong to the model: [loops] counts the calls of [_processQueue] that are
    suspended at their [await], and [events] lists what has been emitted,
    oldest first. *)
Record t := mk {
  taskGraph : TaskGraph.t;
  concurrency : number;
  running : gset string;
  queue : list TaskId;
  isProcessing : bool;
  isPaused : bool;
  stats : Stats;
  loops : nat;
  events : list Event
}.

Record Options := mkOptions {
  opt_concurrency : option number;
  opt_autoStart : bool
}.

Definition set_taskGraph (g : TaskGraph.t) (s : t) : t :=
  mk g (concurrency s) (running s) (queue s) (isProcessing s) (isPaused s)
     (stats s) (loops s) (events s).
Definition set_concurrency (c : number) (s : t) : t :=
  mk (taskGraph s) c (running s) (queue s) (isProcessing s) (isPaused s)
     (stats s) (loops s) (events s).
Definition set_running (r : gset string) (s : t) : t :=
  mk (taskGraph s) (concurrency s) r (queue s) (isProcessing s) (isPaused s)
     (stats s) (loops s) (events s).
Definition set_queue (q : list TaskId) (s : t) : t :=
  mk (taskGraph s) (concurrency s) (running s) q (isProcessing s) (isPaused s)
     (stats s) (loops s) (events s).
Definition set_isProcessing (b : bool) (s : t) : t :=
  mk (taskGraph s) (concurrency s) (running s) (queue s) b (isPaused s)
     (stats s) (loops s) (events s).
Definition set_isPaused (b : bool) (s : t) : t :=
  mk (taskGraph s) (concurrency s) (running s) (queue s) (isProcessing s) b
     (stats s) (loops s) (events s).
Definition set_stats (st : Stats) (s : t) : t :=
  mk (taskGraph s) (concurrency s) (running s) (queue s) (isProcessing s)
     (isPaused s) st (loops s) (events s).
Definition set_loops (n : nat) (s : t) : t :=
  mk (taskGraph s) (concurrency s) (running s) (queue s) (isProcessing s)
     (isPaused s) (stats s) n (events s).

(** [this.emit(...)] *)
Definition emit (e : Event) (s : t) : t :=
  mk (taskGraph s) (concurrency s) (running s) (queue s) (isProcessing s)
     (isPaused s) (stats s) (loops s) (events s ++ [e]).

(** [_updateQueue()] *)
Definition updateQueue (s : t) : t :=
  set_queue
    (foldl (λ q taskId,
              if negb (bool_decide (taskId ∈ q))
                 && negb (bool_decide (taskId ∈ running s))
              then q ++ [taskId] else q)
           (queue s) (TaskGraph.getReadyTasks (taskGraph s)))
    s.

(** [_executeTask(taskId)] up to the [await] of the task's function: the
    lookup of the task, the [task-start] event, the call of [task.execute]
    and [this.running.set].  [None] when [getTask] throws.  The task's
    function is taken to be an [async] function, as in the README and the
    examples: calling it returns a promise, which is settled later (see
    [settle]). *)
Definition executeTask (taskId : TaskId) (s : t) : option t :=
  if TaskGraph.has_task (taskGraph s) taskId
  then Some (set_running ({[taskId]} ∪ running s) (emit (TaskStart taskId) s))
  else None.

(** One turn of the [while] of [_processQueue]: the test and, when it
    holds, the body up to its [await].  The result says whether the loop is
    now suspended at the [await] ([true]) or over ([false]: the test failed,
    or [_executeTask] rejected). *)
Definition processQueue_turn (s : t) : t * bool :=
  match queue s with
  | taskId :: rest =>
    if number_lt (of_nat (size (running s))) (concurrency s) then
      match executeTask taskId (set_queue rest s) with
      | Some s' => (s', true)
      | None => (set_queue rest s, false)
      end
    else (s, false)
  | [] => (s, false)
  end.

(** A call of [_processQueue()], up to its first [await]. *)
Definition processQueue (s : t) : t :=
  if negb (isProcessing s) || isPaused s then s
  else
    let '(s', suspended) := processQueue_turn s in
    if suspended then set_loops (S (loops s')) s' else s'.

(** A suspended [_processQueue] is resumed: the [while] takes its next
    turn. *)
Definition loopResume (s : t) : option t :=
  match loops s with
  | O => None
  | S n =>
    let '(s', suspended) := processQueue_turn s in
    Some (if suspended then s' else set_loops n s')
  end.

(** [start()] *)
Definition start (s : t) : t :=
  if isProcessing s then s
  else
    let s := set_isPaused false (set_isProcessing true s) in
    let s :=
      set_stats {| completed := completed (stats s);
                   failed := failed (stats s);
                   total := length (TaskGraph.tasks (taskGraph s)) |} s in
    processQueue (updateQueue s).

(** [new QueueManager(taskGraph, options)] *)
Definition constructor (taskGraph : TaskGraph.t) (options : Options) : t :=
  let s := {| taskGraph := taskGraph;
              concurrency := number_or (opt_concurrency options) (Num 4);
              running := ∅;
              queue := [];
              isProcessing := false;
              isPaused := false;
              stats := {| completed := 0; failed := 0; total := 0 |};
              loops := 0;
              events := [] |} in
  if opt_autoStart options then start s else s.

(** [pause()] *)
Definition pause (s : t) : t := emit Paused (set_isPaused true s).

(** [resume()] *)
Definition resume (s : t) : t :=
  if negb (isProcessing s) || negb (isPaused s) then start s
  else emit Resumed (processQueue (set_isPaused false s)).

(** [setConcurrency(concurrency)] *)
Definition setConcurrency (v : value) (s : t) : Outcome unit * t :=
  match v with
  | VNumber n =>
    if number_lt n (Num 1) then (Thrown ValidationError, s)
    else
      let s := emit (ConcurrencyChanged n) (set_concurrency n s) in
      (Returned tt,
       if isProcessing s && negb (isPaused s) then processQueue s else s)
  | _ => (Thrown ValidationError, s)
  end.

(** The [catch] block of [_executeTask]. *)
Definition taskFailed (taskId : TaskId) (s : t) : t :=
  emit (TaskError taskId)
    (set_stats {| completed := completed (stats s);
                  failed := S (failed (stats s));
                  total := total (stats s) |} s).

(** The [try] block of [_executeTask] after its [await], for a fulfilled
    promise.  A throw of [markCompleted] is caught by the [catch] block. *)
Definition taskSucceeded (taskId : TaskId) (s : t) : t :=
  match TaskGraph.markCompleted taskId (taskGraph s) with
  | (Returned _, g') =>
    let s := set_taskGraph g' s in
    let s :=
      set_stats {| completed := S (completed (stats s));
                   failed := failed (stats s);
                   total := total (stats s) |} s in
    let s := emit (TaskComplete taskId) s in
    if TaskGraph.isComplete (taskGraph s) then emit QueueComplete s else s
  | (Thrown _, g') => taskFailed taskId (set_taskGraph g' s)
  end.

(** The [finally] block of [_executeTask]. *)
Definition taskFinally (taskId : TaskId) (s : t) : t :=
  processQueue (updateQueue (set_running (running s ∖ {[taskId]}) s)).

(** The rest of the function started by [_executeTask(taskId)], run when the
    promise of the task's function is settled: fulfilled ([ok = true]) or
    rejected.  It can run only for a task in flight, that is, in
    [running]. *)
Definition settle (taskId : TaskId) (ok : bool) (s : t) : option t :=
  if bool_decide (taskId ∈ running s) then
    Some (taskFinally taskId
            (if ok then taskSucceeded taskId s else taskFailed taskId s))
  else None.

(** [getStats()], without the duration. *)
Record StatsSnapshot := mkSnapshot {
  snap_completed : nat;
  snap_failed : nat;
  snap_total : nat;
  snap_running : nat;
  snap_queued : nat
}.

Definition getStats (s : t) : StatsSnapshot :=
  {| snap_completed := completed (stats s);
     snap_failed := failed (stats s);
     snap_total := total (stats s);
     snap_running := size (running s);
     snap_queued := length (queue s) |}.

(** What happens during a run: calls of the control surface, and the two
    kinds of continuation the event loop runs, in any order.  A run lasts
    until [stop()] or [reset()], which are not steps.  Listeners do not call
    back into the manager while an event is emitted, and the caller does not
    mutate the graph during the run. *)
Inductive Step :=
  | Start
  | Pause
  | Resume
  | SetConcurrency (v : value)
  | LoopResume
  | Settle (taskId : TaskId) (ok : bool).

(** [None]: the step cannot happen in [s] (no suspended loop to resume, no
    such task in flight).  A throwing [setConcurrency] leaves the manager
    as it leaves it. *)
Definition step (st : Step) (s : t) : option t :=
  match st with
  | Start => Some (start s)
  | Pause => Some (pause s)
  | Resume => Some (resume s)
  | SetConcurrency v => Some (setConcurrency v s).2
  | LoopResume => loopResume s
  | Settle taskId ok => settle taskId ok s
  end.

Fixpoint steps (sts : list Step) (s : t) : option t :=
  match sts with
  | [] => Some s
  | st :: rest =>
    match step st s with
    | Some s' => steps rest s'
    | None => None
    end
  end.

End QueueManager.

(** ** The queue manager over its whole lifetime

    [QueueManager] above is the manager from its construction up to the
    first [stop()] or [reset()], run on task functions that return a
    promise.  This module is the whole class: [stop()] and [reset()], the
    promises kept in [running], and task functions that throw when they are
    called. *)
Module Lifetime.

(** The events of the manager's [EventEmitter]: those of [QueueManager],
    ['stopped'] and ['reset']. *)
Inductive Event :=
  | Emitted (e : QueueManager.Event)
  | Stopped
  | ResetEvent.

#[global] Instance Event_eq_dec : EqDecision Event.
Proof. solve_decision. Defined.

(** The fields of a [QueueManager].  [running] is the [Map] from a task id
    to the promise of the function [_executeTask] started for it; a promise
    is known by its number.  Six components belong to the model:
    - [throwing]: the tasks whose [execute] throws when it is called (a task
      added as an object without a function [execute], say); the other
      tasks' [execute] returns a promise or a value;
    - [pending]: the promises of [_executeTask] that wait for their task's
      function to settle, each with its task;
    - [promises]: how many promises [_executeTask] has made;
    - [loops]: the calls of [_processQueue] suspended at their [await];
    - [stops]: the calls of [stop()] suspended at their [await], each with
      the promises it waits for;
    - [events]: what has been emitted, oldest first. *)
Record t := mk {
  taskGraph : TaskGraph.t;
  concurrency : number;
  running : gmap string nat;
  queue : list TaskId;
  isProcessing : bool;
  isPaused : bool;
  stats : QueueManager.Stats;
  throwing : gset string;
  pending : gmap nat string;
  promises : nat;
  loops : nat;
  stops : list (list nat);
  events : list Event
}.

Definition set_taskGraph (g : TaskGraph.t) (s : t) : t :=
  mk g (concurrency s) (running s) (queue s) (isProcessing s) (isPaused s)
     (stats s) (throwing s) (pending s) (promises s) (loops s) (stops s)
     (events s).
Definition set_concurrency (c : number) (s : t) : t :=
  mk (taskGraph s) c (running s) (queue s) (isProcessing s) (isPaused s)
     (stats s) (throwing s) (pending s) (promises s) (loops s) (stops s)
     (events s).
Definition set_running (r : gmap string nat) (s : t) : t :=
  mk (taskGraph s) (concurrency s) r (queue s) (isProcessing s) (isPaused s)
     (stats s) (throwing s) (pending s) (promises s) (loops s) (stops s)
     (events s).
Definition set_queue (q : list TaskId) (s : t) : t :=
  mk (taskGraph s) (concurrency s) (running s) q (isProcessing s) (isPaused s)
     (stats s) (throwing s) (pending s) (promises s) (loops s) (stops s)
     (events s).
Definition set_isProcessing (b : bool) (s : t) : t :=
  mk (taskGraph s) (concurrency s) (running s) (queue s) b (isPaused s)
     (stats s) (throwing s) (pending s) (promises s) (loops s) (stops s)
     (events s).
Definition set_isPaused (b : bool) (s : t) : t :=
  mk (taskGraph s) (concurrency s) (running s) (queue s) (isProcessing s) b
     (stats s) (throwing s) (pending s) (promises s) (loops s) (stops s)
     (events s).
Definition set_stats (st : QueueManager.Stats) (s : t) : t :=
  mk (taskGraph s) (concurrency s) (running s) (queue s) (isProcessing s)
     (isPaused s) st (throwing s) (pending s) (promises s) (loops s)
     (stops s) (events s).
Definition set_pending (p : gmap nat string) (s : t) : t :=
  mk (taskGraph s) (concurrency s) (running s) (queue s) (isProcessing s)
     (isPaused s) (stats s) (throwing s) p (promises s) (loops s) (stops s)
     (events s).
Definition set_promises (n : nat) (s : t) : t :=
  mk (taskGraph s) (concurrency s) (running s) (queue s) (isProcessing s)
     (isPaused s) (stats s) (throwing s) (pending s) n (loops s) (stops s)
     (events s).
Definition set_loops (n : nat) (s : t) : t :=
  mk (taskGraph s) (concurrency s) (running s) (queue s) (isProcessing s)
     (isPaused s) (stats s) (throwing s) (pending s) (promises s) n
     (stops s) (events s).
Definition set_stops (l : list (list nat)) (s : t) : t :=
  mk (taskGraph s) (concurrency s) (running s) (queue s) (isProcessing s)
     (isPaused s) (stats s) (throwing s) (pending s) (promises s) (loops s)
     l (events s).

(** [this.emit(...)] *)
Definition emit (e : Event) (s : t) : t :=
  mk (taskGraph s) (concurrency s) (running s) (queue s) (isProcessing s)
     (isPaused s) (stats s) (throwing s) (pending s) (promises s) (loops s)
     (stops s) (events s ++ [e]).

(** [_updateQueue()] *)
Definition updateQueue (s : t) : t :=
  set_queue
    (foldl (λ q taskId,
              if negb (bool_decide (taskId ∈ q))
                 && negb (bool_decide (taskId ∈ dom (running s)))
              then q ++ [taskId] else q)
           (queue s) (TaskGraph.getReadyTasks (taskGraph s)))
    s.

(** The [catch] block of [_executeTask]. *)
Definition taskFailed (taskId : TaskId) (s : t) : t :=
  emit (Emitted (QueueManager.TaskError taskId))
    (set_stats
       {| QueueManager.completed := QueueManager.completed (stats s);
          QueueManager.failed := S (QueueManager.failed (stats s));
          QueueManager.total := QueueManager.total (stats s) |} s).

(** The [try] block of [_executeTask] after its [await], for a fulfilled
    promise.  A throw of [markCompleted] is caught by the [catch] block. *)
Definition taskSucceeded (taskId : TaskId) (s : t) : t :=
  match TaskGraph.markCompleted taskId (taskGraph s) with
  | (Returned _, g') =>
    let s := set_taskGraph g' s in
    let s :=
      set_stats
        {| QueueManager.completed := S (QueueManager.completed (stats s));
           QueueManager.failed := QueueManager.failed (stats s);
           QueueManager.total := QueueManager.total (stats s) |} s in
    let s := emit (Emitted (QueueManager.TaskComplete taskId)) s in
    if TaskGraph.isComplete (taskGraph s)
    then emit (Emitted QueueManager.QueueComplete) s else s
  | (Thrown _, g') => taskFailed taskId (set_taskGraph g' s)
  end.

(** One turn of the [while] of [_processQueue], given what a call of
    [_executeTask] does ([None]: the call stack is exhausted; [Some None]:
    its promise is rejected, [getTask] having thrown).  The result says
    whether the loop is now suspended at the [await] ([true]) or over. *)
Definition turn_with (exec : TaskId → t → option (option t)) (s : t)
    : option (t * bool) :=
  match queue s with
  | taskId :: rest =>
    if number_lt (of_nat (size (running s))) (concurrency s) then
      match exec taskId (set_queue rest s) with
      | Some (Some s') => Some (s', true)
      | Some None => Some (set_queue rest s, false)
      | None => None
      end
    else Some (s, false)
  | [] => Some (s, false)
  end.

(** A call of [_processQueue()], up to its first [await]. *)
Definition processQueue_with (exec : TaskId → t → option (option t)) (s : t)
    : option t :=
  if negb (isProcessing s) || isPaused s then Some s
  else
    match turn_with exec s with
    | Some (s', suspended) =>
      Some (if suspended then set_loops (S (loops s')) s' else s')
    | None => None
    end.

(** [_executeTask(taskId)], up to the point where its caller goes on.  The
    inner function emits ['task-start'] and calls [task.execute].  When that
    call throws, the [catch] and the [finally] block run at once, and with
    them [_updateQueue] and a nested [_processQueue], before
    [this.running.set] records the promise, which is settled by then.
    Otherwise the inner function is suspended and its promise is pending.
    [fuel] bounds the depth of nested calls of [_executeTask]. *)
Fixpoint executeTask (fuel : nat) (taskId : TaskId) (s : t)
    : option (option t) :=
  match fuel with
  | O => None
  | S fuel' =>
    if TaskGraph.has_task (taskGraph s) taskId then
      let promise := promises s in
      let s :=
        emit (Emitted (QueueManager.TaskStart taskId))
          (set_promises (S promise) s) in
      if bool_decide (taskId ∈ throwing s) then
        let s := taskFailed taskId s in
        let s := set_running (delete taskId (running s)) s in
        match processQueue_with (executeTask fuel') (updateQueue s) with
        | Some s =>
          Some (Some (set_running (<[taskId := promise]> (running s)) s))
        | None => None
        end
      else
        Some (Some (set_running (<[taskId := promise]> (running s))
                      (set_pending (<[promise := taskId]> (pending s)) s)))
    else Some None
  end.

Definition processQueue (fuel : nat) : t → option t :=
  processQueue_with (executeTask fuel).

(** A suspended [_processQueue] is resumed: the [while] takes its next
    turn. *)
Definition loopResume (fuel : nat) (s : t) : option t :=
  match loops s with
  | O => None
  | S n =>
    match turn_with (executeTask fuel) s with
    | Some (s', suspended) => Some (if suspended then s' else set_loops n s')
    | None => None
    end
  end.

(** [start()] *)
Definition start (fuel : nat) (s : t) : option t :=
  if isProcessing s then Some s
  else
    let s := set_isPaused false (set_isProcessing true s) in
    let s :=
      set_stats
        {| QueueManager.completed := QueueManager.completed (stats s);
           QueueManager.failed := QueueManager.failed (stats s);
           QueueManager.total := length (TaskGraph.tasks (taskGraph s)) |}
        s in
    processQueue fuel (updateQueue s).

(** [new QueueManager(taskGraph, options)], for task functions of which
    those of [throwing] throw when called. *)
Definition constructor (fuel : nat) (taskGraph : TaskGraph.t)
    (options : QueueManager.Options) (throwing : gset string) : option t :=
  let s :=
    {| taskGraph := taskGraph;
       concurrency :=
         number_or (QueueManager.opt_concurrency options) (Num 4);
       running := ∅;
       queue := [];
       isProcessing := false;
       isPaused := false;
       stats := {| QueueManager.completed := 0; QueueManager.failed := 0;
                   QueueManager.total := 0 |};
       throwing := throwing;
       pending := ∅;
       promises := 0;
       loops := 0;
       stops := [];
       events := [] |} in
  if QueueManager.opt_autoStart options then start fuel s else Some s.

(** [pause()] *)
Definition pause (s : t) : t :=
  emit (Emitted QueueManager.Paused) (set_isPaused true s).

(** [resume()] *)
Definition resume (fuel : nat) (s : t) : option t :=
  if negb (isProcessing s) || negb (isPaused s) then start fuel s
  else
    match processQueue fuel (set_isPaused false s) with
    | Some s => Some (emit (Emitted QueueManager.Resumed) s)
    | None => None
    end.

(** [stop(waitForRunning)], up to its [await]: with promises to wait for
    the call is suspended, otherwise it runs to its end. *)
Definition stop (waitForRunning : bool) (s : t) : t :=
  let s := set_queue [] (set_isProcessing false s) in
  if waitForRunning && negb (bool_decide (size (running s) = 0))
  then set_stops (stops s ++ [(map_to_list (running s)).*2]) s
  else emit Stopped s.

(** The [i]-th suspended [stop()] goes on once every promise it waits for
    is settled. *)
Definition stopResume (i : nat) (s : t) : option t :=
  match stops s !! i with
  | Some awaited =>
    if forallb (λ promise, negb (bool_decide (promise ∈ dom (pending s))))
         awaited
    then Some (emit Stopped (set_stops (delete i (stops s)) s))
    else None
  | None => None
  end.

(** [reset()]: its call [this.stop(false)] runs to the end. *)
Definition reset (s : t) : t :=
  let s := stop false s in
  let s := set_taskGraph (TaskGraph.reset (taskGraph s)) s in
  let s := set_running ∅ s in
  let s := set_queue [] s in
  let s :=
    set_stats {| QueueManager.completed := 0; QueueManager.failed := 0;
                 QueueManager.total := 0 |} s in
  emit ResetEvent s.

(** [setConcurrency(concurrency)] *)
Definition setConcurrency (fuel : nat) (v : value) (s : t)
    : option (Outcome unit * t) :=
  match v with
  | VNumber n =>
    if number_lt n (Num 1) then Some (Thrown ValidationError, s)
    else
      let s :=
        emit (Emitted (QueueManager.ConcurrencyChanged n))
          (set_concurrency n s) in
      if isProcessing s && negb (isPaused s) then
        match processQueue fuel s with
        | Some s => Some (Returned tt, s)
        | None => None
        end
      else Some (Returned tt, s)
  | _ => Some (Thrown ValidationError, s)
  end.

(** The rest of the inner function of [_executeTask], run when the promise
    of the task's function is settled: fulfilled ([ok = true]) or
    rejected. *)
Definition settle (fuel : nat) (promise : nat) (ok : bool) (s : t)
    : option t :=
  match pending s !! promise with
  | Some taskId =>
    let s := set_pending (delete promise (pending s)) s in
    let s := if ok then taskSucceeded taskId s else taskFailed taskId s in
    let s := set_running (delete taskId (running s)) s in
    processQueue fuel (updateQueue s)
  | None => None
  end.

(** [getStats()], without the duration. *)
Definition getStats (s : t) : QueueManager.StatsSnapshot :=
  {| QueueManager.snap_completed := QueueManager.completed (stats s);
     QueueManager.snap_failed := QueueManager.failed (stats s);
     QueueManager.snap_total := QueueManager.total (stats s);
     QueueManager.snap_running := size (running s);
     QueueManager.snap_queued := length (queue s) |}.

(** What happens in the life of a manager: calls of its methods and the
    continuations the event loop runs, in any order.  Listeners do not call
    back into the manager while an event is emitted, and the caller does not
    mutate the graph. *)
Inductive Step :=
  | Start
  | Pause
  | Resume
  | Stop (waitForRunning : bool)
  | StopResume (i : nat)
  | Reset
  | SetConcurrency (v : value)
  | LoopResume
  | Settle (promise : nat) (ok : bool).

(** [None]: the step cannot happen in [s] (no suspended loop or [stop()]
    to resume, no such promise pending), or the call stack is exhausted. *)
Definition step (fuel : nat) (st : Step) (s : t) : option t :=
  match st with
  | Start => start fuel s
  | Pause => Some (pause s)
  | Resume => resume fuel s
  | Stop waitForRunning => Some (stop waitForRunning s)
  | StopResume i => stopResume i s
  | Reset => Some (reset s)
  | SetConcurrency v => snd <$> setConcurrency fuel v s
  | LoopResume => loopResume fuel s
  | Settle promise ok => settle fuel promise ok s
  end.

Fixpoint steps (fuel : nat) (sts : list Step) (s : t) : option t :=
  match sts with
  | [] => Some s
  | st :: rest =>
    match step fuel st s with
    | Some s' => steps fuel rest s'
    | None => None
    end
  end.

(** The run of a new manager. *)
Definition run (fuel : nat) (taskGraph : TaskGraph.t)
    (options : QueueManager.Options) (throwing : gset string)
    (sts : list Step) : option t :=
  match constructor fuel taskGraph options throwing with
  | Some s => steps fuel sts s
  | None => None
  end.

End Lifetime.
(** ** The monitor's concurrency controls *)
Module Monitor.

(** [a >= b] on numbers; a comparison with [NaN] is false. *)
Definition number_ge (a b : number) : bool :=
  match a, b with
  | Num x, Num y => if Qlt_le_dec x y then false else true
  | _, _ => false
  end.

(** What the handler of [POST /api/control/concurrency] answers:
    [res.json({ concurrency })] or [res.status(400).json({ error })]. *)
Inductive Response :=
  | Json (concurrency : value)
  | BadRequest.

(** The handler of [POST /api/control/concurrency], on the [concurrency]
    field of the parsed body.  An object or an array in that field has the
    [typeof] of [null] and goes the same way. *)
Definition post_concurrency (concurrency : value) (qm : QueueManager.t)
    : Outcome Response * QueueManager.t :=
  match concurrency with
  | VNumber n =>
    if number_lt n (Num 1) then (Returned BadRequest, qm)
    else
      match QueueManager.setConcurrency concurrency qm with
      | (Returned _, qm') => (Returned (Json concurrency), qm')
      | (Thrown e, qm') => (Thrown e, qm')
      end
  | _ => (Returned BadRequest, qm)
  end.

(** The handler of the socket event [set-concurrency]. *)
Definition on_set_concurrency (concurrency : value) (qm : QueueManager.t)
    : Outcome unit * QueueManager.t :=
  match concurrency with
  | VNumber n =>
    if number_ge n (Num 1)
    then QueueManager.setConcurrency concurrency qm
    else (Returned tt, qm)
  | _ => (Returned tt, qm)
  end.

End Monitor.


(** ** The adaptive concurrency controller *)
Module AdaptiveConcurrency.

(** Utilisation percentages and concurrency levels are JS numbers; here
    they are exact rationals. *)
Local Open Scope Q_scope.

(** [o || d] for an optional numeric option: [undefined] and [0] are
    falsy. *)
Definition Q_or (o : option Q) (d : Q) : Q :=
  match o with
  | Some q => if Qeq_bool q 0 then d else q
  | None => d
  end.

Record Options := mkOptions {
  opt_minConcurrency : option Q;
  opt_maxConcurrency : option Q;
  opt_targetCpuUtilization : option Q;
  opt_targetMemoryUtilization : option Q;
  opt_checkInterval : option Q;
  opt_adjustmentStep : option Q
}.

Record Metrics := mkMetrics {
  cpuUsage : Q;
  memoryUsage : Q;
  newConcurrency : Q;
  previousConcurrency : Q
}.

Inductive Event :=
  | ConcurrencyUpdate (n : Q)
  | MetricsEvent (m : Metrics)
  | ErrorEvent.

(** The fields of an [AdaptiveConcurrency], with [metricsHistory.cpu] and
    [metricsHistory.memory] as two lists, oldest sample first, and, for the
    model, the list of emitted events. *)
Record t := mk {
  minConcurrency : Q;
  maxConcurrency : Q;
  targetCpuUtilization : Q;
  targetMemoryUtilization : Q;
  checkInterval : Q;
  adjustmentStep : Q;
  currentConcurrency : Q;
  isMonitoring : bool;
  history_cpu : list Q;
  history_memory : list Q;
  historySize : nat;
  events : list Event
}.

(** [new AdaptiveConcurrency(options)]; [cpus] is [os.cpus().length]. *)
Definition constructor (options : Options) (cpus : nat) : t :=
  let maxConcurrency :=
    Q_or (opt_maxConcurrency options) (inject_Z (Z.of_nat cpus)) in
  {| minConcurrency := Q_or (opt_minConcurrency options) 1;
     maxConcurrency := maxConcurrency;
     targetCpuUtilization := Q_or (opt_targetCpuUtilization options) 70;
     targetMemoryUtilization := Q_or (opt_targetMemoryUtilization options) 80;
     checkInterval := Q_or (opt_checkInterval options) 5000;
     adjustmentStep := Q_or (opt_adjustmentStep options) 1;
     currentConcurrency := maxConcurrency;
     isMonitoring := false;
     history_cpu := [];
     history_memory := [];
     historySize := 3;
     events := [] |}.

(** [_addMetric(type, value)] on the history of one type. *)
Definition addMetric (value : Q) (historySize : nat) (history : list Q)
    : list Q :=
  let history := (history ++ [value])%list in
  if (historySize <? length history)%nat then tail history else history.

(** [_getAverageMetric(type)] on the history of one type. *)
Definition getAverageMetric (metrics : list Q) : Q :=
  match metrics with
  | [] => 0
  | _ => foldl Qplus 0 metrics / inject_Z (Z.of_nat (length metrics))
  end.

(** The value of [newConcurrency] in [_checkResources] before the clamp. *)
Definition propose (ac : t) (avgCpuUsage avgMemoryUsage : Q) : Q :=
  let newConcurrency := currentConcurrency ac in
  let newConcurrency :=
    if Qlt_le_dec (targetCpuUtilization ac + 10) avgCpuUsage
    then newConcurrency - adjustmentStep ac
    else if Qlt_le_dec avgCpuUsage (targetCpuUtilization ac - 10) then
      if Qlt_le_dec avgMemoryUsage (targetMemoryUtilization ac)
      then newConcurrency + adjustmentStep ac
      else newConcurrency
    else newConcurrency in
  if Qlt_le_dec (targetMemoryUtilization ac + 10) avgMemoryUsage
  then newConcurrency - adjustmentStep ac
  else newConcurrency.

(** [Math.max(this.minConcurrency, Math.min(this.maxConcurrency, x))] *)
Definition clamp (ac : t) (x : Q) : Q :=
  Qmax (minConcurrency ac) (Qmin (maxConcurrency ac) x).

Definition set_history (cpu memory : list Q) (ac : t) : t :=
  mk (minConcurrency ac) (maxConcurrency ac) (targetCpuUtilization ac)
     (targetMemoryUtilization ac) (checkInterval ac) (adjustmentStep ac)
     (currentConcurrency ac) (isMonitoring ac) cpu memory (historySize ac)
     (events ac).
Definition set_currentConcurrency (n : Q) (ac : t) : t :=
  mk (minConcurrency ac) (maxConcurrency ac) (targetCpuUtilization ac)
     (targetMemoryUtilization ac) (checkInterval ac) (adjustmentStep ac)
     n (isMonitoring ac) (history_cpu ac) (history_memory ac) (historySize ac)
     (events ac).
Definition set_isMonitoring (b : bool) (ac : t) : t :=
  mk (minConcurrency ac) (maxConcurrency ac) (targetCpuUtilization ac)
     (targetMemoryUtilization ac) (checkInterval ac) (adjustmentStep ac)
     (currentConcurrency ac) b (history_cpu ac) (history_memory ac)
     (historySize ac) (events ac).
Definition emit (e : Event) (ac : t) : t :=
  mk (minConcurrency ac) (maxConcurrency ac) (targetCpuUtilization ac)
     (targetMemoryUtilization ac) (checkInterval ac) (adjustmentStep ac)
     (currentConcurrency ac) (isMonitoring ac) (history_cpu ac)
     (history_memory ac) (historySize ac) (events ac ++ [e]).

(** What the two awaited reads of [_checkResources] give: the CPU usage and
    the free-memory percentage, or a failure. *)
Inductive Sample :=
  | Sampled (cpuUsage freeMemPercentage : Q)
  | SamplingFailed.

(** The averages [_checkResources] computes after recording a sample. *)
Definition record_sample (cpuUsage freeMemPercentage : Q) (ac : t) : t :=
  let memoryUsage := 100 - freeMemPercentage in
  set_history (addMetric cpuUsage (historySize ac) (history_cpu ac))
              (addMetric memoryUsage (historySize ac) (history_memory ac)) ac.

(** [_checkResources()] *)
Definition checkResources (sample : Sample) (ac : t) : t :=
  match sample with
  | Sampled cpuUsage freeMemPercentage =>
    let ac := record_sample cpuUsage freeMemPercentage ac in
    let avgCpuUsage := getAverageMetric (history_cpu ac) in
    let avgMemoryUsage := getAverageMetric (history_memory ac) in
    let newConcurrency := clamp ac (propose ac avgCpuUsage avgMemoryUsage) in
    if negb (Qeq_bool newConcurrency (currentConcurrency ac)) then
      let previousConcurrency := currentConcurrency ac in
      let ac := set_currentConcurrency newConcurrency ac in
      let ac := emit (ConcurrencyUpdate newConcurrency) ac in
      emit (MetricsEvent {| cpuUsage := avgCpuUsage;
                            memoryUsage := avgMemoryUsage;
                            newConcurrency := newConcurrency;
                            previousConcurrency := previousConcurrency |}) ac
    else ac
  | SamplingFailed => emit ErrorEvent ac
  end.

(** [setConcurrency(concurrency)] *)
Definition setConcurrency (concurrency : Q) (ac : t) : t :=
  let newConcurrency := clamp ac concurrency in
  if negb (Qeq_bool newConcurrency (currentConcurrency ac))
  then emit (ConcurrencyUpdate newConcurrency)
            (set_currentConcurrency newConcurrency ac)
  else ac.

(** [start()] and [stop()], without the timer. *)
Definition start (ac : t) : t :=
  if isMonitoring ac then ac else set_isMonitoring true ac.
Definition stop (ac : t) : t :=
  if negb (isMonitoring ac) then ac else set_isMonitoring false ac.

(** What happens to a controller: the timer runs [_checkResources] on
    what the two reads give, and the owner calls [setConcurrency], [start]
    and [stop]. *)
Inductive Call :=
  | Check (sample : Sample)
  | SetConcurrency (concurrency : Q)
  | Start
  | Stop.

Definition call (c : Call) (ac : t) : t :=
  match c with
  | Check sample => checkResources sample ac
  | SetConcurrency concurrency => setConcurrency concurrency ac
  | Start => start ac
  | Stop => stop ac
  end.

Definition calls (cs : list Call) (ac : t) : t :=
  foldl (λ ac c, call c ac) ac cs.

End AdaptiveConcurrency.

(** ** The adaptive controller on JavaScript numbers

    [AdaptiveConcurrency] above takes the samples, the recommendation and
    the argument of [setConcurrency] to be finite.  Here they are JS
    numbers, which can be [NaN]: [setConcurrency(NaN)] and
    [setConcurrency()] make [NaN] the recommendation, and a read that gives
    no [freeMemPercentage] gives the memory usage [100 - undefined], which
    is [NaN].  Finite values are exact, as above.  The options are finite:
    [o || d] takes [NaN] to the default. *)
Module AdaptiveNumbers.

Definition lift2 (f : Q → Q → Q) (a b : number) : number :=
  match a, b with
  | Num x, Num y => Num (f x y)
  | _, _ => NaN
  end.

(** [a + b], [a - b] and [a / b] (for [b] other than 0) *)
Definition plus : number → number → number := lift2 Qplus.
Definition minus : number → number → number := lift2 Qminus.
Definition divide : number → number → number := lift2 Qdiv.

(** [Math.min(a, b)] and [Math.max(a, b)] *)
Definition math_min : number → number → number := lift2 Qmin.
Definition math_max : number → number → number := lift2 Qmax.

(** [a !== b] on numbers: [NaN] differs from every number, itself
    included. *)
Definition strict_ne (a b : number) : bool :=
  match a, b with
  | Num x, Num y => negb (Qeq_bool x y)
  | _, _ => true
  end.

Inductive Event :=
  | ConcurrencyUpdate (n : number)
  | MetricsEvent (cpuUsage memoryUsage newConcurrency previousConcurrency
                  : number)
  | ErrorEvent.

Record t := mk {
  minConcurrency : Q;
  maxConcurrency : Q;
  targetCpuUtilization : Q;
  targetMemoryUtilization : Q;
  checkInterval : Q;
  adjustmentStep : Q;
  currentConcurrency : number;
  isMonitoring : bool;
  history_cpu : list number;
  history_memory : list number;
  historySize : nat;
  events : list Event
}.

(** [new AdaptiveConcurrency(options)]; [cpus] is [os.cpus().length]. *)
Definition constructor (options : AdaptiveConcurrency.Options) (cpus : nat)
    : t :=
  let maxConcurrency :=
    AdaptiveConcurrency.Q_or
      (AdaptiveConcurrency.opt_maxConcurrency options)
      (inject_Z (Z.of_nat cpus)) in
  {| minConcurrency :=
       AdaptiveConcurrency.Q_or
         (AdaptiveConcurrency.opt_minConcurrency options) 1%Q;
     maxConcurrency := maxConcurrency;
     targetCpuUtilization :=
       AdaptiveConcurrency.Q_or
         (AdaptiveConcurrency.opt_targetCpuUtilization options) 70%Q;
     targetMemoryUtilization :=
       AdaptiveConcurrency.Q_or
         (AdaptiveConcurrency.opt_targetMemoryUtilization options) 80%Q;
     checkInterval :=
       AdaptiveConcurrency.Q_or
         (AdaptiveConcurrency.opt_checkInterval options) 5000%Q;
     adjustmentStep :=
       AdaptiveConcurrency.Q_or
         (AdaptiveConcurrency.opt_adjustmentStep options) 1%Q;
     currentConcurrency := Num maxConcurrency;
     isMonitoring := false;
     history_cpu := [];
     history_memory := [];
     historySize := 3;
     events := [] |}.

(** [_addMetric(type, value)] on the history of one type. *)
Definition addMetric (value : number) (historySize : nat)
    (history : list number) : list number :=
  let history := history ++ [value] in
  if historySize <? length history then tail history else history.

(** [_getAverageMetric(type)] on the history of one type. *)
Definition getAverageMetric (metrics : list number) : number :=
  match metrics with
  | [] => Num 0
  | _ => divide (foldl plus (Num 0) metrics) (of_nat (length metrics))
  end.

(** The value of [newConcurrency] in [_checkResources] before the clamp. *)
Definition propose (ac : t) (avgCpuUsage avgMemoryUsage : number) : number :=
  let newConcurrency := currentConcurrency ac in
  let newConcurrency :=
    if number_lt (Num (targetCpuUtilization ac + 10)) avgCpuUsage
    then minus newConcurrency (Num (adjustmentStep ac))
    else if number_lt avgCpuUsage (Num (targetCpuUtilization ac - 10))
            && number_lt avgMemoryUsage (Num (targetMemoryUtilization ac))
    then plus newConcurrency (Num (adjustmentStep ac))
    else newConcurrency in
  if number_lt (Num (targetMemoryUtilization ac + 10)) avgMemoryUsage
  then minus newConcurrency (Num (adjustmentStep ac))
  else newConcurrency.

(** [Math.max(this.minConcurrency, Math.min(this.maxConcurrency, x))] *)
Definition clamp (ac : t) (x : number) : number :=
  math_max (Num (minConcurrency ac)) (math_min (Num (maxConcurrency ac)) x).

Definition set_history (cpu memory : list number) (ac : t) : t :=
  mk (minConcurrency ac) (maxConcurrency ac) (targetCpuUtilization ac)
     (targetMemoryUtilization ac) (checkInterval ac) (adjustmentStep ac)
     (currentConcurrency ac) (isMonitoring ac) cpu memory (historySize ac)
     (events ac).
Definition set_currentConcurrency (n : number) (ac : t) : t :=
  mk (minConcurrency ac) (maxConcurrency ac) (targetCpuUtilization ac)
     (targetMemoryUtilization ac) (checkInterval ac) (adjustmentStep ac)
     n (isMonitoring ac) (history_cpu ac) (history_memory ac) (historySize ac)
     (events ac).
Definition set_isMonitoring (b : bool) (ac : t) : t :=
  mk (minConcurrency ac) (maxConcurrency ac) (targetCpuUtilization ac)
     (targetMemoryUtilization ac) (checkInterval ac) (adjustmentStep ac)
     (currentConcurrency ac) b (history_cpu ac) (history_memory ac)
     (historySize ac) (events ac).
Definition emit (e : Event) (ac : t) : t :=
  mk (minConcurrency ac) (maxConcurrency ac) (targetCpuUtilization ac)
     (targetMemoryUtilization ac) (checkInterval ac) (adjustmentStep ac)
     (currentConcurrency ac) (isMonitoring ac) (history_cpu ac)
     (history_memory ac) (historySize ac) (events ac ++ [e]).

(** What the two awaited reads of [_checkResources] give. *)
Inductive Sample :=
  | Sampled (cpuUsage freeMemPercentage : number)
  | SamplingFailed.

Definition record_sample (cpuUsage freeMemPercentage : number) (ac : t) : t :=
  let memoryUsage := minus (Num 100) freeMemPercentage in
  set_history (addMetric cpuUsage (historySize ac) (history_cpu ac))
              (addMetric memoryUsage (historySize ac) (history_memory ac)) ac.

(** [_checkResources()] *)
Definition checkResources (sample : Sample) (ac : t) : t :=
  match sample with
  | Sampled cpuUsage freeMemPercentage =>
    let ac := record_sample cpuUsage freeMemPercentage ac in
    let avgCpuUsage := getAverageMetric (history_cpu ac) in
    let avgMemoryUsage := getAverageMetric (history_memory ac) in
    let newConcurrency := clamp ac (propose ac avgCpuUsage avgMemoryUsage) in
    if strict_ne newConcurrency (currentConcurrency ac) then
      let previousConcurrency := currentConcurrency ac in
      let ac := set_currentConcurrency newConcurrency ac in
      let ac := emit (ConcurrencyUpdate newConcurrency) ac in
      emit (MetricsEvent avgCpuUsage avgMemoryUsage newConcurrency
              previousConcurrency) ac
    else ac
  | SamplingFailed => emit ErrorEvent ac
  end.

(** What [setConcurrency] is given, as the number [Math.min] takes it to
    be: a finite number or [NaN] (which is also what [undefined] becomes, so
    that [setConcurrency()] is [setConcurrency(NaN)]), [Infinity] or
    [-Infinity]. *)
Inductive argument :=
  | Arg (n : number)
  | Infinity
  | NegInfinity.

(** [Math.max(this.minConcurrency, Math.min(this.maxConcurrency,
    concurrency))] for an argument. *)
Definition clamp_argument (ac : t) (concurrency : argument) : number :=
  match concurrency with
  | Arg n => clamp ac n
  | Infinity => math_max (Num (minConcurrency ac)) (Num (maxConcurrency ac))
  | NegInfinity => Num (minConcurrency ac)
  end.

(** [setConcurrency(concurrency)] *)
Definition setConcurrency (concurrency : argument) (ac : t) : t :=
  let newConcurrency := clamp_argument ac concurrency in
  if strict_ne newConcurrency (currentConcurrency ac)
  then emit (ConcurrencyUpdate newConcurrency)
            (set_currentConcurrency newConcurrency ac)
  else ac.

(** [start()] and [stop()], without the timer. *)
Definition start (ac : t) : t :=
  if isMonitoring ac then ac else set_isMonitoring true ac.
Definition stop (ac : t) : t :=
  if negb (isMonitoring ac) then ac else set_isMonitoring false ac.

Inductive Call :=
  | Check (sample : Sample)
  | SetConcurrency (concurrency : argument)
  | Start
  | Stop.

Definition call (c : Call) (ac : t) : t :=
  match c with
  | Check sample => checkResources sample ac
  | SetConcurrency concurrency => setConcurrency concurrency ac
  | Start => start ac
  | Stop => stop ac
  end.

Definition calls (cs : list Call) (ac : t) : t :=
  foldl (λ ac c, call c ac) ac cs.

(** The finite controller of [AdaptiveConcurrency] as one on numbers. *)
Definition embed_event (e : AdaptiveConcurrency.Event) : Event :=
  match e with
  | AdaptiveConcurrency.ConcurrencyUpdate n => ConcurrencyUpdate (Num n)
  | AdaptiveConcurrency.MetricsEvent m =>
      MetricsEvent (Num (AdaptiveConcurrency.cpuUsage m))
                   (Num (AdaptiveConcurrency.memoryUsage m))
                   (Num (AdaptiveConcurrency.newConcurrency m))
                   (Num (AdaptiveConcurrency.previousConcurrency m))
  | AdaptiveConcurrency.ErrorEvent => ErrorEvent
  end.

Definition embed (ac : AdaptiveConcurrency.t) : t :=
  {| minConcurrency := AdaptiveConcurrency.minConcurrency ac;
     maxConcurrency := AdaptiveConcurrency.maxConcurrency ac;
     targetCpuUtilization := AdaptiveConcurrency.targetCpuUtilization ac;
     targetMemoryUtilization := AdaptiveConcurrency.targetMemoryUtilization ac;
     checkInterval := AdaptiveConcurrency.checkInterval ac;
     adjustmentStep := AdaptiveConcurrency.adjustmentStep ac;
     currentConcurrency := Num (AdaptiveConcurrency.currentConcurrency ac);
     isMonitoring := AdaptiveConcurrency.isMonitoring ac;
     history_cpu := Num <$> AdaptiveConcurrency.history_cpu ac;
     history_memory := Num <$> AdaptiveConcurrency.history_memory ac;
     historySize := AdaptiveConcurrency.historySize ac;
     events := embed_event <$> AdaptiveConcurrency.events ac |}.

Definition embed_call (c : AdaptiveConcurrency.Call) : Call :=
  match c with
  | AdaptiveConcurrency.Check
      (AdaptiveConcurrency.Sampled cpuUsage freeMemPercentage) =>
      Check (Sampled (Num cpuUsage) (Num freeMemPercentage))
  | AdaptiveConcurrency.Check AdaptiveConcurrency.SamplingFailed =>
      Check SamplingFailed
  | AdaptiveConcurrency.SetConcurrency concurrency =>
      SetConcurrency (Arg (Num concurrency))
  | AdaptiveConcurrency.Start => Start
  | AdaptiveConcurrency.Stop => Stop
  end.

End AdaptiveNumbers.

(** ** The manager listening to the controller *)
Module Wiring.

(** The listener that [_initEvents] of the manager registers for the
    controller's ['concurrency-update']. *)
Definition on_concurrency_update (newConcurrency : number)
    (s : QueueManager.t) : Outcome unit * QueueManager.t :=
  QueueManager.setConcurrency (VNumber newConcurrency) s.

End Wiring.

(** ** The scenarios of the specification *)
Module Scenario.
Import TaskGraph.
Local Open Scope string_scope.

Definition task (name : string) : Task := {| label := name |}.

(** The graph a sequence of calls builds from [new TaskGraph()]. *)
Definition build (cs : list Call) : t := (calls cs empty).2.

(** Tasks a and b, no dependency. *)
Definition pair_calls : list Call :=
  [AddTask "a" (task "a"); AddTask "b" (task "b")].
Definition pair : t := build pair_calls.

(** S3: tasks a, b, c with deps(b) = {a} and deps(c) = {b}. *)
Definition chain_calls : list Call :=
  [AddTask "a" (task "a"); AddTask "b" (task "b"); AddTask "c" (task "c");
   AddDependency "b" (One "a"); AddDependency "c" (One "b")].
Definition chain : t := build chain_calls.

(** S4: tasks a, b, c with deps(b) = {a}; c is independent. *)
Definition fork_calls : list Call :=
  [AddTask "a" (task "a"); AddTask "b" (task "b"); AddTask "c" (task "c");
   AddDependency "b" (One "a")].
Definition fork : t := build fork_calls.

Definition default_options : QueueManager.Options :=
  {| QueueManager.opt_concurrency := None;
     QueueManager.opt_autoStart := false |}.

(** [concurrency: 2] *)
Definition two_at_once : QueueManager.Options :=
  {| QueueManager.opt_concurrency := Some (Num 2);
     QueueManager.opt_autoStart := false |}.

(** The manager after the steps [sts] from [s0] (or [s0], should one of
    them be impossible). *)
Definition after (sts : list QueueManager.Step) (s0 : QueueManager.t)
    : QueueManager.t :=
  default s0 (QueueManager.steps sts s0).


(** S4 with a function for a that is rejected at once: a fails before the
    suspended loop is resumed, the loop then takes a from the queue again,
    and c is fulfilled. *)
Definition failing_a : list QueueManager.Step :=
  [QueueManager.Start; QueueManager.Settle "a" false;
   QueueManager.LoopResume; QueueManager.Settle "c" true].

(** S1: every task of the chain is fulfilled in turn. *)
Definition chain_run : list QueueManager.Step :=
  [QueueManager.Start; QueueManager.Settle "a" true;
   QueueManager.Settle "b" true; QueueManager.Settle "c" true].


End Scenario.
(** ** Well-formed graphs and the graphs the API can build *)
Module GraphFacts.
Import TaskGraph.

(** The graphs reached from [new TaskGraph()] by calls that returned. *)
Inductive reachable : t → Prop :=
  | reachable_empty : reachable empty
  | reachable_call g c g' :
      reachable g → call c g = (Returned tt, g') → reachable g'.

(** [x] depends on [y]: [y] is listed in [dependencies.get(x)]. *)
Definition edge (g : t) (x y : TaskId) : Prop := y ∈ deps_of g x.

(** No task is among its own transitive prerequisites. *)
Definition acyclic (g : t) : Prop := ∀ x, ¬ tc (edge g) x x.

(** [x] comes before [y] in [l]. *)
Definition precedes (x y : TaskId) (l : list TaskId) : Prop :=
  ∃ i j, l !! i = Some x ∧ l !! j = Some y ∧ i < j.

(** The representation invariant of the three maps and the set. *)
Record wf (g : t) : Prop := {
  wf_nodup : NoDup (task_ids g);
  wf_dom_deps : dom (dependencies g) = list_to_set (task_ids g);
  wf_dom_rdeps : dom (dependents g) = list_to_set (task_ids g);
  wf_deps_known : ∀ x y, y ∈ deps_of g x → y ∈ task_ids g;
  wf_completed : ∀ x, x ∈ completed g → x ∈ task_ids g
}.

Ltac unfold_M :=
  unfold mbind, M_bind, mret, M_ret, get, put, throw in *.

Lemma has_task_true g x : has_task g x = true ↔ x ∈ task_ids g.
Proof. unfold has_task. by rewrite bool_decide_eq_true. Qed.

Lemma has_task_false g x : has_task g x = false ↔ x ∉ task_ids g.
Proof. unfold has_task. by rewrite bool_decide_eq_false. Qed.

Lemma deps_of_push_to g taskId depId x tasks' rdeps' completed' :
  deps_of (mk tasks' (push_to (dependencies g) taskId depId) rdeps' completed') x
  = if decide (x = taskId ∧ is_Some (dependencies g !! x))
    then deps_of g x ++ [depId] else deps_of g x.
Proof.
  unfold deps_of, push_to; simpl.
  destruct (decide (x = taskId)) as [->|Hne].
  - rewrite lookup_alter_eq. destruct (dependencies g !! taskId) eqn:E; simpl.
    + rewrite decide_True; [done|]. split; [done|by eexists].
    + rewrite decide_False; [done|]. intros [_ [? ?]]; done.
  - rewrite lookup_alter_ne by done.
    rewrite decide_False; [done|]. intros [? _]; done.
Qed.

Lemma empty_wf : wf empty.
Proof.
  split; simpl.
  - constructor.
  - unfold task_ids; simpl. by rewrite dom_empty_L.
  - unfold task_ids; simpl. by rewrite dom_empty_L.
  - intros x y. unfold deps_of; simpl. rewrite lookup_empty; simpl.
    by intros ?%elem_of_nil.
  - intros x. set_solver.
Qed.

Lemma addTask_wf taskId task g o g' :
  wf g → addTask taskId task g = (o, g') → wf g'.
Proof.
  intros Hwf. unfold addTask. unfold_M.
  destruct (has_task g taskId) eqn:Hhas; intros [= <- <-]; [done|].
  apply has_task_false in Hhas. destruct Hwf.
  split; unfold task_ids in *; simpl.
  - rewrite fmap_app; simpl. apply NoDup_app. split; [done|].
    split; [|apply NoDup_singleton].
    intros x Hx ->%list_elem_of_singleton. done.
  - rewrite dom_insert_L, wf_dom_deps0, fmap_app, list_to_set_app_L; simpl.
    rewrite (right_id_L ∅ (∪)). apply (comm_L (∪)).
  - rewrite dom_insert_L, wf_dom_rdeps0, fmap_app, list_to_set_app_L; simpl.
    rewrite (right_id_L ∅ (∪)). apply (comm_L (∪)).
  - intros x y. unfold deps_of; simpl. rewrite fmap_app, elem_of_app.
    destruct (decide (x = taskId)) as [->|Hne].
    + rewrite lookup_insert_eq; simpl. by intros ?%elem_of_nil.
    + rewrite lookup_insert_ne by done. intros Hy. left.
      by apply (wf_deps_known0 x y).
  - intros x Hx. rewrite fmap_app, elem_of_app. left. by apply wf_completed0.
Qed.

Lemma addDependency_step_wf taskId depId g o g' :
  wf g → addDependency_step taskId depId g = (o, g') → wf g'.
Proof.
  intros Hwf. unfold addDependency_step. unfold_M.
  destruct (has_task g depId) eqn:Hhas; simpl; [|by intros [= <- <-]].
  destruct (wouldCreateCycle g depId taskId); [by intros [= <- <-]|].
  destruct (bool_decide (depId ∈ deps_of g taskId)); simpl;
    intros [= <- <-]; [done|].
  apply has_task_true in Hhas. destruct Hwf.
  split; simpl; try done.
  - unfold push_to. by rewrite dom_alter_L.
  - unfold push_to. by rewrite dom_alter_L.
  - intros x y. rewrite deps_of_push_to. case_decide.
    + rewrite elem_of_app, list_elem_of_singleton. intros [Hy| ->]; [|done].
      by apply (wf_deps_known0 x y).
    + apply wf_deps_known0.
Qed.

Lemma addDependency_loop_wf taskId depIds g o g' :
  wf g → addDependency_loop taskId depIds g = (o, g') → wf g'.
Proof.
  revert g. induction depIds as [|depId rest IH]; intros g Hwf; simpl.
  - unfold_M. by intros [= <- <-].
  - unfold mbind, M_bind.
    destruct (addDependency_step taskId depId g) as [[[]|e] g1] eqn:Hstep.
    + apply IH. by eapply addDependency_step_wf.
    + intros [= <- <-]. by eapply addDependency_step_wf.
Qed.

Lemma addDependency_wf taskId dependsOn g o g' :
  wf g → addDependency taskId dependsOn g = (o, g') → wf g'.
Proof.
  intros Hwf. unfold addDependency. unfold mbind, M_bind, get.
  destruct (has_task g taskId); simpl.
  - by apply addDependency_loop_wf.
  - unfold throw. by intros [= <- <-].
Qed.

Lemma markCompleted_wf taskId g o g' :
  wf g → markCompleted taskId g = (o, g') → wf g'.
Proof.
  intros Hwf. unfold markCompleted. unfold_M.
  destruct (has_task g taskId) eqn:Hhas; simpl; intros [= <- <-]; [|done].
  apply has_task_true in Hhas. destruct Hwf.
  split; simpl; try done.
  intros x [->%elem_of_singleton|Hx]%elem_of_union; [done|].
  by apply wf_completed0.
Qed.

(** Every call, returning or throwing, keeps the graph well formed. *)
Lemma call_wf c g o g' : wf g → call c g = (o, g') → wf g'.
Proof.
  destruct c; simpl.
  - apply addTask_wf.
  - apply addDependency_wf.
  - apply markCompleted_wf.
Qed.

Lemma reachable_wf g : reachable g → wf g.
Proof.
  induction 1 as [|g c g' _ IH Hcall].
  - apply empty_wf.
  - by eapply call_wf.
Qed.


(** *** The loop of [wouldCreateCycle] *)

Lemma foldl_push (ds s : list TaskId) :
  foldl (λ s dep, dep :: s) s ds = reverse ds ++ s.
Proof.
  revert s. induction ds as [|d ds IH]; intros s; simpl; [done|].
  by rewrite IH, reverse_cons, <- app_assoc.
Qed.

(** The entries of the dependency arrays of the ids not yet in [visited]:
    what the loop may still push. *)
Definition unvisited_edges (g : t) (visited : gset string) : nat :=
  sum_list_with (λ kv, if bool_decide (kv.1 ∈ visited) then 0 else length kv.2)
    (map_to_list (dependencies g)).

Lemma unvisited_sum_mono (L : list (string * list TaskId))
    (V : gset string) (cur : TaskId) :
  sum_list_with (λ kv, if bool_decide (kv.1 ∈ {[cur]} ∪ V) then 0
                       else length kv.2) L
  ≤ sum_list_with (λ kv, if bool_decide (kv.1 ∈ V) then 0 else length kv.2) L.
Proof.
  induction L as [|kv L IH]; simpl; [done|].
  repeat case_bool_decide; try lia. set_solver.
Qed.

Lemma unvisited_sum_visit (L : list (string * list TaskId))
    (V : gset string) (cur : TaskId) (ds : list TaskId) :
  (cur, ds) ∈ L → cur ∉ V →
  sum_list_with (λ kv, if bool_decide (kv.1 ∈ {[cur]} ∪ V) then 0
                       else length kv.2) L + length ds
  ≤ sum_list_with (λ kv, if bool_decide (kv.1 ∈ V) then 0 else length kv.2) L.
Proof.
  intros Hin Hcur. induction L as [|kv L IH]; [by apply elem_of_nil in Hin|].
  simpl. apply elem_of_cons in Hin as [<-|Hin].
  - pose proof (unvisited_sum_mono L V cur). simpl.
    rewrite bool_decide_eq_true_2 by set_solver.
    rewrite (bool_decide_eq_false_2 (cur ∈ V)) by done. lia.
  - specialize (IH Hin). repeat case_bool_decide; try lia. set_solver.
Qed.

Lemma unvisited_edges_visit g V cur :
  cur ∉ V →
  unvisited_edges g ({[cur]} ∪ V) + length (deps_of g cur)
  ≤ unvisited_edges g V.
Proof.
  intros Hcur. unfold unvisited_edges, deps_of.
  destruct (dependencies g !! cur) as [ds|] eqn:Hds; simpl.
  - apply unvisited_sum_visit; [|done]. by apply elem_of_map_to_list.
  - rewrite Nat.add_0_r. apply unvisited_sum_mono.
Qed.

(** The [while] of [wouldCreateCycle] ends within the fuel it is given. *)
Lemma wouldCreateCycle_loop_total g from fuel stack V :
  length stack + unvisited_edges g V < fuel →
  is_Some (wouldCreateCycle_loop fuel g from stack V).
Proof.
  revert stack V. induction fuel as [|fuel IH]; intros stack V Hfuel; [lia|].
  simpl. destruct stack as [|cur stack]; [by eexists|].
  case_bool_decide; [by eexists|].
  simpl in Hfuel. case_bool_decide as Hvis.
  - apply IH. lia.
  - apply IH. rewrite foldl_push, length_app, length_reverse.
    pose proof (unvisited_edges_visit g V cur Hvis). lia.
Qed.

Lemma unvisited_edges_empty g : unvisited_edges g ∅ = edge_count g.
Proof. done. Qed.

(** [wouldCreateCycle] never falls back on the default of its model: the
    loop answers within [wouldCreateCycle_fuel]. *)
Lemma wouldCreateCycle_total g from to :
  ∃ b, wouldCreateCycle_loop (wouldCreateCycle_fuel g) g from [to] ∅ = Some b
       ∧ wouldCreateCycle g from to = b.
Proof.
  destruct (wouldCreateCycle_loop_total g from (wouldCreateCycle_fuel g) [to] ∅)
    as [b Hb].
  { rewrite unvisited_edges_empty. unfold wouldCreateCycle_fuel. simpl. lia. }
  exists b. split; [done|]. unfold wouldCreateCycle. by rewrite Hb.
Qed.

Lemma wouldCreateCycle_loop_cons fuel g from current stack V :
  wouldCreateCycle_loop (S fuel) g from (current :: stack) V =
  if bool_decide (current = from) then Some true
  else if bool_decide (current ∈ V)
  then wouldCreateCycle_loop fuel g from stack V
  else wouldCreateCycle_loop fuel g from
         (foldl (λ s dep, dep :: s) stack (deps_of g current))
         ({[current]} ∪ V).
Proof. done. Qed.

(** Once [from] is on the stack the loop can only answer [true]. *)
Lemma wouldCreateCycle_loop_found g from fuel stack V b :
  from ∈ stack →
  wouldCreateCycle_loop fuel g from stack V = Some b → b = true.
Proof.
  revert stack V. induction fuel as [|fuel IH]; intros stack V Hin; [done|].
  simpl. destruct stack as [|cur stack]; [by apply elem_of_nil in Hin|].
  case_bool_decide as Hcur; [by intros [= <-]|].
  apply elem_of_cons in Hin as [->|Hin]; [done|].
  case_bool_decide; apply IH; [done|].
  rewrite foldl_push, elem_of_app. by right.
Qed.

(** The check answers [true] for a prerequisite that is already recorded:
    the traversal starts at the dependent [to] and follows [dependencies]. *)
Lemma wouldCreateCycle_recorded g from to :
  from ∈ deps_of g to → wouldCreateCycle g from to = true.
Proof.
  intros Hdep. unfold wouldCreateCycle.
  destruct (wouldCreateCycle_loop_total g from (wouldCreateCycle_fuel g) [to] ∅)
    as [b Hb].
  { rewrite unvisited_edges_empty. unfold wouldCreateCycle_fuel. simpl. lia. }
  rewrite Hb. simpl. unfold wouldCreateCycle_fuel in Hb.
  rewrite wouldCreateCycle_loop_cons in Hb.
  case_bool_decide; [by injection Hb|].
  rewrite bool_decide_eq_false_2 in Hb by set_solver.
  eapply wouldCreateCycle_loop_found; [|exact Hb].
  rewrite foldl_push, elem_of_app, elem_of_reverse. by left.
Qed.

(** *** The depth-first traversal of [getTopologicalOrder] *)
Section visit.
Variable g : t.
Hypothesis g_wf : wf g.

(** What holds of the marks between two calls of [visit]: [order] lists
    the visited ids once each, no visited id is on the current path, and
    every id in [order] comes after all its prerequisites. *)
Record marks_ok (m : Marks) : Prop := {
  ok_order : ∀ z, z ∈ order m ↔ z ∈ visited m;
  ok_nodup : NoDup (order m);
  ok_temp : ∀ z, z ∈ visited m → z ∉ temp m;
  ok_known : ∀ z, z ∈ visited m → z ∈ task_ids g;
  ok_closed : ∀ i z y, order m !! i = Some z → edge g z y →
                ∃ j, j < i ∧ order m !! j = Some y
}.

(** What a returning call of [visit x] or of a loop of such calls does
    to the marks. *)
Definition visit_post (m m' : Marks) : Prop :=
  marks_ok m' ∧ temp m' = temp m ∧ visited m ⊆ visited m'.

Lemma for_each_post body xs m m' :
  (∀ x m m', x ∈ xs → x ∈ task_ids g → marks_ok m →
     body x m = Some (Returned m') → visit_post m m' ∧ x ∈ visited m') →
  (∀ x, x ∈ xs → x ∈ task_ids g) →
  marks_ok m →
  for_each body xs m = Some (Returned m') →
  visit_post m m' ∧ ∀ x, x ∈ xs → x ∈ visited m'.
Proof.
  revert m. induction xs as [|x xs IH]; intros m Hbody Hknown Hok; simpl.
  - intros [= <-]. split; [done|]. by intros x ?%elem_of_nil.
  - destruct (body x m) as [[m1|e]|] eqn:Hx; [|done..].
    intros Hrest.
    destruct (Hbody x m m1) as [(Hok1 & Htemp1 & Hsub1) Hin1];
      [left|apply Hknown; left|done|done|].
    destruct (IH m1) as [(Hok' & Htemp' & Hsub') Hin']; [| |done|done|].
    { intros y n n' Hy. apply Hbody. by right. }
    { intros y Hy. apply Hknown. by right. }
    split.
    + split; [done|]. split; [congruence|set_solver].
    + intros y [->|Hy]%elem_of_cons; [set_solver|by apply Hin'].
Qed.

Lemma visit_post_ok fuel x m m' :
  x ∈ task_ids g → marks_ok m →
  visit fuel g x m = Some (Returned m') →
  visit_post m m' ∧ x ∈ visited m'.
Proof.
  revert x m m'. induction fuel as [|fuel IH]; intros x m m' Hx Hok; [done|].
  simpl. case_bool_decide as Htemp; [done|].
  case_bool_decide as Hvis; simpl.
  { intros [= <-]. by split_and!. }
  set (m1 := {| visited := visited m; temp := {[x]} ∪ temp m;
                order := order m |}).
  destruct (for_each (visit fuel g) (deps_of g x) m1) as [[m2|e]|] eqn:Hloop;
    [|done..].
  intros [= <-].
  assert (marks_ok m1) as Hok1.
  { destruct Hok. split; simpl; try done.
    intros z Hz. specialize (ok_temp0 z Hz). set_solver. }
  destruct (for_each_post _ _ _ _ (λ y n n' _, IH y n n')
              (λ y, wf_deps_known g g_wf x y) Hok1 Hloop)
    as [(Hok2 & Htemp2 & Hsub2) Hdeps].
  simpl in Htemp2, Hsub2.
  assert (x ∉ visited m2) as Hx2.
  { intros Hin. apply (ok_temp _ Hok2) in Hin. set_solver. }
  destruct Hok2. split; [split; [split; simpl|]|]; simpl.
  - intros z. rewrite elem_of_app, list_elem_of_singleton, ok_order0.
    set_solver.
  - apply NoDup_app. split; [done|]. split; [|apply NoDup_singleton].
    intros z Hz ->%list_elem_of_singleton. by apply ok_order0 in Hz.
  - intros z [->%elem_of_singleton|Hz]%elem_of_union; [set_solver|].
    specialize (ok_temp0 z Hz). set_solver.
  - intros z [->%elem_of_singleton|Hz]%elem_of_union; [done|].
    by apply ok_known0.
  - intros i z y Hi Hzy.
    apply lookup_app_Some in Hi as [Hi|[Hlen Hi]].
    + destruct (ok_closed0 i z y Hi Hzy) as (j & Hj & Hy).
      exists j. split; [done|]. by apply lookup_app_l_Some.
    + apply list_lookup_singleton_Some in Hi as [Hi ->].
      assert (y ∈ order m2) as Hy by (apply ok_order0, Hdeps, Hzy).
      apply list_elem_of_lookup in Hy as [j Hj].
      exists j. split; [|by apply lookup_app_l_Some].
      apply lookup_lt_Some in Hj. lia.
  - split; [rewrite Htemp2|]; set_solver.
  - set_solver.
Qed.

Lemma for_each_returns (I : Marks → Prop) body xs m :
  (∀ x m, x ∈ xs → I m → ∃ m', body x m = Some (Returned m') ∧ I m') →
  I m → ∃ m', for_each body xs m = Some (Returned m') ∧ I m'.
Proof.
  revert m. induction xs as [|x xs IH]; intros m Hbody Hm; simpl.
  - by exists m.
  - destruct (Hbody x m) as (m1 & -> & Hm1); [left|done|].
    apply IH; [|done]. intros y n Hy. apply Hbody. by right.
Qed.

Lemma edge_source_known x y : edge g x y → x ∈ task_ids g.
Proof.
  unfold edge, deps_of. intros Hy.
  destruct (dependencies g !! x) as [ds|] eqn:Hds;
    [|by apply elem_of_nil in Hy].
  assert (x ∈ dom (dependencies g)) as Hdom by (apply elem_of_dom; eauto).
  rewrite (wf_dom_deps g g_wf) in Hdom. by apply elem_of_list_to_set in Hdom.
Qed.

(** On an acyclic graph [visit] returns: the ids in [temp] are the
    callers' ids, each of which reaches [x], so [x] is not among them, and
    every nested call has one more of the graph's ids in [temp]. *)
Lemma visit_returns fuel x m :
  acyclic g → x ∈ task_ids g → marks_ok m →
  (∀ z, z ∈ temp m → tc (edge g) z x) →
  size (dom (dependencies g) ∖ temp m) < fuel →
  ∃ m', visit fuel g x m = Some (Returned m').
Proof.
  intros Hacyc. revert x m.
  induction fuel as [|fuel IH]; intros x m Hx Hok Hpath Hfuel; [lia|].
  simpl. case_bool_decide as Htemp.
  { destruct (Hacyc x). by apply Hpath. }
  case_bool_decide as Hvis; simpl; [by eexists|].
  set (m1 := {| visited := visited m; temp := {[x]} ∪ temp m;
                order := order m |}).
  destruct (for_each_returns
              (λ n, marks_ok n ∧ temp n = {[x]} ∪ temp m)
              (visit fuel g) (deps_of g x) m1) as (m2 & -> & _);
    [| |by eexists].
  - intros y n Hy [Hn Htn].
    assert (y ∈ task_ids g) as Hyk by by apply (wf_deps_known g g_wf x).
    destruct (IH y n) as [n' Hn']; [done|done| | |].
    + intros z. rewrite Htn.
      intros [->%elem_of_singleton|Hz]%elem_of_union.
      * by apply tc_once.
      * eapply tc_r; [by apply Hpath|done].
    + rewrite Htn. eapply Nat.lt_le_trans; [|apply Nat.lt_succ_r, Hfuel].
      assert (x ∈ dom (dependencies g)) as Hxd.
      { rewrite (wf_dom_deps g g_wf). by apply elem_of_list_to_set. }
      apply subset_size. split; [set_solver|].
      intros Hsub. specialize (Hsub x). set_solver.
    + exists n'. split; [done|].
      destruct (visit_post_ok fuel y n n') as [(? & ? & ?) _]; [done..|].
      split; [done|congruence].
  - split; [|done]. destruct Hok. split; simpl; try done.
    intros z Hz. specialize (ok_temp0 z Hz). set_solver.
Qed.

End visit.

Lemma precedes_reverse (l : list TaskId) i j x y :
  l !! i = Some x → l !! j = Some y → j < i → precedes x y (reverse l).
Proof.
  intros Hi Hj Hlt.
  pose proof (lookup_lt_Some _ _ _ Hi) as Hil.
  exists (length l - S i), (length l - S j).
  rewrite !reverse_lookup by lia.
  replace (length l - S (length l - S i)) with i by lia.
  replace (length l - S (length l - S j)) with j by lia.
  split; [done|]. split; [done|lia].
Qed.

(** [getTopologicalOrder] on a well-formed acyclic graph, given fuel for one
    nested call per task. *)
Lemma getTopologicalOrder_acyclic g fuel :
  wf g → acyclic g → length (tasks g) < fuel →
  ∃ order,
    getTopologicalOrder fuel g = Some (Returned order) ∧
    order ≡ₚ task_ids g ∧
    ∀ x y, y ∈ deps_of g x → precedes x y order.
Proof.
  intros Hwf Hacyc Hfuel. unfold getTopologicalOrder.
  set (body := λ (taskId : TaskId) (m : Marks),
         if negb (bool_decide (taskId ∈ visited m))
         then visit fuel g taskId m else Some (Returned m)).
  set (m0 := {| visited := ∅; temp := ∅; order := [] |}).
  assert (marks_ok g m0) as Hok0.
  { split; simpl; [set_solver|constructor|set_solver..|done]. }
  assert (size (dom (dependencies g)) < fuel) as Hdom.
  { rewrite (wf_dom_deps g Hwf), size_list_to_set by apply (wf_nodup g Hwf).
    unfold task_ids. by rewrite length_fmap. }
  destruct (for_each_returns (λ n, marks_ok g n ∧ temp n = ∅)
              body (task_ids g) m0) as (m & Hrun & Hok & Htemp); [|done|].
  { intros x n Hx [Hn Htn]. unfold body. case_bool_decide as Hvis; simpl.
    - by exists n.
    - destruct (visit_returns g Hwf fuel x n) as [n' Hn']; [done..| | |].
      + rewrite Htn. set_solver.
      + rewrite Htn. by rewrite difference_empty_L.
      + exists n'. split; [done|].
        destruct (visit_post_ok g Hwf fuel x n n') as [(? & ? & ?) _];
          [done..|].
        split; [done|congruence]. }
  destruct (for_each_post g Hwf body (task_ids g) m0 m) as [_ Hall];
    [|done..|].
  { intros x n n' _ Hx Hn. unfold body. case_bool_decide as Hvis; simpl.
    - intros [= <-]. by split_and!.
    - by apply visit_post_ok. }
  fold body. rewrite Hrun. eexists. split; [done|]. destruct Hok. split.
  - rewrite reverse_Permutation.
    apply NoDup_Permutation; [done|apply (wf_nodup g Hwf)|].
    intros x. rewrite ok_order0. split; [apply ok_known0|apply Hall].
  - intros x y Hxy.
    assert (x ∈ order m) as Hx.
    { apply ok_order0, Hall. by eapply edge_source_known. }
    apply list_elem_of_lookup in Hx as [i Hi].
    destruct (ok_closed0 i x y Hi Hxy) as (j & Hj & Hy).
    by eapply precedes_reverse.
Qed.

End GraphFacts.

(** ** The task graph against the specification *)
Module GraphClaims.
Import TaskGraph GraphFacts Scenario.
Local Open Scope string_scope.

Lemma reachable_calls cs g g' :
  reachable g → calls cs g = (Returned tt, g') → reachable g'.
Proof.
  revert g. induction cs as [|c cs IH]; intros g Hg; simpl.
  - unfold mret, M_ret. by intros [= <-].
  - unfold mbind, M_bind.
    destruct (call c g) as [[[]|e] g1] eqn:Hc; [|done].
    apply IH. by eapply reachable_call.
Qed.

Lemma pair_reachable : reachable pair.
Proof.
  apply (reachable_calls pair_calls empty); [apply reachable_empty|].
  by vm_compute.
Qed.

Lemma chain_reachable : reachable chain.
Proof.
  apply (reachable_calls chain_calls empty); [apply reachable_empty|].
  by vm_compute.
Qed.

Lemma fork_reachable : reachable fork.
Proof.
  apply (reachable_calls fork_calls empty); [apply reachable_empty|].
  by vm_compute.
Qed.

(** A graph whose edges all go down along a rank has no cycle. *)
Lemma ranked_acyclic g (rank : TaskId → nat) :
  map_Forall (λ x ds, Forall (λ y, rank y < rank x) ds) (dependencies g) →
  acyclic g.
Proof.
  intros Hrank.
  assert (∀ x y, edge g x y → rank y < rank x) as Hedge.
  { intros x y. unfold edge, deps_of.
    destruct (dependencies g !! x) as [ds|] eqn:Hds; simpl.
    - intros Hy. specialize (Hrank x ds Hds). simpl in Hrank.
      by apply (proj1 (Forall_forall _ _) Hrank).
    - by intros ?%elem_of_nil. }
  assert (∀ x y, tc (edge g) x y → rank y < rank x) as Htc.
  { induction 1 as [x y Hxy|x y z Hxy _ IH].
    - by apply Hedge.
    - apply Hedge in Hxy. lia. }
  intros x Hx. apply Htc in Hx. lia.
Qed.

Lemma chain_acyclic : acyclic chain.
Proof.
  apply (ranked_acyclic chain
           (λ x, if decide (x = "a") then 0 else if decide (x = "b") then 1
                 else 2)).
  apply (bool_decide_unpack _). by vm_compute.
Qed.

(** *** Cycle rejection *)

(** The chain after [addDependency('a', 'c')]. *)
Definition looped : t := (addDependency "a" (One "c") chain).2.

Lemma looped_reachable : reachable looped.
Proof.
  apply (reachable_call chain (AddDependency "a" (One "c")));
    [apply chain_reachable|by vm_compute].
Qed.

(** C1 (S3, the check as the code has it).  On the chain a, b, c with
    deps(b) = {a} and deps(c) = {b}, [addDependency('a', 'c')] does not
    throw: [wouldCreateCycle('c', 'a')] starts at the dependent a, follows
    [dependencies] and looks for the prerequisite c, and a has no
    prerequisite yet.  The call records c in deps(a), so a graph reached by
    calls that all returned has the cycle a, c, b, a, and
    [getTopologicalOrder] throws on it. *)
Theorem addDependency_accepts_cycle :
  reachable chain ∧
  wouldCreateCycle chain "c" "a" = false ∧
  addDependency "a" (One "c") chain = (Returned tt, looped) ∧
  deps_of looped "a" = ["c"] ∧
  reachable looped ∧
  ¬ acyclic looped ∧
  getTopologicalOrder 4 looped = Some (Thrown CycleError).
Proof.
  split_and!; try by vm_compute.
  - apply chain_reachable.
  - apply looped_reachable.
  - intros Hacyc. apply (Hacyc "a").
    apply (tc_l _ _ "c"); [|apply (tc_l _ _ "b"); [|apply tc_once]];
      unfold edge; apply (bool_decide_unpack _); by vm_compute.
Qed.

(** *** Adding a dependency twice *)

Lemma addDependency_One x y g :
  addDependency x (One y) g =
  if negb (has_task g x) then (Thrown UnknownTaskError, g)
  else match addDependency_step x y g with
       | (Returned _, g') => (Returned tt, g')
       | (Thrown e, g') => (Thrown e, g')
       end.
Proof.
  unfold addDependency; simpl. unfold mbind at 1, M_bind at 1, get.
  destruct (has_task g x); simpl; [|done].
  unfold mbind, M_bind. by destruct (addDependency_step x y g) as [[[]|?] ?].
Qed.

Lemma addDependency_step_recorded x y g g1 :
  wf g → has_task g x = true →
  addDependency_step x y g = (Returned tt, g1) →
  has_task g y = true ∧ tasks g1 = tasks g ∧ y ∈ deps_of g1 x.
Proof.
  intros Hwf Hx. unfold addDependency_step. unfold_M.
  destruct (has_task g y); simpl; [|done].
  destruct (wouldCreateCycle g y x); [done|].
  case_bool_decide as Hdep; simpl; intros [= <-]; [done|].
  split; [done|]. split; [done|].
  rewrite deps_of_push_to, decide_True; [set_solver|].
  split; [done|]. apply elem_of_dom. rewrite (wf_dom_deps g Hwf).
  apply elem_of_list_to_set. by apply has_task_true.
Qed.

Lemma addDependency_step_again x y g :
  has_task g y = true → y ∈ deps_of g x →
  addDependency_step x y g = (Thrown CycleError, g).
Proof.
  intros Hy Hdep. unfold addDependency_step. unfold_M.
  rewrite Hy; simpl. by rewrite wouldCreateCycle_recorded.
Qed.

(** After [addDependency(x, y)] has returned, the same call throws the
    cycle error and leaves the graph as it is: y is then listed in
    deps(x), which is what [wouldCreateCycle(y, x)] looks for. *)
Lemma addDependency_again_throws g x y g1 :
  wf g →
  addDependency x (One y) g = (Returned tt, g1) →
  addDependency x (One y) g1 = (Thrown CycleError, g1).
Proof.
  intros Hwf. rewrite !addDependency_One.
  destruct (has_task g x) eqn:Hx; simpl; [|done].
  destruct (addDependency_step x y g) as [[[]|e] g'] eqn:Hstep; [|done].
  intros [= <-].
  destruct (addDependency_step_recorded x y g g' Hwf Hx Hstep)
    as (Hy & Htasks & Hdep).
  unfold has_task, task_ids in *. rewrite Htasks, Hx; simpl.
  rewrite addDependency_step_again; [done| |done].
  unfold has_task, task_ids. by rewrite Htasks.
Qed.

(** C4 (the second call as the code has it).  On the graph with tasks a
    and b, [addDependency('b', 'a')] returns and records the edge; the same
    call once more throws the cycle error instead of skipping the duplicate,
    and leaves the graph as the first call left it. *)
Theorem addDependency_twice_throws :
  let first := addDependency "b" (One "a") pair in
  first.1 = Returned tt ∧
  deps_of first.2 "b" = ["a"] ∧
  wouldCreateCycle first.2 "a" "b" = true ∧
  addDependency "b" (One "a") first.2 = (Thrown CycleError, first.2).
Proof. split_and!; by vm_compute. Qed.

(** *** Throwing calls *)



Lemma addDependency_step_tasks taskId depId g o g' :
  addDependency_step taskId depId g = (o, g') → tasks g' = tasks g.
Proof.
  unfold addDependency_step. unfold_M.
  destruct (has_task g depId); simpl; [|by intros [= _ <-]].
  destruct (wouldCreateCycle g depId taskId); [by intros [= _ <-]|].
  by destruct (bool_decide (depId ∈ deps_of g taskId)); simpl; intros [= _ <-].
Qed.





(** *** Topological order *)

(** C3 (as amended).  On a graph built by calls that returned and whose
    dependency relation is acyclic, [getTopologicalOrder] returns (given
    fuel for one nested call per task) a permutation of the task ids in
    which every task comes before each of its prerequisites: dependents
    first.  On the chain a, b, c the order is c, b, a. *)
Theorem getTopologicalOrder_dependents_first :
  (∀ g fuel,
     reachable g → acyclic g → length (tasks g) < fuel →
     ∃ order,
       getTopologicalOrder fuel g = Some (Returned order) ∧
       order ≡ₚ task_ids g ∧
       ∀ x y, y ∈ deps_of g x → precedes x y order) ∧
  getTopologicalOrder 4 chain = Some (Returned ["c"; "b"; "a"]).
Proof.
  split; [|by vm_compute].
  intros g fuel Hg. apply getTopologicalOrder_acyclic. by apply reachable_wf.
Qed.

(** Witness for [getTopologicalOrder_dependents_first]: the chain. *)
Lemma getTopologicalOrder_dependents_first_witness :
  reachable chain ∧ acyclic chain ∧ length (tasks chain) < 4 ∧
  ∃ order,
    getTopologicalOrder 4 chain = Some (Returned order) ∧
    order ≡ₚ task_ids chain ∧
    ∀ x y, y ∈ deps_of chain x → precedes x y order.
Proof.
  assert (length (tasks chain) < 4) as Hlen by (vm_compute; lia).
  split_and!; [apply chain_reachable|apply chain_acyclic|exact Hlen|].
  exact (proj1 getTopologicalOrder_dependents_first chain 4
           chain_reachable chain_acyclic Hlen).
Defined.

(** C3 (as stated) fails on the chain a, b, c: the calls that built it
    returned, the order is c, b, a and not a, b, c, and the prerequisite a
    of b does not come before b.  And on the chain with the dependency of a
    on c, also built by calls that returned, no order is returned at all. *)
Lemma getTopologicalOrder_chain_reversed :
  reachable chain ∧
  getTopologicalOrder 4 chain = Some (Returned ["c"; "b"; "a"]) ∧
  "a" ∈ deps_of chain "b" ∧
  ¬ precedes "a" "b" ["c"; "b"; "a"] ∧
  reachable looped ∧
  getTopologicalOrder 4 looped = Some (Thrown CycleError).
Proof.
  split_and!; [apply chain_reachable|by vm_compute| | |
               apply looped_reachable|by vm_compute].
  - apply (bool_decide_unpack _). by vm_compute.
  - intros (i & j & Hi & Hj & Hlt).
    destruct i as [|[|[|i]]]; try done.
    destruct j as [|[|[|j]]]; try done; lia.
Qed.

End GraphClaims.

(** ** What every state of a run satisfies *)
Module QueueFacts.
Import QueueManager.
Import GraphFacts.

(** The components the invariants below speak of. *)
Definition core (s : t) :=
  (taskGraph s, concurrency s, running s, queue s, stats s, events s).

(** How one turn of the [while] of [_processQueue] changes the manager. *)
Inductive turn_spec (s : t) : t → bool → Prop :=
  | turn_over : turn_spec s s false
  | turn_rejected y rest :
      queue s = y :: rest →
      TaskGraph.has_task (taskGraph s) y = false →
      turn_spec s (set_queue rest s) false
  | turn_dispatch y rest :
      queue s = y :: rest →
      number_lt (of_nat (size (running s))) (concurrency s) = true →
      TaskGraph.has_task (taskGraph s) y = true →
      turn_spec s
        (set_running ({[y]} ∪ running s)
           (emit (TaskStart y) (set_queue rest s)))
        true.

Lemma processQueue_turn_spec s :
  turn_spec s (processQueue_turn s).1 (processQueue_turn s).2.
Proof.
  unfold processQueue_turn.
  destruct (queue s) as [|y rest] eqn:Hq; [constructor|].
  destruct (number_lt _ _) eqn:Hlt; [|constructor].
  unfold executeTask; simpl.
  destruct (TaskGraph.has_task (taskGraph s) y) eqn:Hy; simpl.
  - by eapply turn_dispatch.
  - by eapply turn_rejected.
Qed.

(** A call of [_processQueue] does nothing or takes one turn; only the
    count of suspended loops changes besides. *)
Lemma processQueue_core s :
  core (processQueue s) = core s ∨
  core (processQueue s) = core (processQueue_turn s).1.
Proof.
  unfold processQueue. destruct (negb (isProcessing s) || isPaused s); [by left|].
  right. by destruct (processQueue_turn s) as [s' []].
Qed.

Lemma loopResume_core s s' :
  loopResume s = Some s' → core s' = core (processQueue_turn s).1.
Proof.
  unfold loopResume. destruct (loops s); [done|].
  by destruct (processQueue_turn s) as [s1 []]; intros [= <-].
Qed.

(** The queue [_updateQueue] builds. *)
Definition enqueue (running : gset string) (q : list TaskId) (taskId : TaskId)
    : list TaskId :=
  if negb (bool_decide (taskId ∈ q)) && negb (bool_decide (taskId ∈ running))
  then q ++ [taskId] else q.

Lemma updateQueue_queue s :
  queue (updateQueue s)
  = foldl (enqueue (running s)) (queue s)
      (TaskGraph.getReadyTasks (taskGraph s)).
Proof. done. Qed.

Lemma foldl_enqueue r ready q :
  NoDup q →
  NoDup (foldl (enqueue r) q ready) ∧
  (∀ y, y ∈ foldl (enqueue r) q ready ↔
        y ∈ q ∨ (y ∈ ready ∧ y ∉ r)).
Proof.
  revert q. induction ready as [|x ready IH]; intros q Hq; simpl.
  - split; [done|]. intros y. rewrite elem_of_nil. naive_solver.
  - assert (NoDup (enqueue r q x) ∧
            ∀ y, y ∈ enqueue r q x ↔ y ∈ q ∨ (y = x ∧ y ∉ r)) as [Hnd Hin].
    { unfold enqueue. repeat case_bool_decide; simpl.
      - split; [done|]. naive_solver.
      - split; [done|]. naive_solver.
      - split; [done|]. naive_solver.
      - split.
        + apply NoDup_app. split; [done|]. split; [|apply NoDup_singleton].
          by intros y Hy ->%list_elem_of_singleton.
        + intros y. rewrite elem_of_app, list_elem_of_singleton.
          naive_solver. }
    destruct (IH _ Hnd) as [Hnd' Hin']. split; [done|].
    intros y. rewrite Hin', Hin, elem_of_cons. naive_solver.
Qed.

(** [e] reports that a task has settled or that the queue is complete. *)
Definition settling (e : Event) : Prop :=
  match e with
  | TaskComplete _ | TaskError _ | QueueComplete => True
  | _ => False
  end.

Lemma snoc_split {A} (l : list A) e l1 a l2 :
  l ++ [e] = l1 ++ a :: l2 →
  (∃ l2', l2 = l2' ++ [e] ∧ l = l1 ++ a :: l2') ∨
  (l2 = [] ∧ a = e ∧ l1 = l).
Proof.
  destruct l2 as [|b l2 _] using rev_ind.
  - intros [-> ->]%app_inj_tail. by right.
  - rewrite app_comm_cons, app_assoc. intros [-> ->]%app_inj_tail.
    left. by eexists.
Qed.

Section run.
Variable g0 : TaskGraph.t.
Hypothesis g0_wf : wf g0.

(** [y] can be dispatched: registered, not completed, and all its
    prerequisites completed. *)
Definition ready (g : TaskGraph.t) (y : TaskId) : Prop :=
  y ∈ TaskGraph.task_ids g0 ∧
  (y ∉ TaskGraph.completed g) ∧
  ∀ x, x ∈ TaskGraph.deps_of g0 y → x ∈ TaskGraph.completed g.

(** Every [task-start] of a task comes after a [task-complete] of each of
    its prerequisites, unless the prerequisite was completed from the
    start. *)
Definition starts_ok (evs : list Event) : Prop :=
  ∀ l1 y l2, evs = l1 ++ TaskStart y :: l2 →
    ∀ x, x ∈ TaskGraph.deps_of g0 y →
      x ∈ TaskGraph.completed g0 ∨ TaskComplete x ∈ l1.

(** Nothing settles after a [queue-complete]. *)
Definition quiet (evs : list Event) : Prop :=
  ∀ l1 l2, evs = l1 ++ QueueComplete :: l2 → ∀ e, e ∈ l2 → ¬ settling e.

Record inv (s : t) : Prop := {
  inv_tasks : TaskGraph.tasks (taskGraph s) = TaskGraph.tasks g0;
  inv_deps : TaskGraph.dependencies (taskGraph s) = TaskGraph.dependencies g0;
  inv_known : ∀ x, x ∈ TaskGraph.completed (taskGraph s) →
                x ∈ TaskGraph.task_ids g0;
  inv_queue_nodup : NoDup (queue s);
  inv_queue : ∀ y, y ∈ queue s → ready (taskGraph s) y ∧ y ∉ running s;
  inv_running : ∀ y, y ∈ running s → ready (taskGraph s) y;
  inv_done : ∀ x, x ∈ TaskGraph.completed (taskGraph s) →
               x ∈ TaskGraph.completed g0 ∨ TaskComplete x ∈ events s;
  inv_starts : starts_ok (events s);
  inv_quiet : quiet (events s);
  inv_all_done : QueueComplete ∈ events s →
                 ∀ x, x ∈ TaskGraph.task_ids g0 →
                   x ∈ TaskGraph.completed (taskGraph s)
}.

Lemma inv_same s s' :
  taskGraph s' = taskGraph s → running s' = running s →
  queue s' = queue s → events s' = events s →
  inv s → inv s'.
Proof. intros Hg Hr Hq He []. split; by rewrite ?Hg, ?Hr, ?Hq, ?He. Qed.

Lemma inv_core s s' : core s' = core s → inv s → inv s'.
Proof. unfold core. intros [= Hg _ Hr Hq _ He]. by apply inv_same. Qed.

Lemma starts_ok_snoc evs e :
  starts_ok evs →
  (∀ y, e = TaskStart y → ∀ x, x ∈ TaskGraph.deps_of g0 y →
     x ∈ TaskGraph.completed g0 ∨ TaskComplete x ∈ evs) →
  starts_ok (evs ++ [e]).
Proof.
  intros Hevs He l1 y l2 [(l2' & -> & ->)|(-> & <- & ->)]%snoc_split.
  - by eapply Hevs.
  - by apply He.
Qed.

Lemma quiet_snoc evs e :
  quiet evs → (settling e → QueueComplete ∉ evs) → quiet (evs ++ [e]).
Proof.
  intros Hevs He l1 l2 [(l2' & -> & ->)|(-> & _ & _)]%snoc_split e'.
  - rewrite elem_of_app, list_elem_of_singleton. intros [Hin| ->].
    + by eapply Hevs.
    + intros Hs. apply (He Hs). rewrite elem_of_app, elem_of_cons. auto.
  - by intros ?%elem_of_nil.
Qed.

Lemma ready_getReadyTasks s y :
  inv s → y ∈ TaskGraph.getReadyTasks (taskGraph s) ↔ ready (taskGraph s) y.
Proof.
  intros Hinv. unfold TaskGraph.getReadyTasks, ready.
  rewrite list_elem_of_filter, Forall_forall.
  unfold TaskGraph.deps_of, TaskGraph.task_ids.
  rewrite (inv_tasks s Hinv), (inv_deps s Hinv). naive_solver.
Qed.

Lemma inv_updateQueue s : inv s → inv (updateQueue s).
Proof.
  intros Hinv.
  destruct (foldl_enqueue (running s)
              (TaskGraph.getReadyTasks (taskGraph s)) (queue s)
              (inv_queue_nodup s Hinv)) as [Hnd Hin].
  pose proof (ready_getReadyTasks s) as Hready.
  destruct Hinv. split; simpl; try done.
  intros y [Hy|[Hy Hr]]%Hin; [by apply inv_queue0|].
  split; [|done]. apply Hready; [by split|done].
Qed.

(** After [_updateQueue] every ready task is queued or running. *)
Lemma updateQueue_ready s y :
  inv s → ready (taskGraph s) y →
  y ∈ queue (updateQueue s) ∨ y ∈ running s.
Proof.
  intros Hinv Hy.
  destruct (foldl_enqueue (running s)
              (TaskGraph.getReadyTasks (taskGraph s)) (queue s)
              (inv_queue_nodup s Hinv)) as [_ Hin].
  rewrite updateQueue_queue, Hin.
  destruct (decide (y ∈ running s)); [by right|left; right].
  split; [|done]. by apply ready_getReadyTasks.
Qed.

Lemma inv_turn s : inv s → inv (processQueue_turn s).1.
Proof.
  intros Hinv.
  destruct (processQueue_turn_spec s) as [|y rest Hq Hy|y rest Hq Hlt Hy];
    [done| |].
  - destruct Hinv. rewrite Hq in *. split; simpl; try done.
    + by apply NoDup_cons in inv_queue_nodup0 as [_ ?].
    + intros z Hz. apply inv_queue0. by right.
  - destruct Hinv. rewrite Hq in *.
    apply NoDup_cons in inv_queue_nodup0 as [Hyrest Hrest].
    destruct (inv_queue0 y) as [Hyready Hyrun]; [by left|].
    split; simpl; try done.
    + intros z Hz. destruct (inv_queue0 z) as [? ?]; [by right|].
      split; [done|]. set_solver.
    + intros z [->%elem_of_singleton|Hz]%elem_of_union; [done|].
      by apply inv_running0.
    + intros x Hx. rewrite elem_of_app. destruct (inv_done0 x Hx); auto.
    + apply starts_ok_snoc; [done|]. intros ? [= <-] x Hx.
      apply inv_done0. by apply Hyready.
    + apply quiet_snoc; [done|]. by intros [].
    + rewrite elem_of_app, list_elem_of_singleton.
      intros [Hqc|[=]]. by apply inv_all_done0.
Qed.

Lemma inv_processQueue s : inv s → inv (processQueue s).
Proof.
  intros Hinv. destruct (processQueue_core s) as [H|H];
    eapply inv_core; try exact H; [done|by apply inv_turn].
Qed.

Lemma inv_loopResume s s' : inv s → loopResume s = Some s' → inv s'.
Proof.
  intros Hinv H%loopResume_core. eapply inv_core; [exact H|].
  by apply inv_turn.
Qed.

Lemma inv_start s : inv s → inv (start s).
Proof.
  intros Hinv. unfold start. destruct (isProcessing s); [done|].
  apply inv_processQueue, inv_updateQueue.
  by apply (inv_same s).
Qed.

(** The control events say nothing of tasks. *)
Lemma inv_emit e s :
  e = Paused ∨ e = Resumed ∨ (∃ n, e = ConcurrencyChanged n) →
  inv s → inv (emit e s).
Proof.
  intros He []. split; simpl; try done.
  - intros x Hx. rewrite elem_of_app. destruct (inv_done0 x Hx); auto.
  - apply starts_ok_snoc; [done|]. intros y ->. naive_solver.
  - apply quiet_snoc; [done|]. intros Hs. exfalso.
    destruct He as [->|[->|[n ->]]]; done.
  - rewrite elem_of_app, list_elem_of_singleton.
    intros [Hqc|Heq]; [by apply inv_all_done0|]. subst e. naive_solver.
Qed.

Lemma inv_pause s : inv s → inv (pause s).
Proof.
  intros Hinv. apply inv_emit; [by left|]. by apply (inv_same s).
Qed.

Lemma inv_resume s : inv s → inv (resume s).
Proof.
  intros Hinv. unfold resume.
  destruct (negb (isProcessing s) || negb (isPaused s)); [by apply inv_start|].
  apply inv_emit; [by right; left|]. apply inv_processQueue.
  by apply (inv_same s).
Qed.

Lemma inv_setConcurrency v s : inv s → inv (setConcurrency v s).2.
Proof.
  intros Hinv. unfold setConcurrency. destruct v as [n| | | |]; try done.
  destruct (number_lt n (Num 1)); [done|]. simpl.
  assert (inv (emit (ConcurrencyChanged n) (set_concurrency n s))) as Hinv'.
  { apply inv_emit; [right; right; by eexists|]. by apply (inv_same s). }
  destruct (isProcessing s && negb (isPaused s)); [|done].
  by apply inv_processQueue.
Qed.

Lemma isComplete_all g :
  TaskGraph.tasks g = TaskGraph.tasks g0 →
  (∀ x, x ∈ TaskGraph.completed g → x ∈ TaskGraph.task_ids g0) →
  TaskGraph.isComplete g = true →
  ∀ x, x ∈ TaskGraph.task_ids g0 → x ∈ TaskGraph.completed g.
Proof.
  intros Htasks Hknown Hsize%bool_decide_eq_true x Hx.
  assert (TaskGraph.completed g = list_to_set (TaskGraph.task_ids g0)) as Heq.
  { apply set_subseteq_size_eq.
    - intros y Hy. by apply elem_of_list_to_set, Hknown.
    - rewrite size_list_to_set by apply (wf_nodup g0 g0_wf).
      unfold TaskGraph.task_ids. rewrite length_fmap, <- Htasks. lia. }
  rewrite Heq. by apply elem_of_list_to_set.
Qed.

(** A running task is not completed, so no [queue-complete] has been
    emitted while one is in flight. *)
Lemma running_not_complete s t :
  inv s → t ∈ running s → QueueComplete ∉ events s.
Proof.
  intros Hinv Ht Hqc. destruct (inv_running s Hinv t Ht) as (Hk & Hnc & _).
  apply Hnc. by apply (inv_all_done s Hinv).
Qed.

Lemma markCompleted_running s t :
  inv s → t ∈ running s →
  TaskGraph.markCompleted t (taskGraph s)
  = (Returned tt,
     {| TaskGraph.tasks := TaskGraph.tasks (taskGraph s);
        TaskGraph.dependencies := TaskGraph.dependencies (taskGraph s);
        TaskGraph.dependents := TaskGraph.dependents (taskGraph s);
        TaskGraph.completed := {[t]} ∪ TaskGraph.completed (taskGraph s) |}).
Proof.
  intros Hinv Ht. destruct (inv_running s Hinv t Ht) as (Hk & _).
  unfold TaskGraph.markCompleted. unfold_M.
  assert (TaskGraph.has_task (taskGraph s) t = true) as ->; [|done].
  apply has_task_true. unfold TaskGraph.task_ids in *.
  by rewrite (inv_tasks s Hinv).
Qed.

Lemma inv_taskFailed s t :
  inv s → t ∈ running s →
  inv (set_running (running s ∖ {[t]}) (taskFailed t s)).
Proof.
  intros Hinv Ht. pose proof (running_not_complete s t Hinv Ht) as Hqc.
  destruct Hinv. split; simpl; try done.
  - intros y Hy. destruct (inv_queue0 y Hy). split; [done|set_solver].
  - intros y Hy. apply inv_running0. set_solver.
  - intros x Hx. rewrite elem_of_app. destruct (inv_done0 x Hx); auto.
  - apply starts_ok_snoc; [done|]. by intros y [=].
  - by apply quiet_snoc.
  - rewrite elem_of_app, list_elem_of_singleton. by intros [?|[=]].
Qed.

Lemma inv_taskSucceeded s t :
  inv s → t ∈ running s →
  inv (set_running (running (taskSucceeded t s) ∖ {[t]}) (taskSucceeded t s)).
Proof.
  intros Hinv Ht. pose proof (running_not_complete s t Hinv Ht) as Hqc.
  unfold taskSucceeded. rewrite (markCompleted_running s t Hinv Ht).
  destruct (inv_running s Hinv t Ht) as (Hk & Hnc & Hdeps).
  set (g' := {| TaskGraph.tasks := TaskGraph.tasks (taskGraph s);
                TaskGraph.completed := _ |}).
  assert (∀ y, y ≠ t → ready (taskGraph s) y → ready g' y) as Hready.
  { intros y Hne (? & ? & ?). split; [done|]. simpl. split; set_solver. }
  assert (∀ x, x ∈ TaskGraph.completed g' → x ∈ TaskGraph.task_ids g0)
    as Hknown.
  { simpl. intros x [->%elem_of_singleton|Hx]%elem_of_union; [done|].
    by apply (inv_known s Hinv). }
  simpl.
  destruct (TaskGraph.isComplete g') eqn:Hcomplete; destruct Hinv;
    split; simpl; try done.
  - intros y Hy. destruct (inv_queue0 y Hy). split; [|set_solver].
    apply Hready; [|done]. by intros ->.
  - intros y [Hy Hne%not_elem_of_singleton]%elem_of_difference.
    apply Hready; [done|]. by apply inv_running0.
  - intros x. rewrite !elem_of_app, !list_elem_of_singleton.
    intros [->%elem_of_singleton|Hx]%elem_of_union; [by auto|].
    destruct (inv_done0 x Hx); auto.
  - apply starts_ok_snoc; [|by intros y [=]].
    apply starts_ok_snoc; [done|by intros y [=]].
  - apply quiet_snoc.
    + by apply quiet_snoc.
    + intros _. rewrite elem_of_app, list_elem_of_singleton. by intros [?|[=]].
  - intros _. exact (isComplete_all g' inv_tasks0 Hknown Hcomplete).
  - intros y Hy. destruct (inv_queue0 y Hy). split; [|set_solver].
    apply Hready; [|done]. by intros ->.
  - intros y [Hy Hne%not_elem_of_singleton]%elem_of_difference.
    apply Hready; [done|]. by apply inv_running0.
  - intros x. rewrite !elem_of_app, !list_elem_of_singleton.
    intros [->%elem_of_singleton|Hx]%elem_of_union; [by auto|].
    destruct (inv_done0 x Hx); auto.
  - apply starts_ok_snoc; [done|by intros y [=]].
  - by apply quiet_snoc.
  - rewrite elem_of_app, list_elem_of_singleton. by intros [?|[=]].
Qed.

Lemma inv_settle s t ok s' : inv s → settle t ok s = Some s' → inv s'.
Proof.
  intros Hinv. unfold settle. case_bool_decide as Ht; [|done].
  intros [= <-]. unfold taskFinally.
  apply inv_processQueue, inv_updateQueue.
  destruct ok; [by apply inv_taskSucceeded|].
  exact (inv_taskFailed s t Hinv Ht).
Qed.

Lemma inv_step st s s' : inv s → step st s = Some s' → inv s'.
Proof.
  intros Hinv. destruct st; simpl.
  - intros [= <-]. by apply inv_start.
  - intros [= <-]. by apply inv_pause.
  - intros [= <-]. by apply inv_resume.
  - intros [= <-]. by apply inv_setConcurrency.
  - by apply inv_loopResume.
  - by apply inv_settle.
Qed.

Lemma inv_steps sts s s' : inv s → steps sts s = Some s' → inv s'.
Proof.
  revert s. induction sts as [|st sts IH]; intros s Hinv; simpl.
  - by intros [= <-].
  - destruct (step st s) as [s1|] eqn:Hst; [|done].
    apply IH. by eapply inv_step.
Qed.

Lemma inv_constructor options : inv (constructor g0 options).
Proof.
  unfold constructor.
  set (s := {| taskGraph := g0; events := [] |}).
  assert (inv s) as Hinv.
  { split; simpl; try done.
    - apply (wf_completed g0 g0_wf).
    - constructor.
    - by intros y ?%elem_of_nil.
    - intros x Hx. by left.
    - intros l1 y l2 H. by destruct l1.
    - intros l1 l2 H. by destruct l1.
    - by intros ?%elem_of_nil. }
  destruct (opt_autoStart options); [by apply inv_start|done].
Qed.

End run.

End QueueFacts.

(** ** The queue manager against the specification *)
Module QueueClaims.
Import QueueManager QueueFacts.
Import GraphFacts GraphClaims Scenario.

(** *** The concurrency bound *)



Local Open Scope string_scope.


Local Close Scope string_scope.

(** *** The argument of [setConcurrency] *)

Lemma processQueue_concurrency s : concurrency (processQueue s) = concurrency s.
Proof.
  destruct (processQueue_core s) as [[= _ -> _ _ _ _]|[= _ -> _ _ _ _]];
    [done|].
  by destruct (processQueue_turn_spec s).
Qed.





(** *** The order of the events *)

Lemma run_inv g options sts s :
  wf g → steps sts (constructor g options) = Some s → inv g s.
Proof.
  intros Hwf. apply inv_steps; [done|]. by apply inv_constructor.
Qed.

(** On a graph with nothing completed every [task-start] comes after the
    [task-complete] of each prerequisite. *)
Lemma events_ordered_fresh g options sts s l1 y l2 x :
  wf g → TaskGraph.completed g = ∅ →
  steps sts (constructor g options) = Some s →
  events s = l1 ++ TaskStart y :: l2 →
  x ∈ TaskGraph.deps_of g y →
  TaskComplete x ∈ l1.
Proof.
  intros Hg Hfresh Hrun Hev Hx.
  destruct (inv_starts g s (run_inv g options sts s Hg Hrun) l1 y l2 Hev x Hx)
    as [Hc|]; [|done].
  rewrite Hfresh in Hc. set_solver.
Qed.

Local Open Scope string_scope.



Local Close Scope string_scope.

(** *** A task whose function fails *)

Lemma processQueue_frame s :
  taskGraph (processQueue s) = taskGraph s ∧
  stats (processQueue s) = stats s ∧
  ∃ l, events (processQueue s) = events s ++ l ∧
       (l = [] ∨ ∃ y, l = [TaskStart y]).
Proof.
  destruct (processQueue_core s) as [[= -> _ _ _ -> ->]|[= -> _ _ _ -> ->]].
  - split_and!; [done..|]. exists []. rewrite app_nil_r. auto.
  - destruct (processQueue_turn_spec s); simpl; split_and!; try done.
    + exists []. rewrite app_nil_r. auto.
    + exists []. rewrite app_nil_r. auto.
    + eexists. split; [done|]. right. by eexists.
Qed.

(** [_processQueue] moves a task from the queue to the running set, or
    leaves both alone. *)
Lemma processQueue_keeps g s y :
  inv g s → y ∈ queue s ∨ y ∈ running s →
  y ∈ queue (processQueue s) ∨ y ∈ running (processQueue s).
Proof.
  intros Hinv Hy.
  destruct (processQueue_core s) as [[= _ _ -> -> _ _]|[= _ _ -> -> _ _]];
    [done|].
  destruct (processQueue_turn_spec s) as [|y0 rest Hq Hno|y0 rest Hq _ _];
    simpl; [done| |].
  - rewrite Hq in Hy. destruct Hy as [[->|Hy]%elem_of_cons|Hy]; auto.
    destruct (inv_queue g s Hinv y0) as [(Hk & _) _]; [rewrite Hq; by left|].
    apply has_task_false in Hno. unfold TaskGraph.task_ids in *.
    by rewrite (inv_tasks g s Hinv) in Hno.
  - rewrite Hq in Hy. destruct Hy as [[->|Hy]%elem_of_cons|Hy];
      [right|by left|right]; set_solver.
Qed.


Local Open Scope string_scope.





Local Close Scope string_scope.

End QueueClaims.

(** ** The adaptive controller against the specification *)
Module AdaptiveClaims.
Import AdaptiveConcurrency.
Local Open Scope Q_scope.

Definition default_options : Options :=
  {| opt_minConcurrency := None; opt_maxConcurrency := None;
     opt_targetCpuUtilization := None; opt_targetMemoryUtilization := None;
     opt_checkInterval := None; opt_adjustmentStep := None |}.

(** The two averages [_checkResources] computes for a sample. *)
Definition avgCpu (ac : t) (cpu free : Q) : Q :=
  getAverageMetric (history_cpu (record_sample cpu free ac)).
Definition avgMem (ac : t) (cpu free : Q) : Q :=
  getAverageMetric (history_memory (record_sample cpu free ac)).

(** The two down-pressure conditions of [_checkResources]. *)
Definition cpu_high (ac : t) (avgCpuUsage : Q) : Prop :=
  targetCpuUtilization ac + 10 < avgCpuUsage.
Definition mem_high (ac : t) (avgMemoryUsage : Q) : Prop :=
  targetMemoryUtilization ac + 10 < avgMemoryUsage.

Lemma propose_mem_only ac c m :
  mem_high ac m → ¬ cpu_high ac c →
  propose ac c m == currentConcurrency ac - adjustmentStep ac.
Proof.
  unfold mem_high, cpu_high, propose. intros Hm Hc.
  destruct (Qlt_le_dec (targetCpuUtilization ac + 10) c); [done|].
  destruct (Qlt_le_dec (targetMemoryUtilization ac + 10) m); [|lra].
  destruct (Qlt_le_dec c (targetCpuUtilization ac - 10)); [|reflexivity].
  destruct (Qlt_le_dec m (targetMemoryUtilization ac)); [lra|reflexivity].
Qed.


Lemma propose_both ac c m :
  cpu_high ac c → mem_high ac m →
  propose ac c m == currentConcurrency ac - 2 * adjustmentStep ac.
Proof.
  unfold mem_high, cpu_high, propose. intros Hc Hm.
  destruct (Qlt_le_dec (targetCpuUtilization ac + 10) c); [|lra].
  destruct (Qlt_le_dec (targetMemoryUtilization ac + 10) m); [|lra].
  ring.
Qed.

Lemma propose_cases ac c m :
  propose ac c m == currentConcurrency ac - 2 * adjustmentStep ac ∨
  propose ac c m == currentConcurrency ac - adjustmentStep ac ∨
  propose ac c m == currentConcurrency ac ∨
  propose ac c m == currentConcurrency ac + adjustmentStep ac.
Proof.
  unfold propose.
  destruct (Qlt_le_dec (targetCpuUtilization ac + 10) c);
    destruct (Qlt_le_dec (targetMemoryUtilization ac + 10) m).
  - left. ring.
  - right. left. reflexivity.
  - right. left.
    destruct (Qlt_le_dec c (targetCpuUtilization ac - 10)); [|reflexivity].
    destruct (Qlt_le_dec m (targetMemoryUtilization ac)); [lra|reflexivity].
  - right. right.
    destruct (Qlt_le_dec c (targetCpuUtilization ac - 10)); [|by left].
    destruct (Qlt_le_dec m (targetMemoryUtilization ac)); [by right|by left].
Qed.

Lemma clamp_lower ac x : minConcurrency ac <= clamp ac x.
Proof. unfold clamp. apply Q.le_max_l. Qed.

Lemma clamp_upper ac x :
  minConcurrency ac <= maxConcurrency ac → clamp ac x <= maxConcurrency ac.
Proof.
  intros Hle. unfold clamp. apply Q.max_lub; [done|]. apply Q.le_min_l.
Qed.

(** After a check the recommendation is the clamped proposal, whether or not
    the [!==] test found a change. *)
Lemma checkResources_current ac cpu free :
  currentConcurrency (checkResources (Sampled cpu free) ac)
  == clamp ac (propose ac (avgCpu ac cpu free) (avgMem ac cpu free)).
Proof.
  unfold checkResources, avgCpu, avgMem.
  set (ac1 := record_sample cpu free ac).
  change (propose ac1) with (propose ac). change (clamp ac1) with (clamp ac).
  change (currentConcurrency ac1) with (currentConcurrency ac).
  destruct (Qeq_bool _ (currentConcurrency ac)) eqn:Heq; simpl.
  - apply Qeq_bool_eq in Heq. symmetry. exact Heq.
  - reflexivity.
Qed.

(** C8 (as amended).  In a sampling interval with [avgMem > targetMem + 10]
    the proposal before clamping is [current − step] when
    [avgCpu > targetCpu + 10] does not hold, and [current − 2·step] when it
    does: the two decrements add up.  The recommendation after the check is
    [max(min, min(max, proposal))], which is never below [min] and, when
    [min ≤ max], never above [max]. *)
Theorem checkResources_control_law ac cpu free :
  let c := avgCpu ac cpu free in
  let m := avgMem ac cpu free in
  (mem_high ac m → ¬ cpu_high ac c →
   propose ac c m == currentConcurrency ac - adjustmentStep ac) ∧
  (mem_high ac m → cpu_high ac c →
   propose ac c m == currentConcurrency ac - 2 * adjustmentStep ac) ∧
  currentConcurrency (checkResources (Sampled cpu free) ac)
    == clamp ac (propose ac c m) ∧
  minConcurrency ac <= currentConcurrency (checkResources (Sampled cpu free) ac) ∧
  (minConcurrency ac <= maxConcurrency ac →
   currentConcurrency (checkResources (Sampled cpu free) ac)
     <= maxConcurrency ac).
Proof.
  intros c m. split_and!.
  - apply propose_mem_only.
  - intros Hm Hc. by apply propose_both.
  - apply checkResources_current.
  - rewrite checkResources_current. apply clamp_lower.
  - intros Hle. rewrite checkResources_current. by apply clamp_upper.
Qed.

(** Witness for [checkResources_control_law]: the default controller on a
    host with 8 CPUs, first sample CPU 95 %, free memory 2 %. *)
Lemma checkResources_control_law_witness :
  let ac := constructor default_options 8 in
  mem_high ac (avgMem ac 95 2) ∧ cpu_high ac (avgCpu ac 95 2) ∧
  minConcurrency ac <= maxConcurrency ac ∧
  propose ac (avgCpu ac 95 2) (avgMem ac 95 2)
    == currentConcurrency ac - 2 * adjustmentStep ac ∧
  currentConcurrency (checkResources (Sampled 95 2) ac) <= maxConcurrency ac.
Proof.
  set (ac := constructor default_options 8).
  assert (mem_high ac (avgMem ac 95 2)) as Hm by (vm_compute; reflexivity).
  assert (cpu_high ac (avgCpu ac 95 2)) as Hc by (vm_compute; reflexivity).
  assert (minConcurrency ac <= maxConcurrency ac) as Hle
    by (vm_compute; discriminate).
  split_and!; [exact Hm|exact Hc|exact Hle| |].
  - exact (proj1 (proj2 (checkResources_control_law ac 95 2)) Hm Hc).
  - exact (proj2 (proj2 (proj2 (proj2 (checkResources_control_law ac 95 2))))
             Hle).
Defined.

(** C8 (as stated) fails.  Default controller, 8 CPUs, first sample CPU 95 %
    and free memory 2 %: both averages are above their target by more than
    10, and the proposal is 8 − 2·1 = 6, not 8 − 1 = 7; the controller moves
    to 6.  And with [minConcurrency] 10 above [maxConcurrency] 4 the
    recommendation is 10, outside [min, max]. *)
Lemma both_pressures_two_steps :
  let ac := constructor default_options 8 in
  let c := avgCpu ac 95 2 in
  let m := avgMem ac 95 2 in
  mem_high ac m ∧ cpu_high ac c ∧
  currentConcurrency ac - adjustmentStep ac == 7 ∧
  propose ac c m == 6 ∧
  ¬ propose ac c m == currentConcurrency ac - adjustmentStep ac ∧
  currentConcurrency (checkResources (Sampled 95 2) ac) == 6 ∧
  let ac' :=
    constructor {| opt_minConcurrency := Some 10; opt_maxConcurrency := Some 4;
                   opt_targetCpuUtilization := None;
                   opt_targetMemoryUtilization := None;
                   opt_checkInterval := None; opt_adjustmentStep := None |} 8 in
  currentConcurrency (checkResources (Sampled 95 2) ac') == 10 ∧
  ¬ currentConcurrency (checkResources (Sampled 95 2) ac') <= maxConcurrency ac'.
Proof.
  cbv zeta. split_and!; try (vm_compute; reflexivity).
  - vm_compute. discriminate.
  - vm_compute. intros H. by apply H.
Qed.






End AdaptiveClaims.

(** ** More of the task graph *)
Module GraphExtras.
Import TaskGraph GraphFacts.

(** *** What [wouldCreateCycle] decides *)

Lemma wouldCreateCycle_loop_sound g from root fuel stack V :
  (∀ n, n ∈ stack → rtc (edge g) root n) →
  wouldCreateCycle_loop fuel g from stack V = Some true →
  rtc (edge g) root from.
Proof.
  revert stack V. induction fuel as [|fuel IH]; intros stack V Hstack; [done|].
  destruct stack as [|cur stack]; [done|].
  rewrite wouldCreateCycle_loop_cons.
  case_bool_decide as Hcur.
  { intros _. subst cur. apply Hstack. by left. }
  case_bool_decide; apply IH.
  - intros n Hn. apply Hstack. by right.
  - intros n. rewrite foldl_push, elem_of_app, elem_of_reverse.
    intros [Hn|Hn].
    + eapply rtc_r; [apply Hstack; by left|done].
    + apply Hstack. by right.
Qed.

Lemma wouldCreateCycle_loop_complete g from fuel stack (V : gset string) :
  wouldCreateCycle_loop fuel g from stack V = Some false →
  (∀ v, v ∈ V → v ≠ from) →
  (∀ v y, v ∈ V → edge g v y → y ∈ V ∨ y ∈ stack) →
  ∃ V' : gset string,
    V ⊆ V' ∧ (∀ n, n ∈ stack → n ∈ V') ∧ (from ∉ V') ∧
    ∀ v y, v ∈ V' → edge g v y → y ∈ V'.
Proof.
  revert stack V. induction fuel as [|fuel IH]; intros stack V; [done|].
  destruct stack as [|cur stack].
  { intros _ Hfrom Hclosed. exists V. split_and!; [done| | |].
    - by intros n ?%elem_of_nil.
    - intros Hin. by apply (Hfrom from).
    - intros v y Hv Hvy. destruct (Hclosed v y Hv Hvy) as [|?%elem_of_nil];
        done. }
  rewrite wouldCreateCycle_loop_cons.
  case_bool_decide as Hcur; [done|].
  case_bool_decide as Hvis; intros Hloop Hfrom Hclosed.
  - destruct (IH stack V Hloop Hfrom) as (V' & Hsub & Hstack & Hnot & Hcl).
    { intros v y Hv Hvy.
      destruct (Hclosed v y Hv Hvy) as [|[->|]%elem_of_cons]; auto. }
    exists V'. split_and!; try done.
    intros n [->|Hn]%elem_of_cons; [by apply Hsub|by apply Hstack].
  - destruct (IH _ _ Hloop) as (V' & Hsub & Hstack & Hnot & Hcl).
    { intros v [->%elem_of_singleton|Hv]%elem_of_union; [done|by apply Hfrom]. }
    { intros v y Hv Hvy. rewrite foldl_push, elem_of_app, elem_of_reverse.
      apply elem_of_union in Hv as [->%elem_of_singleton|Hv]; [by auto|].
      destruct (Hclosed v y Hv Hvy) as [|[->|]%elem_of_cons];
        [left|left|right; right]; set_solver. }
    exists V'. split_and!; try done; [set_solver|].
    intros n [->|Hn]%elem_of_cons; [set_solver|].
    apply Hstack. rewrite foldl_push, elem_of_app. by right.
Qed.

(** With its own fuel the search is exact. *)
Lemma wouldCreateCycle_rtc g from to :
  wouldCreateCycle g from to = true ↔ rtc (edge g) to from.
Proof.
  destruct (wouldCreateCycle_total g from to) as (b & Hloop & ->).
  split.
  - intros ->. eapply wouldCreateCycle_loop_sound; [|exact Hloop].
    by intros n ->%list_elem_of_singleton.
  - intros Hreach. destruct b; [done|]. exfalso.
    destruct (wouldCreateCycle_loop_complete _ _ _ _ _ Hloop)
      as (V' & _ & Hto & Hnot & Hcl); [set_solver..|].
    apply Hnot.
    assert (∀ n m, rtc (edge g) n m → n ∈ V' → m ∈ V') as Hrtc.
    { induction 1 as [|n k m Hnk _ IH]; [done|]. intros Hn.
      apply IH. by eapply Hcl. }
    apply (Hrtc to from Hreach). apply Hto. by left.
Qed.

(** X1.  [wouldCreateCycle(from, to)] answers whether [from] is [to] itself
    or one of the direct or indirect prerequisites of [to]: it walks the
    prerequisites from [to], not the dependents. *)
Theorem wouldCreateCycle_reaches g from to :
  wouldCreateCycle g from to = true ↔ rtc (edge g) to from.
Proof. apply wouldCreateCycle_rtc. Qed.

(** *** What a returning [addDependency] records *)

Lemma rdeps_of_push_to g depId taskId y tasks' deps' completed' :
  rdeps_of (mk tasks' deps' (push_to (dependents g) depId taskId) completed') y
  = if decide (y = depId ∧ is_Some (dependents g !! y))
    then rdeps_of g y ++ [taskId] else rdeps_of g y.
Proof.
  unfold rdeps_of, push_to; simpl.
  destruct (decide (y = depId)) as [->|Hne].
  - rewrite lookup_alter_eq. destruct (dependents g !! depId) eqn:E; simpl.
    + rewrite decide_True; [done|]. split; [done|by eexists].
    + rewrite decide_False; [done|]. intros [_ [? ?]]; done.
  - rewrite lookup_alter_ne by done.
    rewrite decide_False; [done|]. intros [? _]; done.
Qed.

Lemma known_deps_key g x :
  wf g → x ∈ task_ids g → is_Some (dependencies g !! x).
Proof.
  intros Hwf Hx. apply elem_of_dom. rewrite (wf_dom_deps g Hwf).
  by apply elem_of_list_to_set.
Qed.

Lemma known_rdeps_key g x :
  wf g → x ∈ task_ids g → is_Some (dependents g !! x).
Proof.
  intros Hwf Hx. apply elem_of_dom. rewrite (wf_dom_rdeps g Hwf).
  by apply elem_of_list_to_set.
Qed.

(** The graph with the edge "[taskId] depends on [depId]" appended to both
    maps. *)
Definition with_edge (g : t) (taskId depId : TaskId) : t :=
  {| tasks := tasks g;
     dependencies := push_to (dependencies g) taskId depId;
     dependents := push_to (dependents g) depId taskId;
     completed := completed g |}.

Lemma with_edge_deps g x p a :
  wf g → x ∈ task_ids g →
  deps_of (with_edge g x p) a
  = if decide (a = x) then deps_of g x ++ [p] else deps_of g a.
Proof.
  intros Hwf Hx. unfold with_edge. rewrite deps_of_push_to.
  destruct (decide (a = x)) as [->|Hne].
  - rewrite decide_True; [done|]. split; [done|by apply known_deps_key].
  - rewrite decide_False; [done|]. by intros [? _].
Qed.

Lemma with_edge_rdeps g x p b :
  wf g → p ∈ task_ids g →
  rdeps_of (with_edge g x p) b
  = if decide (b = p) then rdeps_of g p ++ [x] else rdeps_of g b.
Proof.
  intros Hwf Hp. unfold with_edge. rewrite rdeps_of_push_to.
  destruct (decide (b = p)) as [->|Hne].
  - rewrite decide_True; [done|]. split; [done|by apply known_rdeps_key].
  - rewrite decide_False; [done|]. by intros [? _].
Qed.

(** The three ways the body of the loop of [addDependency] ends. *)
Lemma addDependency_step_cases x p g :
  addDependency_step x p g =
  if negb (has_task g p) then (Thrown UnknownTaskError, g)
  else if wouldCreateCycle g p x then (Thrown CycleError, g)
  else (Returned tt, with_edge g x p).
Proof.
  unfold addDependency_step. unfold_M.
  destruct (has_task g p); simpl; [|done].
  destruct (wouldCreateCycle g p x) eqn:Hcyc; [done|].
  rewrite bool_decide_eq_false_2; [done|].
  intros Hdep. apply wouldCreateCycle_recorded in Hdep. congruence.
Qed.

(** X2.  With both tasks registered, [addDependency(x, p)] throws the cycle
    error, changing nothing, exactly when p is x or already a direct or
    indirect prerequisite of x; otherwise it returns and has appended p to
    the prerequisites of x and x to the dependents of p, and nothing
    else. *)
Theorem addDependency_one_edge g x p :
  wf g → x ∈ task_ids g → p ∈ task_ids g →
  (rtc (edge g) x p → addDependency x (One p) g = (Thrown CycleError, g)) ∧
  (¬ rtc (edge g) x p →
   addDependency x (One p) g = (Returned tt, with_edge g x p) ∧
   (∀ a, deps_of (with_edge g x p) a
         = if decide (a = x) then deps_of g x ++ [p] else deps_of g a) ∧
   (∀ b, rdeps_of (with_edge g x p) b
         = if decide (b = p) then rdeps_of g p ++ [x] else rdeps_of g b)).
Proof.
  intros Hwf Hx Hp.
  assert (addDependency x (One p) g =
          if wouldCreateCycle g p x then (Thrown CycleError, g)
          else (Returned tt, with_edge g x p)) as ->.
  { rewrite GraphClaims.addDependency_One, addDependency_step_cases.
    apply has_task_true in Hx, Hp. rewrite Hx, Hp. simpl.
    by destruct (wouldCreateCycle g p x). }
  split.
  - intros Hreach%wouldCreateCycle_rtc. by rewrite Hreach.
  - intros Hreach. destruct (wouldCreateCycle g p x) eqn:Hcyc.
    { by apply wouldCreateCycle_rtc in Hcyc. }
    split_and!; [done| |].
    + intros a. by apply with_edge_deps.
    + intros b. by apply with_edge_rdeps.
Qed.

Local Open Scope string_scope.

Lemma chain_wf : wf Scenario.chain.
Proof. apply reachable_wf, GraphClaims.chain_reachable. Qed.

Lemma chain_c_reaches_a : rtc (edge Scenario.chain) "c" "a".
Proof.
  apply (rtc_l _ _ "b"); [|apply rtc_once];
    unfold edge; apply (bool_decide_unpack _); by vm_compute.
Qed.

Lemma chain_has (x : TaskId) :
  x = "a" ∨ x = "b" ∨ x = "c" → x ∈ task_ids Scenario.chain.
Proof.
  intros [->|[->| ->]]; apply (bool_decide_unpack _); by vm_compute.
Qed.

(** Witness for [addDependency_one_edge]: on the chain, a is a prerequisite
    of a prerequisite of c. *)
Lemma addDependency_one_edge_witness :
  wf Scenario.chain ∧
  "c" ∈ task_ids Scenario.chain ∧ "a" ∈ task_ids Scenario.chain ∧
  rtc (edge Scenario.chain) "c" "a" ∧
  addDependency "c" (One "a") Scenario.chain
  = (Thrown CycleError, Scenario.chain).
Proof.
  assert ("c" ∈ task_ids Scenario.chain) as Hc by (apply chain_has; auto).
  assert ("a" ∈ task_ids Scenario.chain) as Ha by (apply chain_has; auto).
  split_and!; [exact chain_wf|exact Hc|exact Ha|exact chain_c_reaches_a|].
  exact (proj1 (addDependency_one_edge Scenario.chain "c" "a" chain_wf Hc Ha)
           chain_c_reaches_a).
Defined.

Local Close Scope string_scope.

(** *** The two adjacency maps *)

(** What the arrays of [dependencies] and [dependents] satisfy in a graph
    built through the API. *)
Record tidy (g : t) : Prop := {
  tidy_inverse : ∀ x y, y ∈ deps_of g x ↔ x ∈ rdeps_of g y;
  tidy_deps_nodup : ∀ x, NoDup (deps_of g x);
  tidy_rdeps_nodup : ∀ y, NoDup (rdeps_of g y);
  tidy_irreflexive : ∀ x, x ∉ deps_of g x
}.

Lemma unknown_deps g x : wf g → x ∉ task_ids g → deps_of g x = [].
Proof.
  intros Hwf Hx. unfold deps_of.
  destruct (dependencies g !! x) as [ds|] eqn:Hds; [|done].
  destruct Hx.
  assert (x ∈ dom (dependencies g)) as Hdom by (apply elem_of_dom; eauto).
  rewrite (wf_dom_deps g Hwf) in Hdom. by apply elem_of_list_to_set in Hdom.
Qed.

Lemma unknown_rdeps g x : wf g → x ∉ task_ids g → rdeps_of g x = [].
Proof.
  intros Hwf Hx. unfold rdeps_of.
  destruct (dependents g !! x) as [ds|] eqn:Hds; [|done].
  destruct Hx.
  assert (x ∈ dom (dependents g)) as Hdom by (apply elem_of_dom; eauto).
  rewrite (wf_dom_rdeps g Hwf) in Hdom. by apply elem_of_list_to_set in Hdom.
Qed.

Lemma empty_tidy : tidy empty.
Proof.
  split; unfold deps_of, rdeps_of; simpl; intros; rewrite ?lookup_empty;
    simpl; try constructor; set_solver.
Qed.

Lemma addTask_tidy taskId task g o g' :
  wf g → tidy g → addTask taskId task g = (o, g') → tidy g'.
Proof.
  intros Hwf Htidy. unfold addTask. unfold_M.
  destruct (has_task g taskId) eqn:Hhas; intros [= <- <-]; [done|].
  apply has_task_false in Hhas.
  pose proof (unknown_deps g taskId Hwf Hhas) as Hd.
  pose proof (unknown_rdeps g taskId Hwf Hhas) as Hr.
  assert (∀ x, deps_of {| tasks := tasks g ++ [(taskId, task)];
                          dependencies := <[taskId:=[]]> (dependencies g);
                          dependents := <[taskId:=[]]> (dependents g);
                          completed := completed g |} x = deps_of g x) as Hdeps.
  { intros x. unfold deps_of in *. simpl.
    destruct (decide (x = taskId)) as [->|Hne].
    - by rewrite lookup_insert_eq, Hd.
    - by rewrite lookup_insert_ne. }
  assert (∀ x, rdeps_of {| tasks := tasks g ++ [(taskId, task)];
                           dependencies := <[taskId:=[]]> (dependencies g);
                           dependents := <[taskId:=[]]> (dependents g);
                           completed := completed g |} x = rdeps_of g x)
    as Hrdeps.
  { intros x. unfold rdeps_of in *. simpl.
    destruct (decide (x = taskId)) as [->|Hne].
    - by rewrite lookup_insert_eq, Hr.
    - by rewrite lookup_insert_ne. }
  destruct Htidy. split; intros; rewrite ?Hdeps, ?Hrdeps; auto.
Qed.

Lemma with_edge_tidy g x p :
  wf g → tidy g → x ∈ task_ids g → p ∈ task_ids g →
  wouldCreateCycle g p x = false →
  tidy (with_edge g x p).
Proof.
  intros Hwf [Hinv Hnd Hrnd Hirr] Hx Hp Hcyc.
  assert (p ∉ deps_of g x) as Hnew.
  { intros Hdep%wouldCreateCycle_recorded. congruence. }
  assert (p ≠ x) as Hne.
  { intros ->. assert (wouldCreateCycle g x x = true); [|congruence].
    by apply wouldCreateCycle_rtc. }
  split.
  - intros a b. rewrite with_edge_deps, with_edge_rdeps by done.
    repeat case_decide; subst;
      rewrite ?elem_of_app, ?list_elem_of_singleton, ?Hinv; naive_solver.
  - intros a. rewrite with_edge_deps by done. case_decide; [|done].
    apply NoDup_app. split; [done|]. split; [|apply NoDup_singleton].
    by intros y Hy ->%list_elem_of_singleton.
  - intros b. rewrite with_edge_rdeps by done. case_decide; [|done].
    apply NoDup_app. split; [done|]. split; [|apply NoDup_singleton].
    intros y Hy ->%list_elem_of_singleton. by apply Hinv in Hy.
  - intros a. rewrite with_edge_deps by done. case_decide; [|done].
    subst a. rewrite elem_of_app, list_elem_of_singleton.
    intros [?|?]; [by apply (Hirr x)|done].
Qed.

Lemma addDependency_step_tidy x p g o g' :
  wf g → tidy g → x ∈ task_ids g →
  addDependency_step x p g = (o, g') → tidy g'.
Proof.
  intros Hwf Htidy Hx. rewrite addDependency_step_cases.
  destruct (has_task g p) eqn:Hp; simpl; [|by intros [= <- <-]].
  destruct (wouldCreateCycle g p x) eqn:Hcyc; intros [= <- <-]; [done|].
  apply with_edge_tidy; try done. by apply has_task_true.
Qed.

Lemma addDependency_loop_tidy x ps g o g' :
  wf g → tidy g → x ∈ task_ids g →
  addDependency_loop x ps g = (o, g') → tidy g'.
Proof.
  revert g. induction ps as [|p ps IH]; intros g Hwf Htidy Hx; simpl.
  - unfold_M. by intros [= <- <-].
  - unfold mbind, M_bind.
    destruct (addDependency_step x p g) as [[[]|e] g1] eqn:Hstep.
    + apply IH.
      * by eapply addDependency_step_wf.
      * by eapply addDependency_step_tidy.
      * unfold task_ids in *.
        by rewrite (GraphClaims.addDependency_step_tasks _ _ _ _ _ Hstep).
    + intros [= <- <-]. by eapply addDependency_step_tidy.
Qed.

Lemma call_tidy c g o g' : wf g → tidy g → call c g = (o, g') → tidy g'.
Proof.
  intros Hwf Htidy. destruct c as [taskId task|taskId dependsOn|taskId]; simpl.
  - by apply addTask_tidy.
  - unfold addDependency. unfold mbind at 1, M_bind at 1, get.
    destruct (has_task g taskId) eqn:Hx; simpl.
    + apply addDependency_loop_tidy; try done. by apply has_task_true.
    + unfold throw. by intros [= <- <-].
  - unfold markCompleted. unfold_M.
    destruct (has_task g taskId); simpl; intros [= <- <-]; [|done].
    by destruct Htidy.
Qed.

Lemma reachable_tidy g : reachable g → tidy g.
Proof.
  induction 1 as [|g c g' Hg IH Hcall]; [apply empty_tidy|].
  eapply call_tidy; [by apply reachable_wf| |]; done.
Qed.

(** X3.  In every graph built by calls that returned, [dependencies] and
    [dependents] are inverse to each other: y is listed as a prerequisite of
    x exactly when x is listed as a dependent of y. *)
Theorem dependents_inverse g x y :
  reachable g → y ∈ deps_of g x ↔ x ∈ rdeps_of g y.
Proof. intros Hg. apply (tidy_inverse g (reachable_tidy g Hg)). Qed.

(** X4.  In every graph built by calls that returned, no array of
    prerequisites or of dependents lists an id twice, and no task is listed
    among its own prerequisites. *)
Theorem adjacency_no_duplicates g x :
  reachable g →
  NoDup (deps_of g x) ∧ NoDup (rdeps_of g x) ∧ x ∉ deps_of g x.
Proof.
  intros Hg. destruct (reachable_tidy g Hg). by split_and!.
Qed.

Local Open Scope string_scope.

(** Witness for [dependents_inverse]: a and b on the chain. *)
Lemma dependents_inverse_witness :
  reachable Scenario.chain ∧
  ("a" ∈ deps_of Scenario.chain "b" ↔ "b" ∈ rdeps_of Scenario.chain "a").
Proof.
  split; [exact GraphClaims.chain_reachable|].
  exact (dependents_inverse Scenario.chain "b" "a" GraphClaims.chain_reachable).
Defined.

(** Witness for [adjacency_no_duplicates]: b on the chain. *)
Lemma adjacency_no_duplicates_witness :
  reachable Scenario.chain ∧
  NoDup (deps_of Scenario.chain "b") ∧ NoDup (rdeps_of Scenario.chain "b") ∧
  "b" ∉ deps_of Scenario.chain "b".
Proof.
  split; [exact GraphClaims.chain_reachable|].
  exact (adjacency_no_duplicates Scenario.chain "b" GraphClaims.chain_reachable).
Defined.

Local Close Scope string_scope.

(** *** [getTopologicalOrder] on any graph *)

Lemma getTopologicalOrder_returned g fuel order :
  wf g →
  getTopologicalOrder fuel g = Some (Returned order) →
  order ≡ₚ task_ids g ∧ ∀ x y, y ∈ deps_of g x → precedes x y order.
Proof.
  intros Hwf. unfold getTopologicalOrder.
  set (body := λ (taskId : TaskId) (m : Marks),
         if negb (bool_decide (taskId ∈ visited m))
         then visit fuel g taskId m else Some (Returned m)).
  set (m0 := {| visited := ∅; temp := ∅; order := [] |}).
  assert (marks_ok g m0) as Hok0.
  { split; simpl; [set_solver|constructor|set_solver..|done]. }
  destruct (for_each body (task_ids g) m0) as [[m|e]|] eqn:Hrun; [|done..].
  intros [= <-].
  destruct (for_each_post g Hwf body (task_ids g) m0 m) as [(Hok & _) Hall];
    [|done..|].
  { intros x n n' _ Hx Hn. unfold body. case_bool_decide as Hvis; simpl.
    - intros [= <-]. by split_and!.
    - by apply visit_post_ok. }
  destruct Hok. split.
  - rewrite reverse_Permutation.
    apply NoDup_Permutation; [done|apply (wf_nodup g Hwf)|].
    intros x. rewrite ok_order0. split; [apply ok_known0|apply Hall].
  - intros x y Hxy.
    assert (x ∈ TaskGraph.order m) as Hx.
    { apply ok_order0, Hall. by eapply edge_source_known. }
    apply list_elem_of_lookup in Hx as [i Hi].
    destruct (ok_closed0 i x y Hi Hxy) as (j & Hj & Hy).
    by eapply precedes_reverse.
Qed.

Lemma precedes_acyclic g (l : list TaskId) :
  NoDup l → (∀ x y, edge g x y → precedes x y l) → acyclic g.
Proof.
  intros Hnd Hedge.
  assert (∀ x y, tc (edge g) x y → precedes x y l) as Htc.
  { induction 1 as [x y Hxy|x y z Hxy _ IH]; [by apply Hedge|].
    destruct (Hedge x y Hxy) as (i & j & Hi & Hj & Hij).
    destruct IH as (j' & k & Hj' & Hk & Hjk).
    pose proof (NoDup_lookup l j j' y Hnd Hj Hj') as ->.
    exists i, k. split_and!; [done..|lia]. }
  intros x (i & j & Hi & Hj & Hij)%Htc.
  pose proof (NoDup_lookup l i j x Hnd Hi Hj). lia.
Qed.

(** A loop of calls that each end in a value or the cycle error ends in a
    value or the cycle error. *)
Lemma for_each_total (I : Marks → Prop) body xs m :
  (∀ x m, x ∈ xs → I m →
     ∃ r, body x m = Some r ∧
          match r with Returned m' => I m' | Thrown e => e = CycleError end) →
  I m →
  ∃ r, for_each body xs m = Some r ∧
       match r with Returned m' => I m' | Thrown e => e = CycleError end.
Proof.
  revert m. induction xs as [|x xs IH]; intros m Hbody Hm; simpl.
  - by exists (Returned m).
  - destruct (Hbody x m) as ([m1|e] & -> & Hr); [left|done| |].
    + apply IH; [|done]. intros y n Hy. apply Hbody. by right.
    + by exists (Thrown e).
Qed.

Lemma visit_total g fuel x m :
  wf g → x ∈ task_ids g → marks_ok g m →
  size (dom (dependencies g) ∖ temp m) < fuel →
  ∃ r, visit fuel g x m = Some r ∧
       match r with
       | Returned m' => marks_ok g m' ∧ temp m' = temp m
       | Thrown e => e = CycleError
       end.
Proof.
  intros Hwf. revert x m.
  induction fuel as [|fuel IH]; intros x m Hx Hok Hfuel; [lia|].
  simpl. case_bool_decide as Htemp; [by exists (Thrown CycleError)|].
  case_bool_decide as Hvis; simpl; [by exists (Returned m)|].
  set (m1 := {| visited := visited m; temp := {[x]} ∪ temp m;
                order := TaskGraph.order m |}).
  assert (marks_ok g m1) as Hok1.
  { destruct Hok. split; simpl; try done.
    intros z Hz. specialize (ok_temp0 z Hz). set_solver. }
  destruct (for_each_total (λ n, marks_ok g n ∧ temp n = {[x]} ∪ temp m)
              (visit fuel g) (deps_of g x) m1) as (r & Hloop & Hr);
    [|by split|].
  - intros y n Hy [Hn Htn].
    assert (y ∈ task_ids g) as Hyk by by apply (wf_deps_known g Hwf x).
    destruct (IH y n) as (r & Hv & Hr); [done..| |].
    + rewrite Htn. eapply Nat.lt_le_trans; [|apply Nat.lt_succ_r, Hfuel].
      assert (x ∈ dom (dependencies g)) as Hxd.
      { rewrite (wf_dom_deps g Hwf). by apply elem_of_list_to_set. }
      apply subset_size. split; [set_solver|].
      intros Hsub. specialize (Hsub x). set_solver.
    + exists r. split; [done|]. destruct r as [n'|e]; [|done].
      destruct Hr as [? Ht']. split; [done|congruence].
  - rewrite Hloop. destruct r as [m2|e]; [|by exists (Thrown e)].
    eexists. split; [done|]. cbv beta iota.
    match goal with |- marks_ok g ?m' ∧ _ =>
      destruct (visit_post_ok g Hwf (S fuel) x m m') as [(Hok' & Ht' & _) _];
        [done..| |by split] end.
    simpl. rewrite bool_decide_eq_false_2 by done.
    rewrite bool_decide_eq_false_2 by done. simpl. fold m1. by rewrite Hloop.
Qed.

(** X5.  On a well-formed graph, as every graph built through the API is,
    and with fuel for one nested call per task, [getTopologicalOrder]
    returns an order exactly when the graph is acyclic and throws the cycle
    error exactly when it is not; it ends in nothing else. *)
Theorem getTopologicalOrder_detects_cycles g fuel :
  wf g → length (tasks g) < fuel →
  (acyclic g ∧ ∃ order, getTopologicalOrder fuel g = Some (Returned order)) ∨
  (¬ acyclic g ∧ getTopologicalOrder fuel g = Some (Thrown CycleError)).
Proof.
  intros Hwf Hfuel.
  assert (∃ r, getTopologicalOrder fuel g = Some r ∧
               match r with
               | Returned _ => True
               | Thrown e => e = CycleError
               end) as (r & Hrun & Hr).
  { unfold getTopologicalOrder.
    set (body := λ (taskId : TaskId) (m : Marks),
           if negb (bool_decide (taskId ∈ visited m))
           then visit fuel g taskId m else Some (Returned m)).
    set (m0 := {| visited := ∅; temp := ∅; order := [] |}).
    destruct (for_each_total (λ n, marks_ok g n ∧ temp n = ∅)
                body (task_ids g) m0) as (r & -> & Hr).
    - intros x n Hx [Hn Htn]. unfold body.
      case_bool_decide as Hvis; simpl; [by exists (Returned n)|].
      destruct (visit_total g fuel x n) as (r & Hv & Hr); [done..| |].
      + rewrite Htn, difference_empty_L, (wf_dom_deps g Hwf).
        rewrite size_list_to_set by apply (wf_nodup g Hwf).
        unfold task_ids. by rewrite length_fmap.
      + exists r. split; [done|]. destruct r as [n'|e]; [|done].
        destruct Hr. split; [done|congruence].
    - split; [|done].
      split; simpl; [set_solver|constructor|set_solver..|done].
    - destruct r as [m|e]; [by eexists|]. exists (Thrown e). by subst e. }
  destruct r as [order|e].
  - left. split; [|by eexists].
    destruct (getTopologicalOrder_returned g fuel order Hwf Hrun) as [Hperm Hp].
    apply (precedes_acyclic g order); [|done].
    rewrite Hperm. apply (wf_nodup g Hwf).
  - subst e. right. split; [|done]. intros Hacyc.
    destruct (getTopologicalOrder_acyclic g fuel Hwf Hacyc Hfuel)
      as (order & Hret & _). congruence.
Qed.

Lemma looped_wf : wf GraphClaims.looped.
Proof. apply reachable_wf, GraphClaims.looped_reachable. Qed.

Lemma looped_size : length (tasks GraphClaims.looped) < 4.
Proof. vm_compute. lia. Qed.

(** Witness for [getTopologicalOrder_detects_cycles]: the chain with the
    dependency of a on c. *)
Lemma getTopologicalOrder_detects_cycles_witness :
  wf GraphClaims.looped ∧ length (tasks GraphClaims.looped) < 4 ∧
  ((acyclic GraphClaims.looped ∧
    ∃ order, getTopologicalOrder 4 GraphClaims.looped = Some (Returned order)) ∨
   (¬ acyclic GraphClaims.looped ∧
    getTopologicalOrder 4 GraphClaims.looped = Some (Thrown CycleError))).
Proof.
  split; [exact looped_wf|]. split; [exact looped_size|].
  exact (getTopologicalOrder_detects_cycles GraphClaims.looped 4
           looped_wf looped_size).
Defined.

(** *** Ready tasks and completion *)

Lemma ready_spec g y :
  y ∈ getReadyTasks g ↔
  y ∈ task_ids g ∧ (y ∉ completed g) ∧
  ∀ x, x ∈ deps_of g y → x ∈ completed g.
Proof.
  unfold getReadyTasks. rewrite list_elem_of_filter, Forall_forall.
  naive_solver.
Qed.

(** The last element of a list with a decidable property. *)
Lemma last_such {A} (Q : A → Prop) `{!∀ x, Decision (Q x)} (l : list A) :
  (∃ x, x ∈ l ∧ Q x) →
  ∃ i x, l !! i = Some x ∧ Q x ∧ ∀ j z, i < j → l !! j = Some z → ¬ Q z.
Proof.
  induction l as [|a l IH]; intros (x & Hx & HQ); [by apply elem_of_nil in Hx|].
  destruct (decide (Exists Q l)) as [Hex|Hno].
  - apply Exists_exists in Hex. destruct (IH Hex) as (i & y & Hi & Hy & Hlast).
    exists (S i), y. split_and!; [done..|].
    intros [|j] z Hj; [lia|]. simpl. apply Hlast. lia.
  - assert (Q a) as Ha.
    { apply elem_of_cons in Hx as [->|Hx]; [done|].
      destruct Hno. apply Exists_exists. eauto. }
    exists 0, a. split_and!; [done..|].
    intros [|j] z Hj; [lia|]. simpl. intros Hz HQz.
    apply Hno, Exists_exists. exists z. split; [|done].
    by eapply list_elem_of_lookup_2.
Qed.

(** In an acyclic graph, a set of tasks that leaves some task out leaves
    out one whose prerequisites are all in it. *)
Lemma some_task_ready (C : gset string) g x :
  wf g → acyclic g → x ∈ task_ids g → x ∉ C →
  ∃ z, z ∈ task_ids g ∧ (z ∉ C) ∧ ∀ y, y ∈ deps_of g z → y ∈ C.
Proof.
  intros Hwf Hacyc Hx Hnc.
  destruct (getTopologicalOrder_acyclic g (S (length (tasks g))) Hwf Hacyc)
    as (order & _ & Hperm & Hprec); [lia|].
  assert (NoDup order) as Hnd.
  { rewrite Hperm. apply (wf_nodup g Hwf). }
  destruct (last_such (λ z, z ∉ C) order) as (i & z & Hi & Hz & Hlast).
  { exists x. split; [by rewrite Hperm|done]. }
  exists z. split_and!; [|done|].
  - rewrite <- Hperm. by eapply list_elem_of_lookup_2.
  - intros y Hy. destruct (Hprec z y Hy) as (i' & j & Hi' & Hj & Hlt).
    pose proof (NoDup_lookup order i i' z Hnd Hi Hi') as <-.
    destruct (decide (y ∈ C)) as [|Hyn]; [done|].
    by destruct (Hlast j y Hlt Hj).
Qed.

(** X6.  A well-formed acyclic graph cannot be stuck: as long as some
    registered task is not completed, [getReadyTasks] returns at least one
    task. *)
Theorem getReadyTasks_progress g x :
  wf g → acyclic g → x ∈ task_ids g → x ∉ completed g →
  getReadyTasks g ≠ [].
Proof.
  intros Hwf Hacyc Hx Hnc.
  destruct (some_task_ready (completed g) g x Hwf Hacyc Hx Hnc)
    as (z & Hz & Hzn & Hdeps).
  assert (z ∈ getReadyTasks g) as Hready by (by apply ready_spec).
  intros Hnil. rewrite Hnil in Hready. by apply elem_of_nil in Hready.
Qed.

(** Witness for [getReadyTasks_progress]: the new chain and its task c. *)
Lemma getReadyTasks_progress_witness :
  wf Scenario.chain ∧ acyclic Scenario.chain ∧
  "c"%string ∈ task_ids Scenario.chain ∧
  ("c"%string ∉ completed Scenario.chain) ∧
  getReadyTasks Scenario.chain ≠ [].
Proof.
  assert ("c"%string ∈ task_ids Scenario.chain) as Hc
    by (apply chain_has; auto).
  assert ("c"%string ∉ completed Scenario.chain) as Hn.
  { apply (bool_decide_unpack _). by vm_compute. }
  split_and!; [exact chain_wf|exact GraphClaims.chain_acyclic|exact Hc|
               exact Hn|].
  exact (getReadyTasks_progress Scenario.chain "c" chain_wf
           GraphClaims.chain_acyclic Hc Hn).
Defined.

(** X7.  On a well-formed graph, as every graph built through the API is,
    the size test of [isComplete] holds exactly when every registered task
    is in the completed set. *)
Theorem isComplete_iff g :
  wf g →
  isComplete g = true ↔ ∀ x, x ∈ task_ids g → x ∈ completed g.
Proof.
  intros Hwf. unfold isComplete. rewrite bool_decide_eq_true.
  assert (size (list_to_set (task_ids g) : gset string) = length (tasks g))
    as Hsize.
  { rewrite size_list_to_set by apply (wf_nodup g Hwf).
    unfold task_ids. by rewrite length_fmap. }
  assert (completed g ⊆ list_to_set (task_ids g)) as Hsub.
  { intros y Hy. by apply elem_of_list_to_set, (wf_completed g Hwf). }
  split.
  - intros Heq x Hx.
    assert (completed g = list_to_set (task_ids g)) as ->.
    { apply set_subseteq_size_eq; [done|]. rewrite Hsize. lia. }
    by apply elem_of_list_to_set.
  - intros Hall.
    assert (completed g = list_to_set (task_ids g)) as ->; [|done].
    apply set_eq. intros y. split; [apply Hsub|].
    intros Hy%elem_of_list_to_set. by apply Hall.
Qed.

(** Witness for [isComplete_iff]: the chain, where nothing is completed. *)
Lemma isComplete_iff_witness :
  wf Scenario.chain ∧
  (isComplete Scenario.chain = true ↔
   ∀ x, x ∈ task_ids Scenario.chain → x ∈ completed Scenario.chain).
Proof.
  split; [exact chain_wf|]. exact (isComplete_iff Scenario.chain chain_wf).
Defined.

(** *** The accessors *)

Lemma tasks_get_known entries taskId :
  taskId ∈ entries.*1 →
  ∃ task, tasks_get entries taskId = Some task ∧ (taskId, task) ∈ entries.
Proof.
  induction entries as [|[key task] rest IH]; simpl;
    [by intros ?%elem_of_nil|].
  case_bool_decide as Hkey.
  - intros _. subst key. exists task. split; [done|]. by left.
  - intros [?|Hin]%elem_of_cons; [done|].
    destruct (IH Hin) as (task' & ? & ?). exists task'.
    split; [done|]. by right.
Qed.

(** X8.  On a well-formed graph, as every graph built through the API is,
    the three accessors throw for an unregistered id and, for a registered
    one, return the stored task and the stored arrays of prerequisites and
    dependents, never [undefined]. *)
Theorem accessors_known g taskId :
  wf g →
  (taskId ∉ task_ids g →
   getTask taskId g = Thrown UnknownTaskError ∧
   getDependencies taskId g = Thrown UnknownTaskError ∧
   getDependents taskId g = Thrown UnknownTaskError) ∧
  (taskId ∈ task_ids g →
   (∃ task, getTask taskId g = Returned (Some task) ∧
            (taskId, task) ∈ tasks g) ∧
   getDependencies taskId g = Returned (Some (deps_of g taskId)) ∧
   getDependents taskId g = Returned (Some (rdeps_of g taskId))).
Proof.
  intros Hwf. unfold getTask, getDependencies, getDependents. split.
  - intros Hx%has_task_false. by rewrite Hx.
  - intros Hx. pose proof Hx as Hhas%has_task_true. rewrite Hhas. simpl.
    destruct (tasks_get_known (tasks g) taskId Hx) as (task & -> & Hin).
    destruct (known_deps_key g taskId Hwf Hx) as [ds Hds].
    destruct (known_rdeps_key g taskId Hwf Hx) as [rs Hrs].
    unfold deps_of, rdeps_of. rewrite Hds, Hrs. simpl.
    split_and!; [by exists task|done..].
Qed.

(** Witness for [accessors_known]: b on the chain. *)
Lemma accessors_known_witness :
  wf Scenario.chain ∧ "b"%string ∈ task_ids Scenario.chain ∧
  getDependencies "b" Scenario.chain
  = Returned (Some (deps_of Scenario.chain "b")).
Proof.
  assert ("b"%string ∈ task_ids Scenario.chain) as Hb
    by (apply chain_has; auto).
  split_and!; [exact chain_wf|exact Hb|].
  exact (proj1 (proj2 (proj2 (accessors_known Scenario.chain "b" chain_wf) Hb))).
Defined.

(** *** Completing and resetting *)

(** X9.  Completing a registered task of a graph built by calls that
    returned unblocks nobody but its dependents: the task itself stops being
    ready, every other ready task stays ready, and a task that becomes ready
    is listed among the dependents of the completed one. *)
Theorem markCompleted_unblocks_dependents g x :
  reachable g → x ∈ task_ids g →
  ∃ g', markCompleted x g = (Returned tt, g') ∧
        (x ∉ getReadyTasks g') ∧
        (∀ y, y ∈ getReadyTasks g → y ≠ x → y ∈ getReadyTasks g') ∧
        (∀ y, y ∈ getReadyTasks g' →
              y ∈ getReadyTasks g ∨ y ∈ rdeps_of g x).
Proof.
  intros Hg Hx. pose proof (reachable_tidy g Hg) as Htidy.
  unfold markCompleted. unfold_M.
  rewrite (proj2 (has_task_true g x) Hx). simpl. eexists. split; [done|].
  split_and!.
  - rewrite ready_spec. simpl. intros (_ & Hn & _). set_solver.
  - intros y. rewrite !ready_spec. simpl. intros (Hy & Hn & Hdeps) Hne.
    split_and!; [done|set_solver|]. intros z Hz. set_solver.
  - intros y. rewrite !ready_spec. simpl. intros (Hy & Hn & Hdeps).
    destruct (decide (x ∈ deps_of g y)) as [Hin|Hnot].
    + right. by apply (tidy_inverse g Htidy).
    + left. split_and!; [done|set_solver|].
      intros z Hz. specialize (Hdeps z Hz).
      apply elem_of_union in Hdeps as [->%elem_of_singleton|]; done.
Qed.

(** Witness for [markCompleted_unblocks_dependents]: completing a on the
    chain. *)
Lemma markCompleted_unblocks_dependents_witness :
  reachable Scenario.chain ∧ "a"%string ∈ task_ids Scenario.chain ∧
  ∃ g', markCompleted "a" Scenario.chain = (Returned tt, g') ∧
        ("a"%string ∉ getReadyTasks g') ∧
        (∀ y, y ∈ getReadyTasks Scenario.chain → y ≠ "a"%string →
              y ∈ getReadyTasks g') ∧
        (∀ y, y ∈ getReadyTasks g' →
              y ∈ getReadyTasks Scenario.chain ∨
              y ∈ rdeps_of Scenario.chain "a").
Proof.
  assert ("a"%string ∈ task_ids Scenario.chain) as Ha
    by (apply chain_has; auto).
  split_and!; [exact GraphClaims.chain_reachable|exact Ha|].
  exact (markCompleted_unblocks_dependents Scenario.chain "a"
           GraphClaims.chain_reachable Ha).
Defined.

(** X10.  [reset()] makes a graph ready to be run again: the ready tasks are
    then the tasks without prerequisites, and the graph is complete only if
    it has no task. *)
Theorem reset_replays g :
  (∀ y, y ∈ getReadyTasks (reset g) ↔ y ∈ task_ids g ∧ deps_of g y = []) ∧
  (isComplete (reset g) = true ↔ tasks g = []).
Proof.
  split.
  - intros y. rewrite ready_spec. simpl.
    change (deps_of (reset g) y) with (deps_of g y). split.
    + intros (Hy & _ & Hdeps). split; [done|].
      destruct (deps_of g y) as [|z ds]; [done|].
      specialize (Hdeps z ltac:(by left)). set_solver.
    + intros [Hy ->]. split_and!; [done|set_solver|].
      by intros x ?%elem_of_nil.
  - unfold isComplete. rewrite bool_decide_eq_true. simpl.
    change (size (∅ : gset string)) with 0. split.
    + intros Hlen. by destruct (tasks g).
    + by intros ->.
Qed.

End GraphExtras.

(** ** More of the queue manager *)
Module QueueExtras.
Import QueueManager QueueFacts GraphFacts.

(** *** The turns of [_processQueue], case by case *)

(** The test of the [while] of [_processQueue]. *)
Definition dispatchable (s : t) : Prop :=
  queue s ≠ [] ∧ number_lt (of_nat (size (running s))) (concurrency s) = true.

(** The manager after the head [y] of the queue has been started. *)
Definition dispatch (y : TaskId) (rest : list TaskId) (s : t) : t :=
  set_running ({[y]} ∪ running s) (emit (TaskStart y) (set_queue rest s)).

Lemma turn_cases g s :
  inv g s →
  (processQueue_turn s = (s, false) ∧ ¬ dispatchable s) ∨
  (∃ y rest, queue s = y :: rest ∧ dispatchable s ∧
             processQueue_turn s = (dispatch y rest s, true)).
Proof.
  intros Hinv. unfold processQueue_turn, dispatchable.
  destruct (queue s) as [|y rest] eqn:Hq; [left; split; [done|]; by intros []|].
  destruct (number_lt _ _) eqn:Hlt; [|left; split; [done|]; by intros []].
  right. exists y, rest. split; [done|]. split; [done|].
  unfold executeTask. simpl.
  assert (TaskGraph.has_task (taskGraph s) y = true) as ->; [|done].
  destruct (inv_queue g s Hinv y) as [(Hk & _) _]; [rewrite Hq; by left|].
  apply has_task_true. unfold TaskGraph.task_ids in *.
  by rewrite (inv_tasks g s Hinv).
Qed.

Lemma processQueue_cases g s :
  inv g s →
  (processQueue s = s ∧
   (isProcessing s = false ∨ isPaused s = true ∨ ¬ dispatchable s)) ∨
  (∃ y rest, queue s = y :: rest ∧ dispatchable s ∧
             isProcessing s = true ∧ isPaused s = false ∧
             processQueue s = set_loops (S (loops s)) (dispatch y rest s)).
Proof.
  intros Hinv. unfold processQueue.
  destruct (isProcessing s) eqn:Hp; simpl; [|left; auto].
  destruct (isPaused s) eqn:Hs; simpl; [left; auto|].
  destruct (turn_cases g s Hinv) as [[-> Hno]|(y & rest & Hq & Hd & ->)].
  - left. auto.
  - right. exists y, rest. by split_and!.
Qed.

Lemma loopResume_cases g s s' :
  inv g s → loopResume s = Some s' →
  ∃ n, loops s = S n ∧
    ((s' = set_loops n s ∧ ¬ dispatchable s) ∨
     (∃ y rest, queue s = y :: rest ∧ dispatchable s ∧
                s' = dispatch y rest s)).
Proof.
  intros Hinv Hres. unfold loopResume in Hres.
  destruct (loops s) as [|n] eqn:Hl; [done|].
  exists n. split; [done|].
  destruct (turn_cases g s Hinv) as [[Ht Hno]|(y & rest & Hq & Hd & Ht)];
    rewrite Ht in Hres; injection Hres as <-.
  - by left.
  - right. by exists y, rest.
Qed.

(** The runs the examples below are stated on. *)
Local Open Scope string_scope.


Definition finished_chain : t :=
  Scenario.after Scenario.chain_run
    (constructor Scenario.chain Scenario.default_options).

(** The chain after [start()], the end of the first loop and [pause()]. *)
Definition paused_chain : t :=
  Scenario.after [Start; LoopResume; Pause]
    (constructor Scenario.chain Scenario.default_options).

(** The pair under the bound 2, paused right after [start()]. *)
Definition paused_pair : t :=
  Scenario.after [Start; Pause]
    (constructor Scenario.pair Scenario.two_at_once).

(** The pair after [setConcurrency(NaN)]. *)
Definition nan_pair : t :=
  Scenario.after [SetConcurrency (VNumber NaN)]
    (constructor Scenario.pair Scenario.default_options).


Lemma finished_chain_run :
  steps Scenario.chain_run
    (constructor Scenario.chain Scenario.default_options)
  = Some finished_chain.
Proof. by vm_compute. Qed.

Lemma paused_chain_run :
  steps [Start; LoopResume; Pause]
    (constructor Scenario.chain Scenario.default_options)
  = Some paused_chain.
Proof. by vm_compute. Qed.

Lemma paused_pair_run :
  steps [Start; Pause] (constructor Scenario.pair Scenario.two_at_once)
  = Some paused_pair.
Proof. by vm_compute. Qed.

Local Close Scope string_scope.

(** *** The counters and [queue-complete] *)

(** How many events of a kind have been emitted. *)
Definition count (kind : Event → bool) (evs : list Event) : nat :=
  sum_list_with (λ e, if kind e then 1 else 0) evs.

Definition is_complete (e : Event) : bool :=
  match e with TaskComplete _ => true | _ => false end.
Definition is_error (e : Event) : bool :=
  match e with TaskError _ => true | _ => false end.
Definition is_queue_complete (e : Event) : bool :=
  match e with QueueComplete => true | _ => false end.

Lemma count_app kind evs l : count kind (evs ++ l) = count kind evs + count kind l.
Proof. apply sum_list_with_app. Qed.

Lemma count_queue_complete_0 evs :
  QueueComplete ∉ evs → count is_queue_complete evs = 0.
Proof.
  induction evs as [|e evs IH]; [done|]. rewrite not_elem_of_cons.
  intros [Hne Hnot]. unfold count in *. simpl. rewrite IH by done.
  by destruct e.
Qed.

Lemma count_none kind l :
  (∀ e, kind e = true → settling e) → Forall (λ e, ¬ settling e) l →
  count kind l = 0.
Proof.
  intros Hkind Hl. unfold count.
  induction Hl as [|e l He _ IH]; [done|]. simpl. rewrite IH.
  destruct (kind e) eqn:Hk; [|done]. by apply Hkind in Hk.
Qed.

(** What the counters, the completed set and the events of a run on the
    graph [g] have to do with each other. *)
Record ledger (g : TaskGraph.t) (s : t) : Prop := {
  ledger_completed : completed (stats s) = count is_complete (events s);
  ledger_failed : failed (stats s) = count is_error (events s);
  ledger_size :
    size (TaskGraph.completed (taskGraph s))
    = size (TaskGraph.completed g) + completed (stats s);
  ledger_total :
    isProcessing s = true → total (stats s) = length (TaskGraph.tasks g);
  ledger_once : count is_queue_complete (events s) ≤ 1;
  ledger_announced :
    QueueComplete ∈ events s ↔
    (∀ x, x ∈ TaskGraph.task_ids g → x ∈ TaskGraph.completed (taskGraph s)) ∧
    0 < completed (stats s)
}.

(** Steps that leave the graph and the two counters alone and emit nothing
    about a settled task keep the ledger. *)
Lemma ledger_frame g s s' l :
  taskGraph s' = taskGraph s →
  completed (stats s') = completed (stats s) →
  failed (stats s') = failed (stats s) →
  (isProcessing s' = true → total (stats s') = length (TaskGraph.tasks g)) →
  events s' = events s ++ l → Forall (λ e, ¬ settling e) l →
  ledger g s → ledger g s'.
Proof.
  intros Hg Hc Hf Ht He Hl [].
  assert (∀ kind, (∀ e, kind e = true → settling e) →
                  count kind l = 0) as Hzero.
  { intros kind Hkind. by apply count_none. }
  split; rewrite ?Hg, ?Hc, ?Hf, ?He, ?count_app, ?Hzero; try done;
    try (by intros []); try lia.
  rewrite elem_of_app. rewrite <- ledger_announced0. split; [|by left].
  intros [|Hin]; [done|]. exfalso.
  by apply (proj1 (Forall_forall _ _) Hl QueueComplete Hin).
Qed.

Lemma processQueue_flags s :
  isProcessing (processQueue s) = isProcessing s ∧
  isPaused (processQueue s) = isPaused s.
Proof.
  unfold processQueue. destruct (negb (isProcessing s) || isPaused s); [done|].
  unfold processQueue_turn. destruct (queue s); [done|].
  destruct (number_lt _ _); [|done]. unfold executeTask. simpl.
  by destruct (TaskGraph.has_task _ _).
Qed.

Lemma ledger_processQueue g s : ledger g s → ledger g (processQueue s).
Proof.
  intros Hl.
  destruct (QueueClaims.processQueue_frame s) as (Hg & Hst & l & He & Hcase).
  destruct (processQueue_flags s) as [Hp _].
  eapply (ledger_frame g s); [done|by rewrite Hst..| |exact He| |done].
  - rewrite Hp, Hst. apply (ledger_total g s Hl).
  - destruct Hcase as [->|[y ->]]; repeat constructor. by intros [].
Qed.

Lemma ledger_start g s :
  TaskGraph.tasks (taskGraph s) = TaskGraph.tasks g →
  ledger g s → ledger g (start s).
Proof.
  intros Htasks Hl. unfold start. destruct (isProcessing s) eqn:Hp; [done|].
  apply ledger_processQueue.
  eapply (ledger_frame g s _ []); [done..|by intros _; simpl; rewrite Htasks| |
                                     constructor|done].
  simpl. by rewrite app_nil_r.
Qed.

Lemma ledger_step g st s s' :
  wf g → inv g s → ledger g s → step st s = Some s' → ledger g s'.
Proof.
  intros Hwf Hinv Hl. destruct st as [| | |v| |t ok]; simpl.
  - intros [= <-]. apply ledger_start; [apply (inv_tasks g s Hinv)|done].
  - intros [= <-]. eapply (ledger_frame g s _ [Paused]); try done.
    + apply (ledger_total g s Hl).
    + repeat constructor. by intros [].
  - intros [= <-]. unfold resume.
    destruct (negb (isProcessing s) || negb (isPaused s));
      [apply ledger_start; [apply (inv_tasks g s Hinv)|done]|].
    set (s1 := processQueue (set_isPaused false s)).
    assert (ledger g s1) as Hl1.
    { apply ledger_processQueue.
      eapply (ledger_frame g s _ []); try done.
      - apply (ledger_total g s Hl).
      - simpl. by rewrite app_nil_r. }
    eapply (ledger_frame g s1 _ [Resumed]); try done.
    + apply (ledger_total g s1 Hl1).
    + repeat constructor. by intros [].
  - intros [= <-]. unfold setConcurrency. destruct v as [n| | | |]; try done.
    destruct (number_lt n (Num 1)); [done|]. simpl.
    assert (ledger g (emit (ConcurrencyChanged n) (set_concurrency n s)))
      as Hl1.
    { eapply (ledger_frame g s _ [ConcurrencyChanged n]); try done.
      - apply (ledger_total g s Hl).
      - repeat constructor. by intros []. }
    destruct (isProcessing s && negb (isPaused s)); [|done].
    by apply ledger_processQueue.
  - intros Hres.
    destruct (loopResume_cases g s s' Hinv Hres)
      as (n & Hn & [[-> _]|(y & rest & Hq & _ & ->)]).
    + eapply (ledger_frame g s _ []); try done.
      * apply (ledger_total g s Hl).
      * simpl. by rewrite app_nil_r.
    + eapply (ledger_frame g s _ [TaskStart y]); try done.
      * apply (ledger_total g s Hl).
      * repeat constructor. by intros [].
  - unfold settle. case_bool_decide as Ht; [|done]. intros [= <-].
    unfold taskFinally. apply ledger_processQueue.
    pose proof (running_not_complete g s t Hinv Ht) as Hqc.
    destruct (inv_running g s Hinv t Ht) as (Hk & Hnc & _).
    destruct Hl.
    assert (¬ ((∀ x, x ∈ TaskGraph.task_ids g →
                     x ∈ TaskGraph.completed (taskGraph s)) ∧
               0 < completed (stats s))) as Hnotall.
    { by rewrite <- ledger_announced0. }
    destruct ok.
    + unfold taskSucceeded. rewrite (markCompleted_running g s t Hinv Ht).
      set (g' := {| TaskGraph.tasks := TaskGraph.tasks (taskGraph s);
                    TaskGraph.completed := _ |}).
      assert (size (TaskGraph.completed g')
              = size (TaskGraph.completed g) + S (completed (stats s)))
        as Hsize.
      { simpl. rewrite size_union by set_solver.
        rewrite size_singleton, ledger_size0. lia. }
      assert (TaskGraph.isComplete g' = true ↔
              ∀ x, x ∈ TaskGraph.task_ids g → x ∈ TaskGraph.completed g')
        as Hcomplete.
      { split.
        - apply (isComplete_all g Hwf g'); [apply (inv_tasks g s Hinv)|].
          simpl. intros x [->%elem_of_singleton|Hx]%elem_of_union; [done|].
          by apply (inv_known g s Hinv).
        - intros Hall. unfold TaskGraph.isComplete. apply bool_decide_eq_true.
          assert (TaskGraph.completed g'
                  = list_to_set (TaskGraph.task_ids g)) as ->.
          { apply set_eq. intros x. rewrite elem_of_list_to_set.
            split; [|apply Hall]. simpl.
            intros [->%elem_of_singleton|Hx]%elem_of_union; [done|].
            by apply (inv_known g s Hinv). }
          rewrite size_list_to_set by apply (wf_nodup g Hwf).
          simpl. rewrite (inv_tasks g s Hinv).
          unfold TaskGraph.task_ids. by rewrite length_fmap. }
      simpl. destruct (TaskGraph.isComplete g') eqn:Hc; split; simpl;
        rewrite ?count_app, ?ledger_completed0, ?ledger_failed0; simpl;
        try done; try lia.
      * rewrite <- ledger_completed0. exact Hsize.
      * rewrite (count_queue_complete_0 _ Hqc). simpl. lia.
      * split; [intros _|].
        -- split; [by apply Hcomplete|lia].
        -- intros _. rewrite elem_of_app, list_elem_of_singleton. by right.
      * rewrite <- ledger_completed0. exact Hsize.
      * rewrite !elem_of_app, list_elem_of_singleton. split.
        -- by intros [?|[=]].
        -- intros [Hall _]. apply Hcomplete in Hall. congruence.
    + split; simpl; rewrite ?count_app, ?ledger_completed0, ?ledger_failed0;
        simpl; try done; try lia.
      rewrite elem_of_app, list_elem_of_singleton. split.
      * by intros [?|[=]].
      * intros Hall. destruct Hnotall. by rewrite ledger_completed0.
Qed.

Lemma ledger_steps g sts s s' :
  wf g → inv g s → ledger g s → steps sts s = Some s' → ledger g s'.
Proof.
  intros Hwf. revert s. induction sts as [|st sts IH]; intros s Hinv Hl; simpl.
  - by intros [= <-].
  - destruct (step st s) as [s1|] eqn:Hst; [|done].
    apply IH; [by apply (inv_step g Hwf st s)|by apply (ledger_step g st s)].
Qed.

Lemma ledger_constructor g options : ledger g (constructor g options).
Proof.
  unfold constructor.
  match goal with |- context [if _ then start ?s else _] => set (s0 := s) end.
  assert (ledger g s0) as Hl.
  { split; simpl; try done; try lia.
    split; [by intros ?%elem_of_nil|intros [_ ?]; lia]. }
  destruct (opt_autoStart options); [|done]. by apply ledger_start.
Qed.

Lemma run_ledger g options sts s :
  wf g → steps sts (constructor g options) = Some s → ledger g s.
Proof.
  intros Hwf. apply ledger_steps; [done| |apply ledger_constructor].
  by apply inv_constructor.
Qed.

(** *** What [getStats] reports *)



(** *** The graph under the manager *)

(** The manager writes to its graph only through [markCompleted], for a
    task in flight. *)
Lemma step_graph g st s s' :
  inv g s → step st s = Some s' →
  taskGraph s' = taskGraph s ∨
  ∃ t, t ∈ running s ∧
       taskGraph s'
       = {| TaskGraph.tasks := TaskGraph.tasks (taskGraph s);
            TaskGraph.dependencies := TaskGraph.dependencies (taskGraph s);
            TaskGraph.dependents := TaskGraph.dependents (taskGraph s);
            TaskGraph.completed :=
              {[t]} ∪ TaskGraph.completed (taskGraph s) |}.
Proof.
  intros Hinv.
  assert (∀ s, taskGraph (start s) = taskGraph s) as Hstart.
  { intros s1. unfold start. destruct (isProcessing s1); [done|].
    by rewrite (proj1 (QueueClaims.processQueue_frame _)). }
  destruct st as [| | |v| |t ok]; simpl.
  - intros [= <-]. left. apply Hstart.
  - intros [= <-]. by left.
  - intros [= <-]. left. unfold resume.
    destruct (negb (isProcessing s) || negb (isPaused s)); [apply Hstart|].
    simpl. by rewrite (proj1 (QueueClaims.processQueue_frame _)).
  - intros [= <-]. left. unfold setConcurrency.
    destruct v as [n| | | |]; try done.
    destruct (number_lt n (Num 1)); [done|]. simpl.
    destruct (isProcessing s && negb (isPaused s)); [|done].
    by rewrite (proj1 (QueueClaims.processQueue_frame _)).
  - intros Hres. left.
    by destruct (loopResume_cases g s s' Hinv Hres)
      as (n & Hn & [[-> _]|(y & rest & Hq & _ & ->)]).
  - unfold settle. case_bool_decide as Ht; [|done]. intros [= <-].
    unfold taskFinally. rewrite (proj1 (QueueClaims.processQueue_frame _)).
    simpl. destruct ok; [right; exists t; split; [done|]|by left].
    unfold taskSucceeded. rewrite (markCompleted_running g s t Hinv Ht).
    simpl. by destruct (TaskGraph.isComplete _).
Qed.

(** X14.  A run changes nothing of the graph but its completed set, which
    only grows: the tasks, the prerequisites and the dependents of every
    task stay as they were when the manager was made. *)
Theorem run_keeps_graph g options sts s :
  reachable g →
  steps sts (constructor g options) = Some s →
  TaskGraph.tasks (taskGraph s) = TaskGraph.tasks g ∧
  TaskGraph.dependencies (taskGraph s) = TaskGraph.dependencies g ∧
  TaskGraph.dependents (taskGraph s) = TaskGraph.dependents g ∧
  TaskGraph.completed g ⊆ TaskGraph.completed (taskGraph s).
Proof.
  intros Hg%reachable_wf.
  assert (∀ s0, inv g s0 →
            TaskGraph.dependents (taskGraph s0) = TaskGraph.dependents g ∧
            TaskGraph.completed g ⊆ TaskGraph.completed (taskGraph s0) →
            steps sts s0 = Some s →
            TaskGraph.dependents (taskGraph s) = TaskGraph.dependents g ∧
            TaskGraph.completed g ⊆ TaskGraph.completed (taskGraph s))
    as Hsteps.
  { induction sts as [|st sts IH]; intros s0 Hinv Hkept; simpl.
    - by intros [= <-].
    - destruct (step st s0) as [s1|] eqn:Hst; [|done].
      apply IH; [by apply (inv_step g Hg st s0)|].
      destruct (step_graph g st s0 s1 Hinv Hst) as [->|(t & _ & ->)];
        [done|]. simpl. split; [apply Hkept|set_solver]. }
  intros Hrun.
  pose proof (QueueClaims.run_inv g options sts s Hg Hrun) as Hinv.
  split_and!; [apply (inv_tasks g s Hinv)|apply (inv_deps g s Hinv)|..];
    apply (Hsteps (constructor g options));
    try done; try (by apply inv_constructor).
  all: unfold constructor; destruct (opt_autoStart options); simpl;
    try done.
  all: unfold start; simpl;
    by rewrite (proj1 (QueueClaims.processQueue_frame _)).
Qed.

(** Witness for [run_keeps_graph]: the finished run of the chain. *)
Lemma run_keeps_graph_witness :
  reachable Scenario.chain ∧
  steps Scenario.chain_run
    (constructor Scenario.chain Scenario.default_options)
  = Some finished_chain ∧
  TaskGraph.dependents (taskGraph finished_chain)
  = TaskGraph.dependents Scenario.chain.
Proof.
  split_and!; [exact GraphClaims.chain_reachable|exact finished_chain_run|].
  exact (proj1 (proj2 (proj2
           (run_keeps_graph Scenario.chain Scenario.default_options
              Scenario.chain_run finished_chain GraphClaims.chain_reachable
              finished_chain_run)))).
Defined.

(** *** No ready task is forgotten, no free slot is left *)

(** Every ready task is queued or in flight. *)
Definition tracked (g : TaskGraph.t) (s : t) : Prop :=
  ∀ y, ready g (taskGraph s) y → y ∈ queue s ∨ y ∈ running s.

(** When a task could be dispatched, a suspended [_processQueue] is there to
    do it. *)
Definition awake (s : t) : Prop :=
  isProcessing s = true → isPaused s = false → dispatchable s →
  0 < loops s.

Record live (g : TaskGraph.t) (s : t) : Prop := {
  live_tracked : isProcessing s = true → tracked g s;
  live_awake : awake s
}.

Lemma tracked_processQueue g s :
  inv g s → tracked g s → tracked g (processQueue s).
Proof.
  intros Hinv Htr y Hy.
  rewrite (proj1 (QueueClaims.processQueue_frame s)) in Hy.
  by apply (QueueClaims.processQueue_keeps g s y Hinv), Htr.
Qed.

Lemma awake_processQueue g s : inv g s → awake (processQueue s).
Proof.
  intros Hinv.
  destruct (processQueue_cases g s Hinv)
    as [[-> Hcase]|(y & rest & _ & _ & _ & _ & ->)].
  - intros Hp Hps Hd. destruct Hcase as [?|[?|?]]; [congruence..|done].
  - intros _ _ _. simpl. lia.
Qed.

Lemma tracked_updateQueue g s : inv g s → tracked g (updateQueue s).
Proof. intros Hinv y Hy. by apply (updateQueue_ready g s y Hinv). Qed.

Lemma live_processQueue g s :
  inv g s → tracked g s → live g (processQueue s).
Proof.
  intros Hinv Htr. split; [intros _; by apply tracked_processQueue|].
  by apply (awake_processQueue g).
Qed.

Lemma live_start g s : inv g s → live g s → live g (start s).
Proof.
  intros Hinv Hl. unfold start. destruct (isProcessing s); [done|].
  match goal with |- live g (processQueue (updateQueue ?s1)) =>
    assert (inv g s1) as Hinv1 by (by apply (inv_same g s)) end.
  apply live_processQueue; [by apply inv_updateQueue|].
  by apply tracked_updateQueue.
Qed.

(** Fields the two properties read. *)
Lemma live_same g s s' :
  taskGraph s' = taskGraph s → queue s' = queue s → running s' = running s →
  concurrency s' = concurrency s → isProcessing s' = isProcessing s →
  isPaused s' = isPaused s → loops s' = loops s →
  live g s → live g s'.
Proof.
  intros Hg Hq Hr Hc Hp Hps Hl [Htr Haw]. split.
  - unfold tracked. rewrite Hg, Hq, Hr, Hp. exact Htr.
  - unfold awake, dispatchable. rewrite Hq, Hr, Hc, Hp, Hps, Hl. exact Haw.
Qed.

Lemma live_step g st s s' :
  wf g → inv g s → live g s → step st s = Some s' → live g s'.
Proof.
  intros Hwf Hinv Hl. destruct st as [| | |v| |t ok]; simpl.
  - intros [= <-]. by apply live_start.
  - intros [= <-]. split; [apply Hl|]. by intros _ [=].
  - intros [= <-]. unfold resume.
    destruct (isProcessing s) eqn:Hp; simpl; [|by apply live_start].
    destruct (isPaused s) eqn:Hps; simpl; [|by apply live_start].
    assert (inv g (set_isPaused false s)) as Hinv1
      by (by apply (inv_same g s)).
    eapply (live_same g (processQueue (set_isPaused false s))); try done.
    apply live_processQueue; [done|]. by apply Hl.
  - intros [= <-]. unfold setConcurrency. destruct v as [n| | | |]; try done.
    destruct (number_lt n (Num 1)); [done|]. simpl.
    set (s1 := emit (ConcurrencyChanged n) (set_concurrency n s)).
    assert (inv g s1) as Hinv1.
    { apply inv_emit; [right; right; by eexists|]. by apply (inv_same g s). }
    destruct (isProcessing s) eqn:Hp; simpl.
    + destruct (isPaused s) eqn:Hps; simpl.
      * split; [apply Hl|]. intros _ Hps'. simpl in Hps'. congruence.
      * apply live_processQueue; [done|]. by apply Hl.
    + split; [|intros Hp'; simpl in Hp'; congruence].
      intros Hp'. simpl in Hp'. congruence.
  - intros Hres.
    destruct (loopResume_cases g s s' Hinv Hres)
      as (n & Hn & [[-> Hno]|(y & rest & Hq & _ & ->)]).
    + split; [apply Hl|]. by intros _ _ Hd.
    + split; [|intros _ _ _; simpl; lia].
      intros Hp y' Hy'. destruct (live_tracked g s Hl Hp y' Hy') as [Hin|Hin].
      * rewrite Hq in Hin. simpl.
        apply elem_of_cons in Hin as [->|Hin]; [right|by left]. set_solver.
      * right. simpl. set_solver.
  - unfold settle. case_bool_decide as Ht; [|done]. intros [= <-].
    unfold taskFinally.
    match goal with |- live g (processQueue (updateQueue ?s1)) =>
      assert (inv g s1) as Hinv1 end.
    { destruct ok; [by apply inv_taskSucceeded|].
      exact (inv_taskFailed g Hwf s t Hinv Ht). }
    apply live_processQueue; [by apply inv_updateQueue|].
    by apply tracked_updateQueue.
Qed.

Lemma live_steps g sts s s' :
  wf g → inv g s → live g s → steps sts s = Some s' → live g s'.
Proof.
  intros Hwf. revert s. induction sts as [|st sts IH]; intros s Hinv Hl; simpl.
  - by intros [= <-].
  - destruct (step st s) as [s1|] eqn:Hst; [|done].
    apply IH; [by apply (inv_step g Hwf st s)|by apply (live_step g st s)].
Qed.

Lemma run_live g options sts s :
  wf g → steps sts (constructor g options) = Some s → live g s.
Proof.
  intros Hwf. apply live_steps; [done|by apply inv_constructor|].
  unfold constructor.
  match goal with |- context [if _ then start ?s else _] => set (s0 := s) end.
  assert (inv g s0) as Hinv0.
  { pose proof (inv_constructor g Hwf
                  {| opt_concurrency := opt_concurrency options;
                     opt_autoStart := false |}) as H.
    exact H. }
  assert (live g s0) as Hl0 by (split; [by intros [=]|by intros [=]]).
  destruct (opt_autoStart options); [by apply live_start|done].
Qed.







(** *** When nothing is started *)

Definition is_start (e : Event) : bool :=
  match e with TaskStart _ => true | _ => false end.

(** What a settled task leaves of the manager before the [finally]
    block. *)
Lemma settled_frame t (ok : bool) s :
  let s1 := if ok then taskSucceeded t s else taskFailed t s in
  running s1 = running s ∧ queue s1 = queue s ∧
  isProcessing s1 = isProcessing s ∧ isPaused s1 = isPaused s ∧
  loops s1 = loops s ∧ concurrency s1 = concurrency s ∧
  count is_start (events s1) = count is_start (events s).
Proof.
  destruct ok; simpl; unfold taskSucceeded, taskFailed.
  - destruct (TaskGraph.markCompleted t (taskGraph s)) as [[[]|e] g']; simpl.
    + destruct (TaskGraph.isComplete g'); simpl;
        rewrite ?count_app; simpl; split_and!; try done; lia.
    + rewrite count_app. simpl. split_and!; try done; lia.
  - simpl. rewrite count_app. simpl. split_and!; try done; lia.
Qed.

(** A step that ends in a [_processQueue] that does nothing. *)
Lemma idle_step s st s' :
  (∀ s1, isProcessing s1 = isProcessing s → isPaused s1 = isPaused s →
         concurrency s1 = concurrency s → processQueue s1 = s1) →
  (∀ v, st ≠ SetConcurrency v) →
  st ≠ Start → st ≠ Resume → st ≠ LoopResume →
  step st s = Some s' →
  isProcessing s' = isProcessing s ∧
  (isPaused s = true → isPaused s' = true) ∧
  concurrency s' = concurrency s ∧ loops s' = loops s ∧
  running s' ⊆ running s ∧
  count is_start (events s') = count is_start (events s).
Proof.
  intros Hidle Hset. destruct st as [| | |v| |t ok]; simpl; try done.
  - intros _ _ _ [= <-]. simpl. rewrite count_app. simpl.
    split_and!; first [done|lia].
  - by destruct (Hset v).
  - intros _ _ _. unfold settle. case_bool_decide as Ht; [|done].
    intros [= <-]. unfold taskFinally.
    destruct (settled_frame t ok s) as (Hr & Hq & Hp & Hps & Hl & Hc & He).
    rewrite Hidle by (simpl; done). simpl.
    rewrite Hr, Hp, Hps, Hl, Hc, He. split_and!; try done. set_solver.
Qed.

(** The test at the entry of [_processQueue]. *)
Definition guard_closed (s : t) : Prop :=
  isProcessing s = false ∨ isPaused s = true.

Lemma processQueue_closed s : guard_closed s → processQueue s = s.
Proof.
  intros [Hp|Hps]; unfold processQueue; [by rewrite Hp|].
  rewrite Hps. by destruct (isProcessing s).
Qed.

(** X18.  A manager that is paused, or not processing, and has no suspended
    [_processQueue] loop starts nothing: whatever is called but [start()]
    and [resume()], and whichever tasks settle, no [task-start] is emitted
    and no task joins the running set; a paused manager stays paused. *)
Theorem idle_manager_starts_nothing sts s s' :
  guard_closed s → loops s = 0 →
  Forall (λ st, st ≠ Start ∧ st ≠ Resume) sts →
  steps sts s = Some s' →
  guard_closed s' ∧ (isPaused s = true → isPaused s' = true) ∧
  loops s' = 0 ∧ running s' ⊆ running s ∧
  count is_start (events s') = count is_start (events s).
Proof.
  intros Hcl Hl Hsts. revert s Hcl Hl.
  induction Hsts as [|st sts [Hst1 Hst2] _ IH]; intros s Hcl Hl; simpl.
  - by intros [= <-].
  - destruct (step st s) as [s1|] eqn:Hstep; [|done].
    assert (guard_closed s1 ∧ (isPaused s = true → isPaused s1 = true) ∧
            loops s1 = 0 ∧ running s1 ⊆ running s ∧
            count is_start (events s1) = count is_start (events s))
      as (Hcl1 & Hps1 & Hl1 & Hr1 & He1).
    { assert (∀ s2, isProcessing s2 = isProcessing s →
                    isPaused s2 = isPaused s →
                    concurrency s2 = concurrency s → processQueue s2 = s2)
        as Hidle.
      { intros s2 Hp2 Hps2 _. apply processQueue_closed.
        unfold guard_closed. by rewrite Hp2, Hps2. }
      destruct st as [| | |v| |t ok]; try done.
      - simpl in Hstep. injection Hstep as <-. simpl.
        rewrite count_app. simpl.
        split_and!; first [by right|done|lia].
      - simpl in Hstep. injection Hstep as <-. unfold setConcurrency.
        destruct v as [n| | | |]; try done.
        destruct (number_lt n (Num 1)); [done|]. simpl.
        assert (isProcessing s && negb (isPaused s) = false) as ->.
        { destruct Hcl as [-> | ->]; [done|apply andb_false_r]. }
        simpl. rewrite count_app. simpl.
        split_and!; first [done|lia].
      - simpl in Hstep. unfold loopResume in Hstep. by rewrite Hl in Hstep.
      - destruct (idle_step s (Settle t ok) s1)
          as (H0 & H1 & _ & H2 & H3 & H4); try done.
        split_and!; [|done|congruence|done..].
        destruct Hcl as [Hp|Hps]; [left; congruence|right; by apply H1]. }
    intros Hrest.
    destruct (IH s1 Hcl1 Hl1 Hrest) as (? & Hps' & ? & ? & ?).
    split_and!; [done|by intros ?; apply Hps', Hps1|done|set_solver|
                 congruence].
Qed.

(** Witness for [idle_manager_starts_nothing]: the chain is paused while a
    is in flight and the first loop has ended; then a is fulfilled, and b,
    now ready, is queued but not started. *)
Lemma idle_manager_starts_nothing_witness :
  let sts := [Settle "a" true] in
  let s' := Scenario.after sts paused_chain in
  guard_closed paused_chain ∧ loops paused_chain = 0 ∧
  Forall (λ st, st ≠ Start ∧ st ≠ Resume) sts ∧
  steps sts paused_chain = Some s' ∧
  queue s' = ["b"%string] ∧
  count is_start (events s') = count is_start (events paused_chain).
Proof.
  assert (Forall (λ st, st ≠ Start ∧ st ≠ Resume) [Settle "a" true]) as Hsts
    by (repeat constructor; done).
  assert (steps [Settle "a" true] paused_chain
          = Some (Scenario.after [Settle "a" true] paused_chain)) as Hrun
    by (by vm_compute).
  assert (guard_closed paused_chain) as Hcl by (by right).
  split_and!; [exact Hcl|by vm_compute|exact Hsts|exact Hrun|
               by vm_compute|].
  exact (proj2 (proj2 (proj2 (proj2
           (idle_manager_starts_nothing [Settle "a" true] paused_chain _
              Hcl eq_refl Hsts Hrun))))).
Defined.

(** X19.  A [_processQueue] loop that is suspended at its [await] reads
    neither [isPaused] nor [isProcessing] when it is resumed: with a task
    queued and a slot free it starts the task at the head of the queue,
    also after [pause()]. *)
Theorem suspended_loop_ignores_pause g options sts s y rest :
  reachable g →
  steps sts (constructor g options) = Some s →
  0 < loops s → queue s = y :: rest →
  number_lt (of_nat (size (running s))) (concurrency s) = true →
  ∃ s', step LoopResume s = Some s' ∧
        events s' = events s ++ [TaskStart y] ∧
        running s' = {[y]} ∪ running s ∧ queue s' = rest ∧
        isPaused s' = isPaused s ∧ isProcessing s' = isProcessing s.
Proof.
  intros Hg%reachable_wf Hrun Hl Hq Hlt.
  pose proof (QueueClaims.run_inv g options sts s Hg Hrun) as Hinv.
  assert (∃ s1, loopResume s = Some s1) as [s1 Hres].
  { unfold loopResume. destruct (loops s); [lia|].
    destruct (processQueue_turn s). eauto. }
  exists s1. split; [done|].
  destruct (loopResume_cases g s s1 Hinv Hres)
    as (n & Hn & [[_ Hno]|(y' & rest' & Hq' & _ & ->)]).
  - destruct Hno. split; [by rewrite Hq|done].
  - rewrite Hq in Hq'. by injection Hq' as <- <-.
Qed.

(** Witness for [suspended_loop_ignores_pause]: [start()] and then
    [pause()] on the pair under the bound 2; the loop of [start()] starts b
    after the pause. *)
Lemma suspended_loop_ignores_pause_witness :
  reachable Scenario.pair ∧
  steps [Start; Pause] (constructor Scenario.pair Scenario.two_at_once)
  = Some paused_pair ∧
  isPaused paused_pair = true ∧
  0 < loops paused_pair ∧ queue paused_pair = ["b"%string] ∧
  number_lt (of_nat (size (running paused_pair))) (concurrency paused_pair)
  = true ∧
  ∃ s', step LoopResume paused_pair = Some s' ∧
        events s' = events paused_pair ++ [TaskStart "b"%string] ∧
        running s' = {["b"%string]} ∪ running paused_pair ∧ queue s' = [] ∧
        isPaused s' = isPaused paused_pair ∧
        isProcessing s' = isProcessing paused_pair.
Proof.
  assert (0 < loops paused_pair) as Hl by (vm_compute; lia).
  assert (queue paused_pair = ["b"%string]) as Hq by (by vm_compute).
  assert (number_lt (of_nat (size (running paused_pair)))
            (concurrency paused_pair) = true) as Hlt by (by vm_compute).
  split_and!; [exact GraphClaims.pair_reachable|exact paused_pair_run|
               by vm_compute|exact Hl|exact Hq|exact Hlt|].
  exact (suspended_loop_ignores_pause Scenario.pair Scenario.two_at_once
           [Start; Pause] paused_pair "b" [] GraphClaims.pair_reachable
           paused_pair_run Hl Hq Hlt).
Defined.

(** A bound with no slot: [NaN], or a number that is not above 0. *)
Lemma no_slot c n :
  number_lt (Num 0) c = false → number_lt (of_nat n) c = false.
Proof.
  destruct c as [q|]; [|done]. unfold number_lt, of_nat.
  destruct (Qlt_le_dec 0 q) as [|Hle]; [done|]. intros _.
  destruct (Qlt_le_dec _ q) as [Hlt|]; [|done].
  assert (0 <= inject_Z (Z.of_nat n))%Q
    by (rewrite <- (Zle_Qle 0); lia).
  lra.
Qed.

Lemma processQueue_no_slot s :
  number_lt (Num 0) (concurrency s) = false → processQueue s = s.
Proof.
  intros Hc. unfold processQueue, processQueue_turn.
  rewrite (no_slot _ (size (running s)) Hc).
  destruct (negb (isProcessing s) || isPaused s); [done|].
  by destruct (queue s).
Qed.

(** X20.  A bound that is [NaN] or not above 0 stalls the manager.
    [setConcurrency(NaN)] returns and makes [NaN] the bound ([typeof NaN] is
    ['number'] and [NaN < 1] is false); under a bound that is [NaN] or not
    above 0 no task is started, whatever is called and whichever tasks
    settle, until [setConcurrency] is called again. *)
Theorem bound_without_slot_stalls sts s s' :
  number_lt (Num 0) (concurrency s) = false →
  Forall (λ st, ∀ v, st ≠ SetConcurrency v) sts →
  steps sts s = Some s' →
  (setConcurrency (VNumber NaN) s).1 = Returned tt ∧
  concurrency (setConcurrency (VNumber NaN) s).2 = NaN ∧
  concurrency s' = concurrency s ∧ running s' ⊆ running s ∧
  count is_start (events s') = count is_start (events s).
Proof.
  intros Hc Hsts Hrun. split; [done|]. split.
  { unfold setConcurrency. simpl.
    destruct (isProcessing s && negb (isPaused s)); [|done].
    by rewrite QueueClaims.processQueue_concurrency. }
  revert s Hc Hrun.
  induction Hsts as [|st sts Hst _ IH]; intros s Hc; simpl.
  - by intros [= <-].
  - destruct (step st s) as [s1|] eqn:Hstep; [|done].
    assert (concurrency s1 = concurrency s ∧ running s1 ⊆ running s ∧
            count is_start (events s1) = count is_start (events s))
      as (Hc1 & Hr1 & He1).
    { assert (∀ s2, concurrency s2 = concurrency s → processQueue s2 = s2)
        as Hidle.
      { intros s2 Hc2. apply processQueue_no_slot. by rewrite Hc2. }
      assert (∀ s2, concurrency s2 = concurrency s →
                concurrency (start s2) = concurrency s ∧
                running (start s2) = running s2 ∧
                events (start s2) = events s2) as Hstart.
      { intros s2 Hc2. unfold start. destruct (isProcessing s2); [done|].
        by rewrite Hidle. }
      destruct st as [| | |v| |t ok]; simpl in Hstep.
      - injection Hstep as <-. destruct (Hstart s eq_refl) as (-> & -> & ->).
        done.
      - eapply (idle_step s Pause) in Hstep as (_ & _ & ? & _ & ? & ?);
          try done.
        intros s2 _ _ Hc2. by apply Hidle.
      - injection Hstep as <-. unfold resume.
        destruct (negb (isProcessing s) || negb (isPaused s)).
        + by destruct (Hstart s eq_refl) as (-> & -> & ->).
        + rewrite Hidle by done. simpl. rewrite count_app. simpl.
          split_and!; first [done|lia].
      - by destruct (Hst v).
      - unfold loopResume in Hstep. destruct (loops s) as [|n]; [done|].
        unfold processQueue_turn in Hstep.
        rewrite (no_slot _ (size (running s)) Hc) in Hstep.
        destruct (queue s); by injection Hstep as <-.
      - eapply (idle_step s (Settle t ok)) in Hstep
          as (_ & _ & ? & _ & ? & ?); try done.
        intros s2 _ _ Hc2. by apply Hidle. }
    intros Hrest. rewrite <- Hc1 in Hc.
    destruct (IH s1 Hc Hrest) as (? & ? & ?).
    split_and!; [congruence|set_solver|congruence].
Qed.

(** Witness for [bound_without_slot_stalls]: after [setConcurrency(NaN)] on
    the pair, [start()], [pause()] and [resume()] start nothing. *)
Lemma bound_without_slot_stalls_witness :
  let sts := [Start; Pause; Resume] in
  let s' := Scenario.after sts nan_pair in
  number_lt (Num 0) (concurrency nan_pair) = false ∧
  Forall (λ st, ∀ v, st ≠ SetConcurrency v) sts ∧
  steps sts nan_pair = Some s' ∧
  queue s' = ["a"%string; "b"%string] ∧
  count is_start (events s') = count is_start (events nan_pair).
Proof.
  assert (Forall (λ st, ∀ v, st ≠ SetConcurrency v) [Start; Pause; Resume])
    as Hsts by (repeat constructor; done).
  assert (steps [Start; Pause; Resume] nan_pair
          = Some (Scenario.after [Start; Pause; Resume] nan_pair)) as Hrun
    by (by vm_compute).
  split_and!; [by vm_compute|exact Hsts|exact Hrun|by vm_compute|].
  exact (proj2 (proj2 (proj2 (proj2
           (bound_without_slot_stalls [Start; Pause; Resume] nan_pair _
              eq_refl Hsts Hrun))))).
Defined.

(** X21.  The constructor does not validate its bound: every number other
    than 0 and [NaN] becomes the bound as it is, also one below 1, which
    [setConcurrency] rejects. *)
Theorem constructor_takes_any_bound g q autoStart s0 :
  ¬ (q == 0)%Q → (q < 1)%Q →
  concurrency (constructor g {| opt_concurrency := Some (Num q);
                                opt_autoStart := autoStart |}) = Num q ∧
  setConcurrency (VNumber (Num q)) s0 = (Thrown ValidationError, s0).
Proof.
  intros Hq Hlt. split.
  - unfold constructor. simpl.
    assert (Qeq_bool q 0 = false) as ->.
    { apply not_true_is_false. by intros ?%Qeq_bool_iff. }
    destruct autoStart; [|done]. unfold start. simpl.
    by rewrite QueueClaims.processQueue_concurrency.
  - unfold setConcurrency, number_lt.
    destruct (Qlt_le_dec q 1); [done|lra].
Qed.

(** Witness for [constructor_takes_any_bound]: [concurrency: -1]. *)
Lemma constructor_takes_any_bound_witness :
  ¬ (-1 == 0)%Q ∧ (-1 < 1)%Q ∧
  concurrency (constructor Scenario.pair
                 {| opt_concurrency := Some (Num (-1));
                    opt_autoStart := true |}) = Num (-1).
Proof.
  assert (¬ (-1 == 0)%Q) as Hq by done.
  assert (-1 < 1)%Q as Hlt by done.
  split_and!; [exact Hq|exact Hlt|].
  exact (proj1 (constructor_takes_any_bound Scenario.pair (-1) true
                  (constructor Scenario.pair Scenario.default_options)
                  Hq Hlt)).
Defined.

(** *** The monitor's guards *)

(** X22.  Neither concurrency control of the monitor lets
    [setConcurrency] throw.  The socket handler returns for every value and
    changes the manager only for a number that is at least 1; the HTTP
    handler answers 400 exactly for the values [setConcurrency] rejects and
    otherwise leaves the manager as [setConcurrency] does.  The two differ
    on [NaN] only, which the socket handler drops and the HTTP guard lets
    through. *)
Theorem monitor_guards_setConcurrency v s :
  (Monitor.on_set_concurrency v s).1 = Returned tt ∧
  ((Monitor.post_concurrency v s).1 = Returned Monitor.BadRequest ↔
   (setConcurrency v s).1 = Thrown ValidationError) ∧
  ((Monitor.post_concurrency v s).1 ≠ Returned Monitor.BadRequest →
   Monitor.post_concurrency v s
   = (Returned (Monitor.Json v), (setConcurrency v s).2)) ∧
  (v ≠ VNumber NaN →
   (Monitor.on_set_concurrency v s).2 = (Monitor.post_concurrency v s).2) ∧
  (Monitor.on_set_concurrency (VNumber NaN) s).2 = s.
Proof.
  unfold Monitor.on_set_concurrency, Monitor.post_concurrency, setConcurrency.
  destruct v as [[q|]| | | |]; simpl; try (split_and!; done).
  unfold Monitor.number_ge, number_lt.
  destruct (Qlt_le_dec q 1); simpl; split_and!; done.
Qed.

End QueueExtras.

(** ** The manager over its lifetime, and its first run *)
Module LifetimeFacts.
Import Lifetime GraphFacts.

(** *** The manager of a first run *)

Definition run_event (e : Event) : option QueueManager.Event :=
  match e with
  | Emitted e => Some e
  | _ => None
  end.

(** The manager as [QueueManager] has it: the keys of [running], and the
    events other than ['stopped'] and ['reset']. *)
Definition base (s : t) : QueueManager.t :=
  {| QueueManager.taskGraph := taskGraph s;
     QueueManager.concurrency := concurrency s;
     QueueManager.running := dom (running s);
     QueueManager.queue := queue s;
     QueueManager.isProcessing := isProcessing s;
     QueueManager.isPaused := isPaused s;
     QueueManager.stats := stats s;
     QueueManager.loops := loops s;
     QueueManager.events := omap run_event (events s) |}.

(** No [stop()] or [reset()] among the steps: the run is the first one. *)
Definition first_run (sts : list Step) : Prop :=
  Forall (λ st, match st with
                | Stop _ | StopResume _ | Reset => False
                | _ => True
                end) sts.


(** What holds as long as there is no [reset()], on task functions that do
    not throw when called: every pending promise is the one [running] holds
    for its task. *)
Record plain (s : t) : Prop := {
  plain_throwing : throwing s = ∅;
  plain_pending : ∀ p y, pending s !! p = Some y → running s !! y = Some p
}.

(** Nothing of [stop()] or [reset()] has been emitted. *)
Definition unstopped (s : t) : Prop :=
  Forall (λ e, is_Some (run_event e)) (events s).


Lemma base_updateQueue s :
  base (updateQueue s) = QueueManager.updateQueue (base s).
Proof. done. Qed.

Lemma plain_updateQueue s : plain s → plain (updateQueue s).
Proof. by intros []. Qed.

Lemma base_taskFailed y s :
  base (taskFailed y s) = QueueManager.taskFailed y (base s).
Proof.
  unfold base, taskFailed, QueueManager.taskFailed. simpl.
  by rewrite omap_app.
Qed.

Lemma base_taskSucceeded y s :
  base (taskSucceeded y s) = QueueManager.taskSucceeded y (base s).
Proof.
  unfold taskSucceeded, QueueManager.taskSucceeded. simpl.
  destruct (TaskGraph.markCompleted y (taskGraph s)) as [[[]|e] g'].
  - simpl. destruct (TaskGraph.isComplete g');
      unfold base; simpl; by rewrite ?omap_app.
  - apply base_taskFailed.
Qed.

Lemma plain_same s s' :
  throwing s' = throwing s →
  pending s' = pending s → running s' = running s →
  plain s → plain s'.
Proof. intros Ht Hp Hr []. split; by rewrite ?Ht, ?Hp, ?Hr. Qed.

(** On task functions that do not throw, [_executeTask] and the turns of
    [_processQueue] are those of [QueueManager]. *)
Lemma turn_plain fuel g s s' b :
  plain s → QueueFacts.inv g (base s) →
  turn_with (executeTask fuel) s = Some (s', b) →
  QueueManager.processQueue_turn (base s) = (base s', b) ∧ plain s'.
Proof.
  intros Hp Hinv. unfold turn_with, QueueManager.processQueue_turn.
  cbn [base QueueManager.queue QueueManager.running QueueManager.concurrency].
  rewrite size_dom.
  destruct (queue s) as [|y rest] eqn:Hq; [intros [= <- <-]; by split|].
  destruct (number_lt _ _); [|intros [= <- <-]; by split].
  destruct fuel as [|fuel]; [done|]. cbn [executeTask].
  unfold QueueManager.executeTask.
  change (TaskGraph.has_task (taskGraph (set_queue rest s)) y)
    with (TaskGraph.has_task (taskGraph s) y).
  change (TaskGraph.has_task
            (QueueManager.taskGraph (QueueManager.set_queue rest (base s))) y)
    with (TaskGraph.has_task (taskGraph s) y).
  destruct (TaskGraph.has_task (taskGraph s) y);
    [|intros [= <- <-]; split; [done|by apply (plain_same s)]].
  cbn [throwing emit set_promises set_queue].
  rewrite (plain_throwing s Hp).
  rewrite bool_decide_eq_false_2 by set_solver.
  intros [= <- <-]. split.
  - unfold base. simpl. by rewrite dom_insert_L, omap_app.
  - destruct (QueueFacts.inv_queue g (base s) Hinv y) as [_ Hnr].
    { simpl. rewrite Hq. by left. }
    simpl in Hnr. apply not_elem_of_dom in Hnr.
    destruct Hp as [Ht Hpend]. split; simpl; [done|].
    intros p z. destruct (decide (p = promises s)) as [->|Hne].
    + rewrite lookup_insert_eq. intros [= <-]. by rewrite lookup_insert_eq.
    + rewrite lookup_insert_ne by done. intros Hz.
      pose proof (Hpend p z Hz) as Hr.
      rewrite lookup_insert_ne; [done|]. intros <-. congruence.
Qed.

Lemma processQueue_plain fuel g s s' :
  plain s → QueueFacts.inv g (base s) →
  processQueue fuel s = Some s' →
  QueueManager.processQueue (base s) = base s' ∧ plain s'.
Proof.
  intros Hp Hinv. unfold processQueue, processQueue_with.
  unfold QueueManager.processQueue.
  cbn [base QueueManager.isProcessing QueueManager.isPaused].
  destruct (negb (isProcessing s) || isPaused s);
    [intros [= <-]; by split|].
  destruct (turn_with (executeTask fuel) s) as [[s1 b]|] eqn:Hturn; [|done].
  destruct (turn_plain fuel g s s1 b Hp Hinv Hturn) as [-> Hp1].
  intros [= <-]. destruct b; [|done]. split; [done|].
  by apply (plain_same s1).
Qed.

Lemma loopResume_plain fuel g s s' :
  plain s → QueueFacts.inv g (base s) →
  loopResume fuel s = Some s' →
  QueueManager.loopResume (base s) = Some (base s') ∧ plain s'.
Proof.
  intros Hp Hinv. unfold loopResume, QueueManager.loopResume.
  cbn [base QueueManager.loops].
  destruct (loops s) as [|n]; [done|].
  destruct (turn_with (executeTask fuel) s) as [[s1 b]|] eqn:Hturn; [|done].
  change (QueueManager.processQueue_turn _)
    with (QueueManager.processQueue_turn (base s)).
  destruct (turn_plain fuel g s s1 b Hp Hinv Hturn) as [-> Hp1].
  intros [= <-]. destruct b; [done|]. split; [done|].
  by apply (plain_same s1).
Qed.

Lemma start_plain fuel g s s' :
  plain s → QueueFacts.inv g (base s) →
  start fuel s = Some s' →
  QueueManager.start (base s) = base s' ∧ plain s'.
Proof.
  intros Hp Hinv. unfold start, QueueManager.start.
  cbn [base QueueManager.isProcessing].
  destruct (isProcessing s); [intros [= <-]; by split|].
  match goal with |- processQueue fuel (updateQueue ?s1) = _ → _ =>
    set (s0 := s1) end.
  intros Hrun.
  assert (plain s0) as Hp0 by (by apply (plain_same s)).
  assert (QueueFacts.inv g (base s0)) as Hinv0
    by (by apply (QueueFacts.inv_same g (base s))).
  apply (processQueue_plain fuel g (updateQueue s0)) in Hrun;
    [|by apply plain_updateQueue|
      exact (QueueFacts.inv_updateQueue g (base s0) Hinv0)].
  done.
Qed.

Lemma resume_plain fuel g s s' :
  plain s → QueueFacts.inv g (base s) →
  resume fuel s = Some s' →
  QueueManager.resume (base s) = base s' ∧ plain s'.
Proof.
  intros Hp Hinv. unfold resume, QueueManager.resume.
  cbn [base QueueManager.isProcessing QueueManager.isPaused].
  destruct (negb (isProcessing s) || negb (isPaused s));
    [by apply (start_plain fuel g)|].
  destruct (processQueue fuel (set_isPaused false s)) as [s1|] eqn:Hrun;
    [|done].
  apply (processQueue_plain fuel g) in Hrun as [Hb Hp1];
    [|by apply (plain_same s)|by apply (QueueFacts.inv_same g (base s))].
  intros [= <-]. split.
  - change (base (set_isPaused false s))
      with (QueueManager.set_isPaused false (base s)) in Hb.
    rewrite Hb. unfold base. simpl. by rewrite omap_app.
  - by apply (plain_same s1).
Qed.

Lemma setConcurrency_plain fuel g v s r :
  plain s → QueueFacts.inv g (base s) →
  setConcurrency fuel v s = Some r →
  QueueManager.setConcurrency v (base s) = (r.1, base r.2) ∧ plain r.2.
Proof.
  intros Hp Hinv. unfold setConcurrency, QueueManager.setConcurrency.
  destruct v as [n| | | |]; try (intros [= <-]; by split).
  destruct (number_lt n (Num 1)); [intros [= <-]; by split|].
  cbn [base QueueManager.isProcessing QueueManager.isPaused
         QueueManager.emit QueueManager.set_concurrency
         isProcessing isPaused emit set_concurrency].
  set (s1 := emit (Emitted (QueueManager.ConcurrencyChanged n))
               (set_concurrency n s)).
  assert (plain s1) as Hp1.
  { by apply (plain_same s). }
  assert (base s1
          = QueueManager.emit (QueueManager.ConcurrencyChanged n)
              (QueueManager.set_concurrency n (base s))) as Hb1.
  { unfold base. simpl. by rewrite omap_app. }
  assert (QueueFacts.inv g (base s1)) as Hinv1.
  { rewrite Hb1. apply QueueFacts.inv_emit; [right; right; by eexists|].
    by apply (QueueFacts.inv_same g (base s)). }
  fold s1.
  match goal with |- context [QueueManager.processQueue ?x] =>
    replace x with (base s1) by (by rewrite Hb1) end.
  match goal with |- context [(Returned tt, if _ then _ else ?x)] =>
    replace x with (base s1) by (by rewrite Hb1) end.
  destruct (isProcessing s && negb (isPaused s));
    [|intros [= <-]; by split].
  destruct (processQueue fuel s1) as [s2|] eqn:Hrun; [|done].
  apply (processQueue_plain fuel g) in Hrun as [Hb Hp2]; [|done..].
  intros [= <-]. simpl. by rewrite Hb.
Qed.

Lemma settle_plain fuel g p ok s s' :
  wf g → plain s → QueueFacts.inv g (base s) →
  settle fuel p ok s = Some s' →
  ∃ y, pending s !! p = Some y ∧
       QueueManager.settle y ok (base s) = Some (base s') ∧ plain s'.
Proof.
  intros Hwf Hp Hinv. unfold settle.
  destruct (pending s !! p) as [y|] eqn:Hy; [|done]. intros Hrun.
  exists y. split; [done|].
  pose proof (plain_pending s Hp p y Hy) as Hr.
  assert (y ∈ QueueManager.running (base s)) as Hin.
  { simpl. apply elem_of_dom. by eexists. }
  unfold QueueManager.settle. rewrite bool_decide_eq_true_2 by done.
  unfold QueueManager.taskFinally.
  set (s1 := set_pending (delete p (pending s)) s) in Hrun.
  set (s2 := if ok then taskSucceeded y s1 else taskFailed y s1) in Hrun.
  set (s3 := set_running (delete y (running s2)) s2) in Hrun.
  set (b2 := if ok then QueueManager.taskSucceeded y (base s)
             else QueueManager.taskFailed y (base s)).
  assert (base s2 = b2) as Hb2.
  { unfold s2, b2. destruct ok.
    - by rewrite base_taskSucceeded.
    - by rewrite base_taskFailed. }
  assert (base s3
          = QueueManager.set_running (QueueManager.running b2 ∖ {[y]}) b2)
    as Hb3.
  { rewrite <- Hb2. unfold base, s3. simpl. by rewrite dom_delete_L. }
  assert (running s2 = running s ∧ pending s2 = delete p (pending s) ∧
          throwing s2 = throwing s) as (Hr2 & Hp2 & Ht2).
  { unfold s2, taskSucceeded, taskFailed. destruct ok.
    - destruct (TaskGraph.markCompleted y (taskGraph s1)) as [[[]|e] g'].
      + cbn zeta. by destruct (TaskGraph.isComplete _).
      + done.
    - done. }
  assert (plain s3) as Hp3.
  { destruct Hp as [Ht Hpend]. split; unfold s3; simpl.
    - by rewrite Ht2.
    - rewrite Hp2, Hr2. intros q z.
      destruct (decide (q = p)) as [->|Hne];
        [by rewrite lookup_delete_eq|].
      rewrite lookup_delete_ne by done. intros Hz.
      pose proof (Hpend q z Hz) as Hrz.
      rewrite lookup_delete_ne; [done|]. intros <-. congruence. }
  assert (QueueFacts.inv g (base s3)) as Hinv3.
  { rewrite Hb3. unfold b2. destruct ok.
    - by apply QueueFacts.inv_taskSucceeded.
    - exact (QueueFacts.inv_taskFailed g Hwf (base s) y Hinv Hin). }
  apply (processQueue_plain fuel g (updateQueue s3)) in Hrun as [Hb Hp4];
    [|by apply plain_updateQueue|
      exact (QueueFacts.inv_updateQueue g (base s3) Hinv3)].
  split; [|done]. rewrite <- Hb. f_equal.
  change (base (updateQueue s3)) with (QueueManager.updateQueue (base s3)).
  by rewrite Hb3.
Qed.

(** A step of a first run is a step of [QueueManager]. *)
Lemma step_plain fuel g st s s' :
  wf g → plain s → QueueFacts.inv g (base s) →
  first_run [st] → step fuel st s = Some s' →
  (∃ st', QueueManager.step st' (base s) = Some (base s')) ∧ plain s'.
Proof.
  intros Hwf Hp Hinv Hst%Forall_inv.
  destruct st as [| | |w|i| |v| |p ok]; try done; simpl.
  - intros Hrun. destruct (start_plain fuel g s s' Hp Hinv Hrun) as [Hb ?].
    split; [|done]. exists QueueManager.Start. simpl. by rewrite Hb.
  - intros [= <-]. split.
    + exists QueueManager.Pause. simpl. f_equal.
      unfold base, QueueManager.pause. simpl. by rewrite omap_app.
    + by apply (plain_same s).
  - intros Hrun. destruct (resume_plain fuel g s s' Hp Hinv Hrun) as [Hb ?].
    split; [|done]. exists QueueManager.Resume. simpl. by rewrite Hb.
  - destruct (setConcurrency fuel v s) as [r|] eqn:Hrun; [|done].
    intros [= <-].
    destruct (setConcurrency_plain fuel g v s r Hp Hinv Hrun) as [Hb ?].
    split; [|done]. exists (QueueManager.SetConcurrency v). simpl.
    by rewrite Hb.
  - intros Hrun.
    destruct (loopResume_plain fuel g s s' Hp Hinv Hrun) as [Hb ?].
    split; [|done]. by exists QueueManager.LoopResume.
  - intros Hrun.
    destruct (settle_plain fuel g p ok s s' Hwf Hp Hinv Hrun)
      as (y & _ & Hb & ?).
    split; [|done]. by exists (QueueManager.Settle y ok).
Qed.

Lemma steps_snoc sts st s :
  QueueManager.steps (sts ++ [st]) s
  = QueueManager.steps sts s ≫= QueueManager.step st.
Proof.
  revert s. induction sts as [|st0 sts IH]; intros s; simpl.
  - by destruct (QueueManager.step st s).
  - destruct (QueueManager.step st0 s); [apply IH|done].
Qed.

(** A first run on task functions that do not throw is a run of
    [QueueManager]. *)
Lemma run_plain fuel g options sts s :
  wf g → first_run sts →
  run fuel g options ∅ sts = Some s →
  (∃ sts', QueueManager.steps sts' (QueueManager.constructor g options)
           = Some (base s)) ∧
  plain s.
Proof.
  intros Hwf Hsts. unfold run.
  destruct (constructor fuel g options ∅) as [s0|] eqn:Hs0; [|done].
  assert ((∃ sts', QueueManager.steps sts'
                     (QueueManager.constructor g options)
                   = Some (base s0)) ∧ plain s0) as [Hreach Hp0].
  { unfold constructor in Hs0.
    match type of Hs0 with (if _ then start _ ?x else _) = _ =>
      set (s1 := x) in Hs0 end.
    assert (plain s1) as Hp1.
    { by split. }
    assert (base s1 = QueueManager.constructor g
                        {| QueueManager.opt_concurrency :=
                             QueueManager.opt_concurrency options;
                           QueueManager.opt_autoStart := false |}) as Hb1.
    { unfold base, QueueManager.constructor. simpl. by rewrite dom_empty_L. }
    assert (QueueFacts.inv g (base s1)) as Hinv1.
    { rewrite Hb1. by apply QueueFacts.inv_constructor. }
    unfold QueueManager.constructor.
    destruct (QueueManager.opt_autoStart options).
    - destruct (start_plain fuel g s1 s0 Hp1 Hinv1 Hs0) as [Hb ?].
      split; [|done]. exists []. simpl. by rewrite <- Hb, Hb1.
    - injection Hs0 as <-. split; [|done]. exists []. simpl.
      by rewrite Hb1. }
  clear Hs0. revert s0 Hreach Hp0.
  induction Hsts as [|st sts Hst _ IH]; intros s0 Hreach Hp0; simpl.
  - by intros [= <-].
  - destruct (step fuel st s0) as [s1|] eqn:Hstep; [|done].
    destruct Hreach as [sts0 Hreach].
    assert (QueueFacts.inv g (base s0)) as Hinv0
      by (by apply (QueueClaims.run_inv g options sts0)).
    destruct (step_plain fuel g st s0 s1 Hwf Hp0 Hinv0) as [[st' Hst'] Hp1];
      [by constructor|done|].
    apply IH; [|done]. exists (sts0 ++ [st']).
    rewrite steps_snoc, Hreach. done.
Qed.

(** *** Runs without [reset()] *)




(** *** What [_executeTask] and [_processQueue] preserve *)

Section closed.
Variable P : t → Prop.
Hypothesis P_queue : ∀ q s, P s → P (set_queue q s).
Hypothesis P_running : ∀ r s, P s → P (set_running r s).
Hypothesis P_pending : ∀ p s, P s → P (set_pending p s).
Hypothesis P_promises : ∀ n s, P s → P (set_promises n s).
Hypothesis P_loops : ∀ n s, P s → P (set_loops n s).
Hypothesis P_start :
  ∀ y s, P s → P (emit (Emitted (QueueManager.TaskStart y)) s).
Hypothesis P_failed : ∀ y s, P s → P (taskFailed y s).

Lemma turn_with_closed exec s s' b :
  (∀ y s r, P s → exec y s = Some (Some r) → P r) →
  P s → turn_with exec s = Some (s', b) → P s'.
Proof.
  intros Hexec Hs. unfold turn_with.
  destruct (queue s) as [|y rest]; [by intros [= <- <-]|].
  destruct (number_lt _ _); [|by intros [= <- <-]].
  destruct (exec y (set_queue rest s)) as [[r|]|] eqn:Hr; [| |done].
  - intros [= <- <-]. eapply Hexec; [|exact Hr]. by apply P_queue.
  - intros [= <- <-]. by apply P_queue.
Qed.

Lemma processQueue_with_closed exec s s' :
  (∀ y s r, P s → exec y s = Some (Some r) → P r) →
  P s → processQueue_with exec s = Some s' → P s'.
Proof.
  intros Hexec Hs. unfold processQueue_with.
  destruct (negb (isProcessing s) || isPaused s); [by intros [= <-]|].
  destruct (turn_with exec s) as [[s1 b]|] eqn:Hturn; [|done].
  pose proof (turn_with_closed exec s s1 b Hexec Hs Hturn) as Hs1.
  intros [= <-]. destruct b; [by apply P_loops|done].
Qed.

Lemma executeTask_closed fuel y s r :
  P s → executeTask fuel y s = Some (Some r) → P r.
Proof.
  revert y s r. induction fuel as [|fuel IH]; intros y s r Hs; [done|].
  cbn [executeTask].
  destruct (TaskGraph.has_task (taskGraph s) y); [|done].
  case_bool_decide.
  - match goal with |- context [processQueue_with _ ?x] =>
      destruct (processQueue_with (executeTask fuel) x) as [s1|] eqn:Hrun;
      [|done];
      apply (processQueue_with_closed (executeTask fuel) x s1 IH) in Hrun
    end.
    + intros [= <-]. by apply P_running.
    + unfold updateQueue. apply P_queue, P_running, P_failed, P_start.
      by apply P_promises.
  - intros [= <-]. apply P_running, P_pending, P_start. by apply P_promises.
Qed.

Lemma processQueue_keeps_closed fuel s s' :
  P s → processQueue fuel s = Some s' → P s'.
Proof.
  apply processQueue_with_closed. intros y s0 r. apply executeTask_closed.
Qed.

Lemma loopResume_closed fuel s s' :
  P s → loopResume fuel s = Some s' → P s'.
Proof.
  intros Hs. unfold loopResume. destruct (loops s) as [|n]; [done|].
  destruct (turn_with (executeTask fuel) s) as [[s1 b]|] eqn:Hturn; [|done].
  apply turn_with_closed in Hturn;
    [|intros y s0 r; apply executeTask_closed|done].
  intros [= <-]. destruct b; [done|by apply P_loops].
Qed.

End closed.

(** *** The runs of the examples *)

(** A manager to fall back on where a run is impossible. *)
Definition blank : t :=
  {| taskGraph := TaskGraph.empty; concurrency := NaN; running := ∅;
     queue := []; isProcessing := false; isPaused := false;
     stats := {| QueueManager.completed := 0; QueueManager.failed := 0;
                 QueueManager.total := 0 |};
     throwing := ∅; pending := ∅; promises := 0; loops := 0; stops := [];
     events := [] |}.

Definition after (fuel : nat) (g : TaskGraph.t)
    (options : QueueManager.Options) (throwing : gset string)
    (sts : list Step) : t :=
  default blank (run fuel g options throwing sts).

Local Open Scope string_scope.

(** One task, a. *)
Definition single_calls : list TaskGraph.Call :=
  [TaskGraph.AddTask "a" (Scenario.task "a")].
Definition single : TaskGraph.t := Scenario.build single_calls.

(** [concurrency: 1] *)
Definition one_at_once : QueueManager.Options :=
  {| QueueManager.opt_concurrency := Some (Num 1);
     QueueManager.opt_autoStart := false |}.

(** S1: every task of the chain is fulfilled in turn. *)
Definition chain_run : list Step :=
  [Start; Settle 0 true; Settle 1 true; Settle 2 true].


(** S4 with a function for a that is rejected at once, and c fulfilled. *)
Definition failing_a : list Step :=
  [Start; Settle 0 false; LoopResume; Settle 1 true].

Definition fork_failed : t :=
  after 1 Scenario.fork Scenario.default_options ∅ failing_a.

(** [start()], [reset()] and [start()] again while the first a is in
    flight; then both a are fulfilled. *)
Definition restarted : list Step :=
  [Start; Reset; Start; Settle 0 true; Settle 1 true].


Lemma fork_failed_run :
  run 1 Scenario.fork Scenario.default_options ∅ failing_a
  = Some fork_failed.
Proof. by vm_compute. Qed.


Lemma failing_a_first_run : first_run failing_a.
Proof. by repeat constructor. Qed.

Local Close Scope string_scope.

(** *** The counters *)

(** The events of a run emitted since the last ['reset']. *)
Definition since_reset (evs : list Event) : list QueueManager.Event :=
  foldl (λ l e, match e with
                | Emitted e => l ++ [e]
                | Stopped => l
                | ResetEvent => []
                end) [] evs.

Lemma since_reset_snoc evs e :
  since_reset (evs ++ [e])
  = match e with
    | Emitted e => since_reset evs ++ [e]
    | Stopped => since_reset evs
    | ResetEvent => []
    end.
Proof. unfold since_reset. by rewrite foldl_app. Qed.


(** The two counters are the numbers of ['task-complete'] and
    ['task-error'] events since the last ['reset']. *)
Definition counted (s : t) : Prop :=
  QueueManager.completed (stats s)
  = QueueExtras.count QueueExtras.is_complete (since_reset (events s)) ∧
  QueueManager.failed (stats s)
  = QueueExtras.count QueueExtras.is_error (since_reset (events s)).

Lemma count_one kind e :
  QueueExtras.count kind [e] = if kind e then 1 else 0.
Proof. unfold QueueExtras.count. simpl. lia. Qed.

Lemma counted_same s s' :
  QueueManager.completed (stats s') = QueueManager.completed (stats s) →
  QueueManager.failed (stats s') = QueueManager.failed (stats s) →
  events s' = events s →
  counted s → counted s'.
Proof. unfold counted. by intros -> -> ->. Qed.

Lemma counted_emit e s :
  match e with
  | Emitted e => QueueExtras.is_complete e = false ∧
                 QueueExtras.is_error e = false
  | Stopped => True
  | ResetEvent => False
  end →
  counted s → counted (emit e s).
Proof.
  unfold counted. cbn [emit events stats]. rewrite since_reset_snoc.
  destruct e as [e| |]; [|done..]. intros [Hc He] [-> ->].
  rewrite !QueueExtras.count_app, !count_one, Hc, He. lia.
Qed.

Lemma counted_taskFailed y s : counted s → counted (taskFailed y s).
Proof.
  unfold counted, taskFailed. cbn [emit events stats set_stats].
  rewrite since_reset_snoc, !QueueExtras.count_app, !count_one.
  intros [-> ->]. simpl. lia.
Qed.

Lemma counted_taskSucceeded y s : counted s → counted (taskSucceeded y s).
Proof.
  intros Hs. unfold taskSucceeded.
  destruct (TaskGraph.markCompleted y (taskGraph s)) as [[[]|e] g'].
  - cbn zeta.
    match goal with |- counted (if _ then emit _ ?x else _) =>
      assert (counted x) as Hx end.
    { destruct Hs as [Hc Hf]. unfold counted.
      cbn [emit events stats set_stats set_taskGraph].
      rewrite since_reset_snoc, !QueueExtras.count_app, !count_one, Hc, Hf.
      simpl. lia. }
    destruct (TaskGraph.isComplete _); [|done].
    by apply counted_emit.
  - apply counted_taskFailed. by apply (counted_same s).
Qed.

Lemma counted_processQueue fuel s s' :
  counted s → processQueue fuel s = Some s' → counted s'.
Proof.
  apply processQueue_keeps_closed; try (intros ? s0; by apply (counted_same s0)).
  - intros y s0. by apply counted_emit.
  - apply counted_taskFailed.
Qed.

Lemma counted_start fuel s s' :
  counted s → start fuel s = Some s' → counted s'.
Proof.
  intros Hs. unfold start. destruct (isProcessing s); [by intros [= <-]|].
  apply counted_processQueue. by apply (counted_same s).
Qed.

Lemma counted_step fuel st s s' :
  counted s → step fuel st s = Some s' → counted s'.
Proof.
  intros Hs. destruct st as [| | |w|i| |v| |p ok]; simpl.
  - by apply counted_start.
  - intros [= <-]. apply counted_emit; [done|]. by apply (counted_same s).
  - unfold resume.
    destruct (negb (isProcessing s) || negb (isPaused s));
      [by apply counted_start|].
    destruct (processQueue fuel _) as [s1|] eqn:Hrun; [|done].
    intros [= <-]. apply counted_emit; [done|].
    eapply counted_processQueue; [|exact Hrun]. by apply (counted_same s).
  - intros [= <-]. unfold stop.
    destruct (w && _); [by apply (counted_same s)|].
    apply counted_emit; [done|]. by apply (counted_same s).
  - unfold stopResume. destruct (stops s !! i); [|done].
    destruct (forallb _ _); [|done]. intros [= <-].
    apply counted_emit; [done|]. by apply (counted_same s).
  - intros [= <-]. unfold counted, reset.
    cbn [emit events stats set_stats]. by rewrite since_reset_snoc.
  - unfold setConcurrency. destruct v as [n| | | |];
      try (by intros [= <-]).
    destruct (number_lt n (Num 1)); [by intros [= <-]|].
    match goal with |- context [processQueue fuel ?x] =>
      assert (counted x) as Hx
        by (apply counted_emit; [done|]; by apply (counted_same s)) end.
    destruct (_ && _); [|by intros [= <-]].
    destruct (processQueue fuel _) as [s1|] eqn:Hrun; [|done].
    intros [= <-]. simpl. by eapply counted_processQueue.
  - apply loopResume_closed; try (intros ? s0; by apply (counted_same s0)).
    + intros y s0. by apply counted_emit.
    + apply counted_taskFailed.
    + done.
  - unfold settle. destruct (pending s !! p) as [y|]; [|done].
    apply counted_processQueue. unfold updateQueue.
    match goal with |- counted (set_queue _ (set_running _ ?x)) =>
      assert (counted x) as Hx end.
    { destruct ok; [apply counted_taskSucceeded|apply counted_taskFailed];
        by apply (counted_same s). }
    by apply (counted_same _ _ eq_refl eq_refl eq_refl).
Qed.

Lemma counted_run fuel g options throwing sts s :
  run fuel g options throwing sts = Some s → counted s.
Proof.
  unfold run.
  destruct (constructor fuel g options throwing) as [s0|] eqn:Hs0; [|done].
  assert (counted s0) as H0.
  { unfold constructor in Hs0.
    destruct (QueueManager.opt_autoStart options).
    - by eapply counted_start; [|exact Hs0].
    - by injection Hs0 as <-. }
  clear Hs0. revert s0 H0.
  induction sts as [|st sts IH]; intros s0 H0; simpl.
  - by intros [= <-].
  - destruct (step fuel st s0) as [s1|] eqn:Hstep; [|done].
    apply IH. by eapply counted_step.
Qed.

(** *** A first run emits nothing of [stop()] or [reset()] *)

Lemma unstopped_same s s' : events s' = events s → unstopped s → unstopped s'.
Proof. unfold unstopped. by intros ->. Qed.

Lemma unstopped_emit e s : unstopped s → unstopped (emit (Emitted e) s).
Proof.
  unfold unstopped. simpl. intros Hs. apply Forall_app. split; [done|].
  repeat constructor. by eexists.
Qed.

Lemma unstopped_taskFailed y s : unstopped s → unstopped (taskFailed y s).
Proof. intros Hs. apply unstopped_emit. by apply (unstopped_same s). Qed.

Lemma unstopped_taskSucceeded y s :
  unstopped s → unstopped (taskSucceeded y s).
Proof.
  intros Hs. unfold taskSucceeded.
  destruct (TaskGraph.markCompleted y (taskGraph s)) as [[[]|e] g'].
  - cbn zeta.
    match goal with |- unstopped (if _ then emit _ ?x else _) =>
      assert (unstopped x) as Hx
        by (apply unstopped_emit; by apply (unstopped_same s)) end.
    destruct (TaskGraph.isComplete _); [|done]. by apply unstopped_emit.
  - apply unstopped_taskFailed. by apply (unstopped_same s).
Qed.

Lemma unstopped_processQueue fuel s s' :
  unstopped s → processQueue fuel s = Some s' → unstopped s'.
Proof.
  apply processQueue_keeps_closed;
    try (intros ? s0; by apply (unstopped_same s0)).
  - intros y s0. apply unstopped_emit.
  - apply unstopped_taskFailed.
Qed.

Lemma unstopped_start fuel s s' :
  unstopped s → start fuel s = Some s' → unstopped s'.
Proof.
  intros Hs. unfold start. destruct (isProcessing s); [by intros [= <-]|].
  apply unstopped_processQueue. by apply (unstopped_same s).
Qed.

Lemma unstopped_step fuel st s s' :
  first_run [st] → unstopped s → step fuel st s = Some s' → unstopped s'.
Proof.
  intros Hst%Forall_inv Hs.
  destruct st as [| | |w|i| |v| |p ok]; try done; simpl.
  - by apply unstopped_start.
  - intros [= <-]. apply unstopped_emit. by apply (unstopped_same s).
  - unfold resume.
    destruct (negb (isProcessing s) || negb (isPaused s));
      [by apply unstopped_start|].
    destruct (processQueue fuel _) as [s1|] eqn:Hrun; [|done].
    intros [= <-]. apply unstopped_emit.
    eapply unstopped_processQueue; [|exact Hrun].
    by apply (unstopped_same s).
  - unfold setConcurrency. destruct v as [n| | | |];
      try (by intros [= <-]).
    destruct (number_lt n (Num 1)); [by intros [= <-]|].
    match goal with |- context [processQueue fuel ?x] =>
      assert (unstopped x) as Hx
        by (apply unstopped_emit; by apply (unstopped_same s)) end.
    destruct (_ && _); [|by intros [= <-]].
    destruct (processQueue fuel _) as [s1|] eqn:Hrun; [|done].
    intros [= <-]. simpl. by eapply unstopped_processQueue.
  - apply loopResume_closed;
      try (intros ? s0; by apply (unstopped_same s0)).
    + intros y s0. apply unstopped_emit.
    + apply unstopped_taskFailed.
    + done.
  - unfold settle. destruct (pending s !! p) as [y|]; [|done].
    apply unstopped_processQueue. unfold updateQueue.
    match goal with |- unstopped (set_queue _ (set_running _ ?x)) =>
      assert (unstopped x) as Hx end.
    { destruct ok; [apply unstopped_taskSucceeded|apply unstopped_taskFailed];
        by apply (unstopped_same s). }
    by apply (unstopped_same _ _ eq_refl).
Qed.

Lemma unstopped_run fuel g options throwing sts s :
  first_run sts → run fuel g options throwing sts = Some s → unstopped s.
Proof.
  intros Hsts. unfold run.
  destruct (constructor fuel g options throwing) as [s0|] eqn:Hs0; [|done].
  assert (unstopped s0) as H0.
  { unfold constructor in Hs0.
    destruct (QueueManager.opt_autoStart options).
    - eapply unstopped_start; [|exact Hs0]. constructor.
    - injection Hs0 as <-. constructor. }
  clear Hs0. revert s0 H0.
  induction Hsts as [|st sts Hst _ IH]; intros s0 H0; simpl.
  - by intros [= <-].
  - destruct (step fuel st s0) as [s1|] eqn:Hstep; [|done].
    apply IH. eapply unstopped_step; [|done|exact Hstep]. by constructor.
Qed.

(** What a first run gives: the run of [QueueManager] and its
    invariants. *)
Lemma first_run_base fuel g options sts s :
  wf g → first_run sts →
  run fuel g options ∅ sts = Some s →
  (plain s ∧ unstopped s) ∧ QueueFacts.inv g (base s) ∧
  QueueExtras.ledger g (base s) ∧ QueueExtras.live g (base s).
Proof.
  intros Hwf Hsts Hrun.
  destruct (run_plain fuel g options sts s Hwf Hsts Hrun)
    as [[sts' Hbase] Hp].
  pose proof (unstopped_run fuel g options ∅ sts s Hsts Hrun) as Hu.
  split_and!; [done|done|..].
  - by apply (QueueClaims.run_inv g options sts').
  - by apply (QueueExtras.run_ledger g options sts').
  - by apply (QueueExtras.run_live g options sts').
Qed.

(** X11.  At every point in the life of a manager, whatever its task
    functions do and whatever has been called, [stats.completed] is the
    number of ['task-complete'] events and [stats.failed] the number of
    ['task-error'] events emitted since the last ['reset'].  In a first run
    (no [stop()] or [reset()] so far) on a graph built by calls that
    returned, with task functions that do not throw when called, the
    completed set of the graph has grown by exactly [stats.completed] ids
    since the manager was made. *)
Theorem stats_count_events fuel g options throwing sts s :
  run fuel g options throwing sts = Some s →
  QueueManager.completed (stats s)
  = QueueExtras.count QueueExtras.is_complete (since_reset (events s)) ∧
  QueueManager.failed (stats s)
  = QueueExtras.count QueueExtras.is_error (since_reset (events s)) ∧
  (reachable g → throwing = ∅ → first_run sts →
   size (TaskGraph.completed (taskGraph s))
   = size (TaskGraph.completed g) + QueueManager.completed (stats s)).
Proof.
  intros Hrun. destruct (counted_run _ _ _ _ _ _ Hrun) as [Hc Hf].
  split_and!; [done..|]. intros Hg%reachable_wf -> Hsts.
  destruct (first_run_base fuel g options sts s Hg Hsts Hrun)
    as (_ & _ & Hl & _).
  exact (QueueExtras.ledger_size g (base s) Hl).
Qed.

(** Witness for [stats_count_events]: S4 with a failing a and c
    fulfilled. *)
Lemma stats_count_events_witness :
  run 1 Scenario.fork Scenario.default_options ∅ failing_a
  = Some fork_failed ∧
  reachable Scenario.fork ∧ first_run failing_a ∧
  QueueManager.failed (stats fork_failed)
  = QueueExtras.count QueueExtras.is_error
      (since_reset (events fork_failed)) ∧
  size (TaskGraph.completed (taskGraph fork_failed))
  = size (TaskGraph.completed Scenario.fork)
    + QueueManager.completed (stats fork_failed).
Proof.
  split_and!; [exact fork_failed_run|exact GraphClaims.fork_reachable|
               exact failing_a_first_run|..].
  - exact (proj1 (proj2 (stats_count_events 1 Scenario.fork
                           Scenario.default_options ∅ failing_a fork_failed
                           fork_failed_run))).
  - exact (proj2 (proj2 (stats_count_events 1 Scenario.fork
                           Scenario.default_options ∅ failing_a fork_failed
                           fork_failed_run))
             GraphClaims.fork_reachable eq_refl failing_a_first_run).
Defined.

(** In a run after [reset()] the completed set can grow by less than
    [stats.completed], and ['queue-complete'] can be emitted twice with a
    ['task-complete'] between: the promise of a task that was in flight at
    the [reset()] is still settled by the manager. *)
Lemma reset_then_start_completes_twice :
  let s := after 1 single Scenario.default_options ∅ restarted in
  run 1 single Scenario.default_options ∅ restarted = Some s ∧
  events s
  = [Emitted (QueueManager.TaskStart "a"); Stopped; ResetEvent;
     Emitted (QueueManager.TaskStart "a");
     Emitted (QueueManager.TaskComplete "a");
     Emitted QueueManager.QueueComplete;
     Emitted (QueueManager.TaskComplete "a");
     Emitted QueueManager.QueueComplete] ∧
  QueueManager.completed (stats s) = 2 ∧
  QueueManager.total (stats s) = 1 ∧
  size (TaskGraph.completed (taskGraph s)) = 1.
Proof. split_and!; by vm_compute. Qed.






Local Open Scope string_scope.


(** When the function of a task throws as it is called, [_executeTask] sets
    its entry in [running] after the [finally] block has run: the entry
    stays, the task is queued again, and [running] has two keys under a
    bound that has always been 1. *)
Lemma thrown_task_keeps_its_slot :
  let s := after 2 Scenario.pair one_at_once {["a"]} [Start] in
  run 2 Scenario.pair one_at_once {["a"]} [Start] = Some s ∧
  events s
  = [Emitted (QueueManager.TaskStart "a");
     Emitted (QueueManager.TaskError "a");
     Emitted (QueueManager.TaskStart "b")] ∧
  concurrency s = Num 1 ∧
  dom (running s) = {["a"; "b"]} ∧ size (running s) = 2 ∧
  queue s = ["a"] ∧ dom (pending s) = {[1]} ∧
  QueueManager.snap_running (getStats s)
  + QueueManager.snap_queued (getStats s) = 3 ∧
  length (TaskGraph.tasks Scenario.pair) = 2.
Proof. split_and!; by vm_compute. Qed.

Local Close Scope string_scope.

(** *** Prerequisites complete before a task starts, in every run *)

Section order.
Variable g : TaskGraph.t.





















End order.

(** *** The order of the events *)

(** [e] reports that a task has settled or that the queue is complete. *)
Definition settling (e : Event) : Prop :=
  match e with
  | Emitted e => QueueFacts.settling e
  | _ => False
  end.


Local Open Scope string_scope.





Local Close Scope string_scope.

(** *** The concurrency bound *)







(** *** Steps return *)

(** The steps that can happen in [s]: there is a suspended loop or [stop()]
    to resume, a pending promise to settle. *)
Definition enabled (st : Step) (s : t) : Prop :=
  match st with
  | StopResume i =>
      ∃ awaited, stops s !! i = Some awaited ∧
                 Forall (λ promise, promise ∉ dom (pending s)) awaited
  | LoopResume => loops s ≠ 0
  | Settle promise _ => is_Some (pending s !! promise)
  | _ => True
  end.

Lemma turn_returns fuel s :
  throwing s = ∅ → is_Some (turn_with (executeTask (S fuel)) s).
Proof.
  intros Ht. unfold turn_with. destruct (queue s) as [|y rest]; [done|].
  destruct (number_lt _ _); [|done]. simpl.
  destruct (TaskGraph.has_task _ _); [|done]. simpl. rewrite Ht.
  rewrite bool_decide_eq_false_2 by set_solver. done.
Qed.

Lemma processQueue_returns fuel s :
  throwing s = ∅ → is_Some (processQueue (S fuel) s).
Proof.
  intros Ht. unfold processQueue, processQueue_with.
  destruct (negb _ || _); [done|].
  destruct (turn_returns fuel s Ht) as [[s' b] ->]. done.
Qed.

Lemma throwing_taskSucceeded y s : throwing (taskSucceeded y s) = throwing s.
Proof.
  unfold taskSucceeded.
  destruct (TaskGraph.markCompleted y (taskGraph s)) as [[?|?] g']; [|done].
  simpl. by destruct (TaskGraph.isComplete _).
Qed.

(** With task functions that do not throw when called, every step that can
    happen returns, given a call stack for one call of [_executeTask]. *)
Lemma step_returns fuel st s :
  throwing s = ∅ → enabled st s → is_Some (step (S fuel) st s).
Proof.
  intros Ht Hen. destruct st as [| | |w|i| |v| |p ok]; simpl; try done.
  - unfold start. destruct (isProcessing s); [done|].
    by apply processQueue_returns.
  - unfold resume. destruct (negb _ || negb _).
    + unfold start. destruct (isProcessing s); [done|].
      by apply processQueue_returns.
    + destruct (processQueue_returns fuel (set_isPaused false s) Ht)
        as [s' ->]. done.
  - destruct Hen as (awaited & Hst & Hall). unfold stopResume. rewrite Hst.
    assert (forallb (λ promise, negb (bool_decide (promise ∈ dom (pending s))))
              awaited = true) as ->; [|done].
    apply forallb_forall. intros p Hp%list_elem_of_In.
    rewrite Forall_forall in Hall. apply negb_true_iff.
    by apply bool_decide_eq_false_2, Hall.
  - unfold setConcurrency. destruct v as [n| | | |]; try done.
    destruct (number_lt n (Num 1)); [done|].
    cbn [isProcessing isPaused emit set_concurrency].
    destruct (isProcessing s && negb (isPaused s)); [|done].
    destruct (processQueue_returns fuel
                (emit (Emitted (QueueManager.ConcurrencyChanged n))
                   (set_concurrency n s)) Ht) as [s' ->]. done.
  - unfold loopResume. cbn [enabled] in Hen.
    destruct (loops s) as [|n]; [done|].
    destruct (turn_returns fuel s Ht) as [[s' b] ->]. done.
  - destruct Hen as [y Hy]. unfold settle. rewrite Hy.
    apply processQueue_returns. destruct ok; simpl; [|done].
    by rewrite throwing_taskSucceeded.
Qed.



End LifetimeFacts.

(** ** More on the adaptive controller *)
Module AdaptiveExtras.
Import AdaptiveConcurrency AdaptiveClaims.
Local Open Scope Q_scope.

(** *** The history window *)

(** The samples a sequence of calls records: the checks whose two reads
    succeeded, as (CPU usage, free-memory percentage). *)
Definition samples_of (cs : list Call) : list (Q * Q) :=
  omap (λ c, match c with
             | Check (Sampled cpuUsage freeMemPercentage) =>
                 Some (cpuUsage, freeMemPercentage)
             | _ => None
             end) cs.

Lemma calls_snoc cs c ac : calls (cs ++ [c]) ac = call c (calls cs ac).
Proof. unfold calls. by rewrite foldl_app. Qed.

(** Pushing onto the last [n] elements of [l] and shifting gives the last
    [n] elements of the longer list. *)
Lemma addMetric_last (n : nat) (l : list Q) v :
  (0 < n)%nat →
  addMetric v n (drop (length l - n) l)
  = drop (length (l ++ [v]) - n) (l ++ [v]).
Proof.
  intros Hn. unfold addMetric.
  rewrite !length_app, length_drop. simpl.
  destruct (Nat.ltb_spec n (length l - (length l - n) + 1)) as [Hlt|Hge].
  - assert (n ≤ length l)%nat as Hle by lia.
    assert (∀ x : list Q, tail x = drop 1 x) as -> by (by intros []).
    rewrite <- (drop_app_le l [v]) by lia. rewrite drop_drop.
    f_equal. lia.
  - replace (length l - n)%nat with 0%nat by lia.
    replace (length l + 1 - n)%nat with 0%nat by lia. done.
Qed.

(** The fields no call writes. *)
Definition config (ac : t) : Q * Q * Q * Q * Q * Q * nat :=
  (minConcurrency ac, maxConcurrency ac, targetCpuUtilization ac,
   targetMemoryUtilization ac, checkInterval ac, adjustmentStep ac,
   historySize ac).

Lemma call_config c ac : config (call c ac) = config ac.
Proof.
  destruct c as [[cpu free|]|n| |]; simpl; try done.
  - unfold checkResources. by destruct (negb _).
  - unfold setConcurrency. by destruct (negb _).
  - unfold start. by destruct (isMonitoring ac).
  - unfold stop. by destruct (negb _).
Qed.

Lemma calls_config cs ac : config (calls cs ac) = config ac.
Proof.
  induction cs as [|c cs IH] using rev_ind; [done|].
  by rewrite calls_snoc, call_config.
Qed.

(** X23.  The controller averages over the last three samples: after any
    sequence of checks and calls on a new controller, [metricsHistory.cpu]
    holds the CPU usage of the last three checks whose reads succeeded,
    oldest first, and [metricsHistory.memory] their memory usage
    [100 - freeMemPercentage]. *)
Theorem history_keeps_last_samples options cpus cs :
  let ac := calls cs (constructor options cpus) in
  let taken := samples_of cs in
  history_cpu ac = drop (length taken - 3) taken.*1 ∧
  history_memory ac
  = drop (length taken - 3) ((λ s, 100 - s.2) <$> taken).
Proof.
  simpl. induction cs as [|c cs [IHc IHm]] using rev_ind; [done|].
  rewrite calls_snoc. unfold samples_of in *. rewrite omap_app. simpl.
  set (ac := calls cs (constructor options cpus)) in *.
  set (taken := omap _ cs) in *.
  assert (historySize ac = 3%nat) as Hsize.
  { pose proof (calls_config cs (constructor options cpus)) as Hc.
    by injection Hc. }
  assert (∀ c', (∀ cpu free, c' ≠ Check (Sampled cpu free)) →
                history_cpu (call c' ac) = history_cpu ac ∧
                history_memory (call c' ac) = history_memory ac) as Hother.
  { intros [[cpu free|]|n| |] Hc'; simpl; try done.
    - by destruct (Hc' cpu free).
    - unfold setConcurrency. by destruct (negb _).
    - unfold start. by destruct (isMonitoring ac).
    - unfold stop. by destruct (negb _). }
  destruct c as [[cpu free|]|n| |];
    try (match goal with |- context [call ?c' ac] =>
           rewrite app_nil_r; destruct (Hother c') as [-> ->]; done
         end).
  change (call (Check (Sampled cpu free)) ac)
    with (checkResources (Sampled cpu free) ac).
  assert (history_cpu (checkResources (Sampled cpu free) ac)
          = addMetric cpu 3 (history_cpu ac) ∧
          history_memory (checkResources (Sampled cpu free) ac)
          = addMetric (100 - free) 3 (history_memory ac)) as [-> ->].
  { unfold checkResources, record_sample. rewrite Hsize.
    by destruct (negb _). }
  rewrite IHc, IHm, !fmap_app.
  change ([(cpu, free)].*1) with [cpu].
  change ((λ s : Q * Q, 100 - s.2) <$> [(cpu, free)]) with [100 - free].
  rewrite <- (length_fmap fst taken) at 1.
  rewrite <- (length_fmap (λ s, 100 - s.2) taken) at 1.
  rewrite !addMetric_last by lia.
  by rewrite !length_app, !length_fmap.
Qed.

(** *** Which way and how far a check moves the recommendation *)

Lemma propose_facts ac c m :
  0 <= adjustmentStep ac →
  currentConcurrency ac - 2 * adjustmentStep ac <= propose ac c m ∧
  propose ac c m <= currentConcurrency ac + adjustmentStep ac ∧
  (currentConcurrency ac < propose ac c m →
   c < targetCpuUtilization ac - 10 ∧ m < targetMemoryUtilization ac) ∧
  (propose ac c m < currentConcurrency ac → cpu_high ac c ∨ mem_high ac m).
Proof.
  intros Hstep. unfold propose, cpu_high, mem_high.
  destruct (Qlt_le_dec (targetCpuUtilization ac + 10) c);
    destruct (Qlt_le_dec (targetMemoryUtilization ac + 10) m);
    destruct (Qlt_le_dec c (targetCpuUtilization ac - 10));
    destruct (Qlt_le_dec m (targetMemoryUtilization ac));
    split_and!; try lra; intros ?; try lra; (split; lra) || (left; lra)
    || (right; lra).
Qed.

(** X25.  A check of a controller whose step is not negative and whose
    recommendation is within its bounds moves the recommendation by at most
    two steps down and one step up; it raises it only when the average CPU
    usage is more than 10 below its target and the average memory usage is
    below its target, and lowers it only when one of the two averages is
    more than 10 above its target. *)
Theorem check_moves_with_pressure ac cpu free :
  0 <= adjustmentStep ac →
  minConcurrency ac <= currentConcurrency ac →
  currentConcurrency ac <= maxConcurrency ac →
  let new := currentConcurrency (checkResources (Sampled cpu free) ac) in
  let c := avgCpu ac cpu free in
  let m := avgMem ac cpu free in
  currentConcurrency ac - 2 * adjustmentStep ac <= new ∧
  new <= currentConcurrency ac + adjustmentStep ac ∧
  (currentConcurrency ac < new →
   c < targetCpuUtilization ac - 10 ∧ m < targetMemoryUtilization ac) ∧
  (new < currentConcurrency ac → cpu_high ac c ∨ mem_high ac m).
Proof.
  intros Hstep Hmin Hmax new c m. unfold new.
  rewrite !checkResources_current. fold c m.
  destruct (propose_facts ac c m Hstep) as (H1 & H2 & H3 & H4).
  unfold clamp.
  destruct (Q.min_spec (maxConcurrency ac) (propose ac c m))
    as [[? Hmn]|[? Hmn]];
    destruct (Q.max_spec (minConcurrency ac)
                (Qmin (maxConcurrency ac) (propose ac c m)))
    as [[? Hmx]|[? Hmx]];
    rewrite Hmx; rewrite ?Hmn; rewrite Hmn in *;
    split_and!; try lra; intros ?; (apply H3; lra) || (apply H4; lra) || lra.
Qed.

(** Witness for [check_moves_with_pressure]: the default controller on a
    host with 8 CPUs, first sample CPU 95 %, free memory 50 %. *)
Lemma check_moves_with_pressure_witness :
  let ac := constructor default_options 8 in
  0 <= adjustmentStep ac ∧
  minConcurrency ac <= currentConcurrency ac ∧
  currentConcurrency ac <= maxConcurrency ac ∧
  currentConcurrency ac - 2 * adjustmentStep ac
  <= currentConcurrency (checkResources (Sampled 95 50) ac).
Proof.
  set (ac := constructor default_options 8).
  assert (0 <= adjustmentStep ac) as Hstep by (vm_compute; discriminate).
  assert (minConcurrency ac <= currentConcurrency ac) as Hmin
    by (vm_compute; discriminate).
  assert (currentConcurrency ac <= maxConcurrency ac) as Hmax
    by (vm_compute; discriminate).
  split_and!; [exact Hstep|exact Hmin|exact Hmax|].
  exact (proj1 (check_moves_with_pressure ac 95 50 Hstep Hmin Hmax)).
Defined.

End AdaptiveExtras.

(** ** The controller on JavaScript numbers *)
Module NumberExtras.
Import AdaptiveNumbers.
Local Open Scope Q_scope.

(** *** Agreement with the finite controller *)

Lemma addMetric_embed v n (l : list Q) :
  addMetric (Num v) n (Num <$> l)
  = Num <$> AdaptiveConcurrency.addMetric v n l.
Proof.
  unfold addMetric, AdaptiveConcurrency.addMetric.
  rewrite !length_app, length_fmap. simpl.
  destruct (n <? length l + 1)%nat.
  - rewrite fmap_tail. by rewrite fmap_app.
  - by rewrite fmap_app.
Qed.

Lemma foldl_plus_embed (l : list Q) acc :
  foldl plus (Num acc) (Num <$> l) = Num (foldl Qplus acc l).
Proof.
  revert acc. induction l as [|a l IH]; intros acc; [done|].
  simpl. apply IH.
Qed.

Lemma getAverageMetric_embed (l : list Q) :
  getAverageMetric (Num <$> l) = Num (AdaptiveConcurrency.getAverageMetric l).
Proof.
  destruct l as [|a l]; [done|].
  unfold getAverageMetric, AdaptiveConcurrency.getAverageMetric.
  cbn [fmap list_fmap foldl length].
  change (plus (Num 0) (Num a)) with (Num (0 + a)).
  by rewrite foldl_plus_embed, length_fmap.
Qed.

Lemma propose_embed ac c m :
  propose (embed ac) (Num c) (Num m)
  = Num (AdaptiveConcurrency.propose ac c m).
Proof.
  unfold propose, AdaptiveConcurrency.propose, number_lt. simpl.
  repeat destruct (Qlt_le_dec _ _); done.
Qed.

(** On finite samples and arguments the controller on numbers does what the
    finite controller does. *)
Lemma call_embed c ac :
  call (embed_call c) (embed ac) = embed (AdaptiveConcurrency.call c ac).
Proof.
  destruct c as [[cpu free|]|x| |];
    cbn [embed_call call AdaptiveConcurrency.call].
  - unfold checkResources, AdaptiveConcurrency.checkResources.
    assert (record_sample (Num cpu) (Num free) (embed ac)
            = embed (AdaptiveConcurrency.record_sample cpu free ac)) as ->.
    { unfold record_sample, AdaptiveConcurrency.record_sample, set_history,
        embed. simpl. by rewrite !addMetric_embed. }
    generalize (AdaptiveConcurrency.record_sample cpu free ac). intros ac1.
    cbv zeta. cbn [history_cpu history_memory embed].
    rewrite !getAverageMetric_embed, propose_embed.
    unfold clamp. simpl.
    destruct (negb _); [|done].
    unfold embed, emit, set_currentConcurrency. simpl.
    by rewrite !fmap_app.
  - unfold checkResources, AdaptiveConcurrency.checkResources, embed, emit.
    simpl. by rewrite fmap_app.
  - unfold setConcurrency, AdaptiveConcurrency.setConcurrency. simpl.
    destruct (negb _); [|done].
    unfold embed, emit, set_currentConcurrency. simpl.
    by rewrite !fmap_app.
  - unfold start, AdaptiveConcurrency.start. simpl.
    by destruct (AdaptiveConcurrency.isMonitoring ac).
  - unfold stop, AdaptiveConcurrency.stop. simpl.
    by destruct (negb _).
Qed.

Lemma calls_embed options cpus cs :
  calls (embed_call <$> cs) (constructor options cpus)
  = embed (AdaptiveConcurrency.calls cs
             (AdaptiveConcurrency.constructor options cpus)).
Proof.
  induction cs as [|c cs IH] using rev_ind; [done|].
  unfold calls, AdaptiveConcurrency.calls in *.
  rewrite fmap_app, !foldl_app. simpl. rewrite IH. apply call_embed.
Qed.

(** *** The updates the manager hears *)

Lemma number_calls_snoc cs c ac : calls (cs ++ [c]) ac = call c (calls cs ac).
Proof. unfold calls. by rewrite foldl_app. Qed.

(** The bounds, which no call writes. *)
Definition bounds (ac : t) : Q * Q := (minConcurrency ac, maxConcurrency ac).

Lemma call_bounds c ac : bounds (call c ac) = bounds ac.
Proof.
  destruct c as [[cpu free|]|n| |]; simpl; try done.
  - unfold checkResources. by destruct (strict_ne _ _).
  - unfold setConcurrency. by destruct (strict_ne _ _).
  - unfold start. by destruct (isMonitoring ac).
  - unfold stop. by destruct (negb _).
Qed.

Lemma calls_bounds cs ac : bounds (calls cs ac) = bounds ac.
Proof.
  induction cs as [|c cs IH] using rev_ind; [done|].
  by rewrite number_calls_snoc, call_bounds.
Qed.

(** A finite number within the bounds [b]. *)
Definition within (b : Q * Q) (n : number) : Prop :=
  ∃ q, n = Num q ∧ b.1 <= q ∧ (b.1 <= b.2 → q <= b.2).

Lemma clamp_within ac q : within (bounds ac) (clamp ac (Num q)).
Proof.
  eexists. split; [reflexivity|]. simpl. split.
  - apply Q.le_max_l.
  - intros Hle. apply Q.max_lub; [done|]. apply Q.le_min_l.
Qed.

Lemma clamp_argument_within ac a :
  a ≠ Arg NaN → within (bounds ac) (clamp_argument ac a).
Proof.
  destruct a as [[q|]| |]; intros Ha; [|done|..]; simpl.
  - apply clamp_within.
  - eexists. split; [reflexivity|]. simpl. split.
    + apply Q.le_max_l.
    + intros Hle. apply Q.max_lub; [done|apply Qle_refl].
  - eexists. split; [reflexivity|]. simpl. split; [apply Qle_refl|done].
Qed.

Lemma propose_finite ac c m q :
  currentConcurrency ac = Num q → ∃ q', propose ac c m = Num q'.
Proof.
  intros Hq. unfold propose. rewrite Hq.
  repeat match goal with
         | |- context [if ?b then _ else _] => destruct b
         end; simpl; by eexists.
Qed.

Lemma propose_NaN ac c m :
  currentConcurrency ac = NaN → propose ac c m = NaN.
Proof.
  intros Hq. unfold propose. rewrite Hq.
  by repeat match goal with
            | |- context [if ?b then _ else _] => destruct b
            end.
Qed.

(** The recommendation and the updates after the calls [cs]: [NaN] only
    after a [setConcurrency(NaN)], and otherwise within the bounds. *)
Definition sound (b : Q * Q) (cs : list Call) (ac : t) : Prop :=
  (currentConcurrency ac = NaN → SetConcurrency (Arg NaN) ∈ cs) ∧
  ∀ n, ConcurrencyUpdate n ∈ events ac →
       n = NaN ∧ SetConcurrency (Arg NaN) ∈ cs ∨ within b n.

Lemma sound_more b cs c n :
  n = NaN ∧ SetConcurrency (Arg NaN) ∈ cs ∨ within b n →
  n = NaN ∧ SetConcurrency (Arg NaN) ∈ cs ++ [c] ∨ within b n.
Proof.
  intros [[-> Hin]|Hw]; [left|by right].
  split; [done|]. apply elem_of_app. by left.
Qed.

Lemma sound_call b cs c ac :
  bounds ac = b → sound b cs ac → sound b (cs ++ [c]) (call c ac).
Proof.
  intros Hb [Hcur Hev].
  assert (∀ n, ConcurrencyUpdate n ∈ events ac →
               n = NaN ∧ SetConcurrency (Arg NaN) ∈ cs ++ [c] ∨ within b n)
    as Hev' by (intros n Hn; by apply sound_more, Hev).
  assert (currentConcurrency ac = NaN → SetConcurrency (Arg NaN) ∈ cs ++ [c])
    as Hcur' by (intros Hnan; apply elem_of_app; left; by apply Hcur).
  assert (∀ n, n = NaN ∧ SetConcurrency (Arg NaN) ∈ cs ++ [c] ∨ within b n →
               n = NaN → SetConcurrency (Arg NaN) ∈ cs ++ [c]) as Hnan.
  { intros n [[_ Hin]|(q & -> & _)]; done. }
  destruct c as [[cpu free|]|a| |]; simpl.
  - unfold checkResources.
    set (ac1 := record_sample cpu free ac).
    set (c := getAverageMetric (history_cpu ac1)).
    set (m := getAverageMetric (history_memory ac1)).
    change (clamp ac1) with (clamp ac). change (propose ac1) with (propose ac).
    change (currentConcurrency ac1) with (currentConcurrency ac).
    assert (clamp ac (propose ac c m) = NaN
            ∧ SetConcurrency (Arg NaN)
              ∈ cs ++ [Check (Sampled cpu free)]
            ∨ within b (clamp ac (propose ac c m))) as Hnew.
    { destruct (currentConcurrency ac) as [q|] eqn:Hq.
      - right. destruct (propose_finite ac c m q Hq) as [q' ->].
        rewrite <- Hb. apply clamp_within.
      - left. rewrite (propose_NaN ac c m Hq). split; [done|].
        by apply Hcur'. }
    destruct (strict_ne _ _); [|by split].
    split; [by apply Hnan|]. simpl.
    intros n [[Hn|Hn%list_elem_of_singleton]%elem_of_app
             |Hn%list_elem_of_singleton]%elem_of_app;
      [by apply Hev'|by injection Hn as ->|done].
  - split; [done|]. simpl.
    intros n [Hn|Hn%list_elem_of_singleton]%elem_of_app;
      [by apply Hev'|done].
  - unfold setConcurrency.
    assert (clamp_argument ac a = NaN
            ∧ SetConcurrency (Arg NaN) ∈ cs ++ [SetConcurrency a]
            ∨ within b (clamp_argument ac a)) as Hnew.
    { assert (a = Arg NaN ∨ a ≠ Arg NaN) as [->|Ha]
        by (destruct a as [[q|]| |]; first [by left|by right]).
      - left. split; [done|]. apply elem_of_app. right. by left.
      - right. rewrite <- Hb. by apply clamp_argument_within. }
    destruct (strict_ne _ _); [|by split].
    split; [by apply Hnan|]. simpl.
    intros n [Hn|Hn%list_elem_of_singleton]%elem_of_app;
      [by apply Hev'|by injection Hn as ->].
  - unfold start. by destruct (isMonitoring ac).
  - unfold stop. by destruct (negb _).
Qed.

Lemma sound_calls options cpus cs :
  sound (bounds (constructor options cpus)) cs
        (calls cs (constructor options cpus)).
Proof.
  induction cs as [|c cs IH] using rev_ind.
  - split; [done|]. simpl. by intros n ?%elem_of_nil.
  - rewrite number_calls_snoc. apply sound_call; [|done]. apply calls_bounds.
Qed.

(** The manager's listener takes [NaN] and every number that is at least 1
    as its bound. *)
Lemma listener_accepts n s :
  n = NaN ∨ (∃ q, n = Num q ∧ 1 <= q) →
  (Wiring.on_concurrency_update n s).1 = Returned tt ∧
  QueueManager.concurrency (Wiring.on_concurrency_update n s).2 = n.
Proof.
  intros Hn.
  unfold Wiring.on_concurrency_update, QueueManager.setConcurrency.
  assert (number_lt n (Num 1) = false) as ->.
  { destruct Hn as [->|(q & -> & Hq)]; [done|]. unfold number_lt.
    destruct (Qlt_le_dec q 1); [lra|done]. }
  split; [done|]. simpl.
  destruct (QueueManager.isProcessing s && negb (QueueManager.isPaused s));
    [|done].
  by rewrite QueueClaims.processQueue_concurrency.
Qed.

(** X26.  Every ['concurrency-update'] a controller emits, after any
    sequence of checks and calls, carries [NaN] or a finite number.  It
    carries [NaN] only after a [setConcurrency(NaN)], which is also what
    [setConcurrency()] is; a finite number is at least [minConcurrency] and,
    when [minConcurrency ≤ maxConcurrency], at most [maxConcurrency].  The
    listener of the queue manager does not throw on an update that is [NaN],
    nor on any update when [minConcurrency] is at least 1, as by default:
    [setConcurrency] returns and the value, [NaN] included, is the
    manager's bound. *)
Theorem updates_within_bounds_or_NaN options cpus cs n s :
  let ac := calls cs (constructor options cpus) in
  ConcurrencyUpdate n ∈ events ac →
  (n = NaN ∧ SetConcurrency (Arg NaN) ∈ cs ∨
   ∃ q, n = Num q ∧ minConcurrency ac <= q ∧
        (minConcurrency ac <= maxConcurrency ac → q <= maxConcurrency ac)) ∧
  (n = NaN ∨ 1 <= minConcurrency ac →
   (Wiring.on_concurrency_update n s).1 = Returned tt ∧
   QueueManager.concurrency (Wiring.on_concurrency_update n s).2 = n).
Proof.
  intros ac Hin.
  destruct (sound_calls options cpus cs) as [_ Hev].
  specialize (Hev n Hin).
  pose proof (calls_bounds cs (constructor options cpus)) as Hb.
  fold ac in Hb. rewrite <- Hb in Hev.
  split; [exact Hev|].
  intros Hok. apply listener_accepts.
  destruct Hev as [[-> _]|(q & -> & Hq & _)]; [by left|].
  destruct Hok as [[=]|Hone]. right. exists q. split; [done|].
  simpl in Hq. lra.
Qed.

(** Witness for [updates_within_bounds_or_NaN]: the default controller on a
    host with 8 CPUs after a check with CPU 95 % and free memory 50 %, which
    emits the update 7. *)
Lemma updates_within_bounds_or_NaN_witness :
  let cs := [Check (Sampled (Num 95) (Num 50))] in
  let ac := calls cs (constructor AdaptiveClaims.default_options 8) in
  let s := QueueManager.constructor Scenario.pair Scenario.default_options in
  ConcurrencyUpdate (Num 7) ∈ events ac ∧
  (Wiring.on_concurrency_update (Num 7) s).1 = Returned tt.
Proof.
  set (cs := [Check (Sampled (Num 95) (Num 50))]).
  set (ac := calls cs (constructor AdaptiveClaims.default_options 8)).
  assert (ConcurrencyUpdate (Num 7) ∈ events ac) as Hin.
  { assert (∃ l, events ac = ConcurrencyUpdate (Num 7) :: l) as [l ->]
      by (eexists; by vm_compute).
    by left. }
  assert (Num 7 = NaN ∨ 1 <= minConcurrency ac) as Hone
    by (right; vm_compute; discriminate).
  split; [exact Hin|].
  exact (proj1 (proj2
           (updates_within_bounds_or_NaN AdaptiveClaims.default_options 8 cs
              (Num 7)
              (QueueManager.constructor Scenario.pair Scenario.default_options)
              Hin) Hone)).
Defined.

(** [setConcurrency()] on the default controller of a host with 8 CPUs:
    the recommendation is [NaN] and the update carries it; the manager's
    listener takes [NaN] as its bound; and the next check, whatever it
    reads, emits [NaN] again. *)
Lemma missing_argument_reaches_manager :
  let ac0 := constructor AdaptiveClaims.default_options 8 in
  let ac := setConcurrency (Arg NaN) ac0 in
  let s := QueueManager.constructor Scenario.pair Scenario.default_options in
  currentConcurrency ac = NaN ∧
  events ac = [ConcurrencyUpdate NaN] ∧
  (Wiring.on_concurrency_update NaN s).1 = Returned tt ∧
  QueueManager.concurrency (Wiring.on_concurrency_update NaN s).2 = NaN ∧
  events (checkResources (Sampled (Num 50) (Num 50)) ac)
  = [ConcurrencyUpdate NaN; ConcurrencyUpdate NaN;
     MetricsEvent (Num 50) (Num 50) NaN NaN].
Proof. cbv zeta. split_and!; by vm_compute. Qed.

(** [a === b] on numbers, up to the representation of a finite value. *)
Definition same (a b : number) : Prop :=
  match a, b with
  | Num x, Num y => x == y
  | _, _ => False
  end.

Lemma strict_ne_same a b : strict_ne a b = false ↔ same a b.
Proof.
  destruct a as [x|], b as [y|]; simpl; try done.
  rewrite negb_false_iff. apply Qeq_bool_iff.
Qed.

(** X27.  [setConcurrency(n)] of the controller sets the recommendation to
    [n] clamped into the bounds, which is [NaN] exactly when [n] is [NaN] or
    missing, and emits an update with it exactly when it [!==] the
    recommendation before.  The call is idempotent exactly when [n] is not
    [NaN]: [NaN !== NaN], so [setConcurrency(NaN)] emits another update on
    every call. *)
Theorem setConcurrency_idempotent_unless_NaN a ac :
  let new := clamp_argument ac a in
  (new = NaN ↔ a = Arg NaN) ∧
  (new = NaN ∧ currentConcurrency (setConcurrency a ac) = NaN ∨
   same (currentConcurrency (setConcurrency a ac)) new) ∧
  (same new (currentConcurrency ac) ↔
   events (setConcurrency a ac) = events ac) ∧
  (¬ same new (currentConcurrency ac) →
   events (setConcurrency a ac) = events ac ++ [ConcurrencyUpdate new]) ∧
  (a ≠ Arg NaN ↔
   setConcurrency a (setConcurrency a ac) = setConcurrency a ac).
Proof.
  intros new.
  assert (new = NaN ↔ a = Arg NaN) as Hnan.
  { split; [|by intros ->].
    intros Hn. destruct a as [[q|]| |]; done. }
  assert (∀ ac', bounds ac' = bounds ac →
                 clamp_argument ac' a = new) as Hsame.
  { intros ac' [= Hmin Hmax]. unfold new, clamp_argument, clamp.
    by rewrite Hmin, Hmax. }
  unfold setConcurrency. fold new. clearbody new.
  destruct (strict_ne new (currentConcurrency ac)) eqn:Hne.
  - assert (¬ same new (currentConcurrency ac)) as Hdiff.
    { rewrite <- strict_ne_same. by rewrite Hne. }
    rewrite (Hsame (emit _ _)) by done. simpl.
    split_and!; [done| | |done|].
    + destruct new as [q|]; [right; simpl; reflexivity|by left].
    + split; [done|]. intros Hev. apply (f_equal length) in Hev.
      rewrite length_app in Hev. simpl in Hev. lia.
    + destruct new as [q|].
      * simpl. rewrite (proj2 (Qeq_bool_iff q q) (Qeq_refl q)). simpl.
        split; [done|]. intros _ Ha. by apply Hnan in Ha.
      * simpl. split; [intros Ha; destruct Ha; by apply Hnan|].
        intros Hev. apply (f_equal (λ x, length (events x))) in Hev.
        simpl in Hev. rewrite !length_app in Hev. simpl in Hev. lia.
  - rewrite ?(Hsame ac eq_refl), ?Hne. apply strict_ne_same in Hne.
    split_and!; [done| |done|done|].
    + right. destruct new as [x|], (currentConcurrency ac) as [y|];
        simpl in *; first [done|by symmetry].
    + split; [done|]. intros _ Ha. apply Hnan in Ha. by rewrite Ha in Hne.
Qed.

End NumberExtras.
